(** * release-it: the release orchestration engine

    A shallow embedding of [lib/tasks.js], [lib/npm.js] and the GitHub
    release client (the class [GitHub]), with the properties of the
    retry, one-time-passcode, dry-run, gating and ordering behaviour
    proved over it.

    JavaScript values are an inductive type with the language's
    truthiness and string conversion; option objects are finite maps from
    property names to values; promises are computations in a monad that
    threads the client state, records every call to a collaborator in a
    trace, and ends in a value, a thrown error, or (for the unbounded
    one-time-passcode recursion) exhaustion of its fuel. *)

From Stdlib Require Import ZArith Ascii String List Bool Lia.
From stdpp Require Import base option list gmap strings pretty.

Open Scope string_scope.
Open Scope list_scope.

(** ** JavaScript values *)

Inductive value :=
| VUndef
| VNull
| VBool (b : bool)
| VNum (n : Z)
| VStr (s : string).

(** [!!v] in JavaScript: undefined, null, false, 0 and the empty string
    are falsy. *)
Definition truthy (v : value) : bool :=
  match v with
  | VUndef | VNull => false
  | VBool b => b
  | VNum n => negb (n =? 0)%Z
  | VStr s => negb (String.eqb s EmptyString)
  end.

(** String conversion, as in a template literal. *)
Definition to_string (v : value) : string :=
  match v with
  | VUndef => "undefined"
  | VNull => "null"
  | VBool true => "true"
  | VBool false => "false"
  | VNum n => pretty n
  | VStr s => s
  end.

Arguments to_string : simpl never.

(** A destructuring default [x = d]: it applies to undefined only. *)
Definition or_default (v d : value) : value :=
  match v with VUndef => d | _ => v end.

(** [a && b] on values. *)
Definition js_and (a b : value) : value := if truthy a then b else a.

(** [a || b] on values. *)
Definition js_or (a b : value) : value := if truthy a then a else b.

(** [!a] *)
Definition js_not (a : value) : value := VBool (negb (truthy a)).

(** [v != null]: neither null nor undefined. *)
Definition not_nullish (v : value) : bool :=
  match v with VUndef | VNull => false | _ => true end.

(** Option objects: property name to value; a missing property reads as
    undefined. *)
Abbreviation obj := (gmap string value).

Definition prop (o : obj) (k : string) : value := default VUndef (o !! k).
Arguments prop : simpl never.

(** [Object.assign({}, a, b)]: properties of [b] win. *)
Definition assign (a b : obj) : obj := b ∪ a.

(** [Object.assign({}, ...args)] *)
Definition assign_all (args : list obj) : obj := foldl assign ∅ args.

(** ** Substring search, for [RegExp.prototype.test] with a literal
    pattern *)

Fixpoint is_prefix (p s : string) : bool :=
  match p, s with
  | EmptyString, _ => true
  | String a p', String b s' => Ascii.eqb a b && is_prefix p' s'
  | String _ _, EmptyString => false
  end.

Fixpoint contains (p s : string) : bool :=
  is_prefix p s ||
  match s with
  | EmptyString => false
  | String _ s' => contains p s'
  end.

(** ** The semver library: [semver.prerelease]

    The strict grammar of the library: an optional [v], three numeric
    identifiers without leading zero separated by dots, then optionally a
    hyphen and dot-separated pre-release identifiers, then optionally a
    plus sign and dot-separated build identifiers. [prerelease] gives the list of pre-release
    components (numeric ones as numbers), or null when the version does
    not parse or has none. *)
Module semver.

Definition is_digit (c : ascii) : bool :=
  let n := nat_of_ascii c in (48 <=? n)%nat && (n <=? 57)%nat.

Definition is_alpha_hyphen (c : ascii) : bool :=
  let n := nat_of_ascii c in
  ((65 <=? n)%nat && (n <=? 90)%nat) ||
  ((97 <=? n)%nat && (n <=? 122)%nat) || (n =? 45)%nat.

Definition is_ident_char (c : ascii) : bool := is_digit c || is_alpha_hyphen c.

(** NUMERICIDENTIFIER: a zero, or digits not starting with zero. *)
Definition numeric_identifier (s : list ascii) : bool :=
  match s with
  | [] => false
  | [c] => is_digit c
  | c :: r => is_digit c && negb (Ascii.eqb c "0") && forallb is_digit r
  end.

(** NONNUMERICIDENTIFIER: letters, digits and hyphens, at least one of
    them not a digit. *)
Definition non_numeric_identifier (s : list ascii) : bool :=
  forallb is_ident_char s && existsb is_alpha_hyphen s.

Definition prerelease_identifier (s : list ascii) : bool :=
  numeric_identifier s || non_numeric_identifier s.

(** BUILDIDENTIFIER: one or more letters, digits or hyphens. *)
Definition build_identifier (s : list ascii) : bool :=
  match s with [] => false | _ => forallb is_ident_char s end.

(** [s.split(sep)] *)
Fixpoint split_on (sep : ascii) (s : list ascii) : list (list ascii) :=
  match s with
  | [] => [[]]
  | c :: r =>
    if Ascii.eqb c sep then [] :: split_on sep r
    else match split_on sep r with
         | [] => [[c]]
         | w :: ws => (c :: w) :: ws
         end
  end.

(** The part before the first [sep], and the part after it when there
    is one. *)
Fixpoint break_at (sep : ascii) (s : list ascii) : list ascii * option (list ascii) :=
  match s with
  | [] => ([], None)
  | c :: r =>
    if Ascii.eqb c sep then ([], Some r)
    else let '(a, b) := break_at sep r in (c :: a, b)
  end.

Definition digits_to_Z (s : list ascii) : Z :=
  fold_left (fun acc c => (10 * acc + Z.of_nat (nat_of_ascii c - 48))%Z) s 0%Z.

Definition MAX_SAFE_INTEGER : Z := 9007199254740991.
Definition MAX_LENGTH : nat := 256.

Definition component (s : list ascii) : value :=
  if forallb is_digit s && negb (Nat.eqb (length s) 0) &&
     (digits_to_Z s <? MAX_SAFE_INTEGER)%Z
  then VNum (digits_to_Z s)
  else VStr (string_of_list_ascii s).

(** [parse(version)], keeping the pre-release components only. *)
Definition parse (version : string) : option (list value) :=
  let s := list_ascii_of_string version in
  if (MAX_LENGTH <? length s)%nat then None else
  let s := match s with
           | c :: r => if Ascii.eqb c "v" then r else s
           | [] => s
           end in
  let '(core, build) := break_at "+" s in
  let '(main, pre) := break_at "-" core in
  let main_ok :=
    match split_on "." main with
    | [a; b; c] =>
      forallb numeric_identifier [a; b; c] &&
      forallb (fun x => (digits_to_Z x <=? MAX_SAFE_INTEGER)%Z) [a; b; c]
    | _ => false
    end in
  let build_ok :=
    match build with
    | None => true
    | Some b => forallb build_identifier (split_on "." b)
    end in
  let pre_ids := match pre with None => [] | Some p => split_on "." p end in
  if main_ok && build_ok && forallb prerelease_identifier pre_ids
  then Some (map component pre_ids)
  else None.

(** [semver.prerelease(version)]: null for a non-string, an invalid
    version, or a version without pre-release components. *)
Definition prerelease (version : value) : option (list value) :=
  match version with
  | VStr s =>
    match parse s with
    | Some (c :: cs) => Some (c :: cs)
    | _ => None
    end
  | _ => None
  end.

End semver.

(** ** Collaborators that are pure functions

    [semver.prerelease], [format] of [lib/util.js] (a template and the
    version to substitute), [parse-repo], [path.basename],
    [mime.contentType], [semver.valid], the recommendation test of the
    version resolver, and [_.get(process.env, path, null)] of lodash,
    which reads the environment (given by its variables) along a
    property path. The development is parametric in them. *)

Record repo_info := {
  repo_host : value;
  repo_owner : value;
  repo_project : value;
  repo_repository : value
}.

Class Externals := {
  prerelease : value -> option (list value);
  format : value -> value -> string;
  repoPathParse : value -> repo_info;
  basename : string -> string;
  contentType : string -> value;
  isRecommendation : value -> bool;
  valid : value -> value;
  env_get : gmap string string -> value -> value
}.

(** [_.get(array, 0, dflt)] on the result of [semver.prerelease]: the
    default when the array is null or its first element is undefined. *)
Definition get0 (a : option (list value)) (dflt : value) : value :=
  match a with
  | Some (VUndef :: _) => dflt
  | Some (c :: _) => c
  | _ => dflt
  end.

Definition DEFAULT_TAG : string := "latest".
Definition NPM_BASE_URL : string := "https://www.npmjs.com/package/".

(** The argument object of [getTag]. *)
Record tag_args := {
  ta_tag : value;
  ta_version : value;
  ta_isPreRelease : value
}.

Section GetTag.
Context `{Ext : Externals}.

(** [npm.getTag({ tag = DEFAULT_TAG, version, isPreRelease } = {})] *)
Definition getTag (a : tag_args) : value :=
  let tag := or_default (ta_tag a) (VStr DEFAULT_TAG) in
  if negb (truthy (ta_isPreRelease a)) || negb (truthy (ta_version a)) then tag
  else
    let preReleaseComponents := prerelease (ta_version a) in
    get0 preReleaseComponents tag.

End GetTag.

(** ** The collaborators of the concrete runs

    What stands for the libraries in the runs that this file evaluates.
    No theorem about the clients or the pipeline depends on them: those
    hold for every instance of [Externals]. *)

(** [_.toString(v)]: the empty string for null and undefined, as the
    interpolation of a lodash template has it. *)
Definition lodash_toString (v : value) : string :=
  match v with
  | VUndef | VNull => EmptyString
  | _ => to_string v
  end.

Fixpoint substitute (skip : nat) (version template : string) : string :=
  match template with
  | EmptyString => EmptyString
  | String c rest =>
    match skip with
    | S k => substitute k version rest
    | O =>
      if is_prefix "${version}" template
      then (version ++ substitute 9 version rest)%string
      else String c (substitute 0 version rest)
    end
  end.

(** Modelled from the spec: [lib/util.js] is not among the sources.
    [format(template, { version })] renders the template with every
    [${version}] replaced by the version, a version that is not there
    rendering as nothing. *)
Definition format_template (template version : value) : string :=
  substitute 0 (lodash_toString version) (lodash_toString template).

Definition is_empty (s : list ascii) : bool :=
  match s with [] => true | _ => false end.

(** [path.basename(p)]: the last segment of the path that is not
    empty. *)
Definition path_basename (p : string) : string :=
  string_of_list_ascii
    (List.last (List.filter (fun seg => negb (is_empty seg))
                            (semver.split_on "/" (list_ascii_of_string p))) []).

Definition lower (c : ascii) : ascii :=
  let n := nat_of_ascii c in
  if (65 <=? n)%nat && (n <=? 90)%nat then ascii_of_nat (n + 32) else c.

(** A few lines of the table of [mime-types], with the character set
    that [contentType] adds to a type of text. *)
Definition mime_table : list (string * string) :=
  [("zip", "application/zip");
   ("gz", "application/gzip");
   ("tgz", "application/gzip");
   ("tar", "application/x-tar");
   ("json", "application/json; charset=utf-8");
   ("js", "application/javascript; charset=utf-8");
   ("txt", "text/plain; charset=utf-8");
   ("md", "text/markdown; charset=utf-8");
   ("html", "text/html; charset=utf-8")].

Fixpoint assoc (k : string) (table : list (string * string)) : option string :=
  match table with
  | [] => None
  | (k', v) :: rest => if String.eqb k k' then Some v else assoc k rest
  end.

(** [mime.contentType(name)] for a file name: the type that the table
    has for the extension of [name], or false. *)
Definition mime_contentType (name : string) : value :=
  if String.eqb name EmptyString then VBool false
  else
    let segments := semver.split_on "." (list_ascii_of_string ("x." ++ path_basename name)) in
    let extension := string_of_list_ascii (map lower (List.last segments [])) in
    match assoc extension mime_table with
    | Some type => VStr type
    | None => VBool false
    end.

Fixpoint strip_prefix (p s : string) : option string :=
  match p, s with
  | EmptyString, _ => Some s
  | String a p', String b s' => if Ascii.eqb a b then strip_prefix p' s' else None
  | String _ _, EmptyString => None
  end.

Definition strip_suffix (p s : string) : string :=
  let n := String.length s - String.length p in
  if String.eqb (String.substring n (String.length p) s) p
  then String.substring 0 n s else s.

Definition break_string (sep : ascii) (s : string) : string * option string :=
  let '(a, b) := semver.break_at sep (list_ascii_of_string s) in
  (string_of_list_ascii a, option_map string_of_list_ascii b).

(** [parse-repo] on the URL of a remote, in the two forms
    [https://host/owner/project.git] and [git@host:owner/project.git];
    for anything else the fields are undefined. *)
Definition parse_repo (url : value) : repo_info :=
  let unknown := {| repo_host := VUndef; repo_owner := VUndef; repo_project := VUndef;
                    repo_repository := VUndef |} in
  let located :=
    match url with
    | VStr u =>
      match strip_prefix "https://" u with
      | Some rest => Some (break_string "/" rest)
      | None =>
        match strip_prefix "git@" u with
        | Some rest => Some (break_string ":" rest)
        | None => None
        end
      end
    | _ => None
    end in
  match located with
  | Some (host, Some path) =>
    let repository := strip_suffix ".git" path in
    match break_string "/" repository with
    | (owner, Some project) =>
      {| repo_host := VStr host; repo_owner := VStr owner; repo_project := VStr project;
         repo_repository := VStr repository |}
    | _ => unknown
    end
  | _ => unknown
  end.

(** [semver.valid(v)]: the version without a leading [v] and without
    build identifiers when it parses, and null otherwise. *)
Definition semver_valid (v : value) : value :=
  match v with
  | VStr s =>
    match semver.parse s with
    | Some _ =>
      let core := fst (break_string "+" s) in
      VStr (match strip_prefix "v" core with Some r => r | None => core end)
    | None => VNull
    end
  | _ => VNull
  end.

(** The names that every object inherits from [Object.prototype]. *)
Definition object_prototype : list string :=
  ["constructor"; "__defineGetter__"; "__defineSetter__"; "hasOwnProperty";
   "__lookupGetter__"; "__lookupSetter__"; "isPrototypeOf"; "propertyIsEnumerable";
   "toString"; "valueOf"; "__proto__"; "toLocaleString"].

Definition is_path_char (c : ascii) : bool :=
  Ascii.eqb c "." || Ascii.eqb c "[" || Ascii.eqb c "]".

(** A reference that lodash takes for one property name whatever the
    object is: a string without dot and bracket. *)
Definition simple_name (k : string) : bool :=
  forallb (fun c => negb (is_path_char c)) (list_ascii_of_string k).

(** [process.env[k]]: the variable [k], or what the environment
    inherits under that name (a function, which stands here as the text
    that it converts to), or undefined. *)
Definition env_property (env : gmap string string) (k : string) : value :=
  match env !! k with
  | Some v => VStr v
  | None =>
    if bool_decide (k ∈ object_prototype)
    then VStr ("function " ++ k ++ "() { [native code] }")
    else VUndef
  end.

(** [v[k]] for a value found on the way: the length of a string; the
    other properties that strings, numbers and functions inherit are not
    known to this instance. *)
Definition value_property (v : value) (k : string) : value :=
  match v with
  | VStr s => if String.eqb k "length" then VNum (Z.of_nat (String.length s)) else VUndef
  | _ => VUndef
  end.

Fixpoint walk (v : value) (path : list string) : value :=
  match path with
  | [] => v
  | k :: rest =>
    match v with
    | VUndef | VNull => v
    | _ => walk (value_property v k) rest
    end
  end.

(** [_.get(process.env, ref, null)]: a reference that is a variable or
    has no dot and no bracket is one property name; any other is a path,
    split at its dots (paths with brackets are not known to this
    instance, which finds nothing for them); what is undefined at the
    end gives null. *)
Definition lodash_get_env (env : gmap string string) (ref : value) : value :=
  let k := to_string ref in
  let is_key :=
    match ref with
    | VStr _ => simple_name k || bool_decide (is_Some (env !! k))
                || bool_decide (k ∈ object_prototype)
    | _ => true
    end in
  let found :=
    if is_key then env_property env k
    else if existsb (fun c => Ascii.eqb c "[" || Ascii.eqb c "]") (list_ascii_of_string k)
         then VUndef
         else match map string_of_list_ascii (semver.split_on "." (list_ascii_of_string k)) with
              | [] => VUndef
              | first :: rest =>
                match env_property env first with
                | VUndef => VUndef
                | v => walk v rest
                end
              end in
  match found with
  | VUndef => VNull
  | v => v
  end.

(** The recommendation test of the version resolver: an increment that
    asks for the conventional changelog to choose. *)
Definition is_recommendation (increment : value) : bool :=
  match increment with
  | VStr s => is_prefix "conventional:" s
  | _ => false
  end.

#[export] Instance concrete_externals : Externals := {|
  prerelease := semver.prerelease;
  format := format_template;
  repoPathParse := parse_repo;
  basename := path_basename;
  contentType := mime_contentType;
  isRecommendation := is_recommendation;
  valid := semver_valid;
  env_get := lodash_get_env
|}.

(** ** Errors

    A collaborator (git, shell, file system) rejects with an [Error] or
    with a bare value; the GitHub API client rejects with an [Error] that
    carries the HTTP status. The remaining constructors are the error
    classes of [lib/errors.js] and the language's TypeError. *)

Inductive rejection :=
| Error (name message : string)
| Thrown (v : value).

Record http_error := {
  he_status : value;
  he_message : string
}.

Inductive exn :=
| Rejected (r : rejection)
| HttpError (e : http_error)
| GithubTokenError (tokenRef : value)
| GithubClientError (msg : string)
| InvalidVersionError
| TypeError.

(** [String(err)] for a rejection: [Error.prototype.toString] joins name
    and message. *)
Definition rejection_to_string (r : rejection) : string :=
  match r with
  | Error name message =>
    if String.eqb name EmptyString then message
    else if String.eqb message EmptyString then name
    else name ++ ": " ++ message
  | Thrown v => to_string v
  end.

Inductive result (A : Type) :=
| Returned (a : A)
| Raised (r : rejection).
Arguments Returned {A} a.
Arguments Raised {A} r.

Inductive net_result (A : Type) :=
| NetOk (a : A)
| NetErr (e : http_error).
Arguments NetOk {A} a.
Arguments NetErr {A} e.

(** The version resolver's [bump]: a resolved version (or undefined when
    the increment is left to the operator), or InvalidVersionError. *)
Inductive bump_result :=
| BumpOk (version : value)
| BumpInvalid.

(** ** Calls to collaborators, and the trace *)

Inductive target := Primary | Dist.

Inductive level := Lexec | Ldry | Lverbose | Lwarn | Linfo | Llog.

Inductive git_op :=
| GInit
| GValidate
| GValidateStageDir (dir : value)
| GGetChangelog (cmd : value)
| GReset (files : value)
| GStage (files : value)
| GStageDir
| GStatus
| GClone (repo dir : value)
| GCommit
| GTag
| GPush
| GShouldTag.

Inductive shell_op :=
| SRunTemplate (cmd : value)
| SRun (cmd : string) (isReadOnly verbose : value)
| SBump (files version : value)
| SCopy (files cwd dir : value)
| SPushd (dir : value)
| SPopd.

Record create_request := {
  cr_owner : value;
  cr_repo : value;
  cr_tag_name : string;
  cr_name : string;
  cr_body : value;
  cr_prerelease : value;
  cr_draft : value
}.

Record release_data := {
  rd_name : value;
  rd_tag_name : value;
  rd_html_url : value;
  rd_upload_url : value;
  rd_location : value
}.

Record upload_request := {
  ur_url : value;
  ur_file : string;
  ur_name : string;
  ur_content_type : value;
  ur_content_length : value
}.

Record asset_data := {
  ad_browser_download_url : value
}.

Inductive event :=
| EvLog (l : level) (msg : string)
| EvGit (t : target) (op : git_op) (r : result value)
| EvShell (op : shell_op) (r : result value)
| EvCreateRelease (t : target) (req : create_request) (r : net_result release_data)
| EvUploadAsset (t : target) (req : upload_request) (r : net_result asset_data)
| EvGlobby (assets : value) (files : list string)
| EvStat (path : string) (r : result value)
| EvPrompt (name : string) (answer : value)
| EvBump (increment preRelease : value) (r : bump_result)
| EvValidate (version : value)
| EvMetric (action : string)
| EvOnSignal (signal : string)
| EvError (e : exn)
| EvGroup (t : target) (entered : bool) (version : value).

(** The environment: what each collaborator answers, given everything
    that happened so far; and, of the uploads that are under way at the
    same time, which one is answered next ([w_next] counts among their
    requests, and round them). *)
Record world := {
  w_env : gmap string string;
  w_git : list event -> target -> git_op -> result value;
  w_git_prop : list event -> target -> string -> value;
  w_shell : list event -> shell_op -> result value;
  w_create : list event -> target -> create_request -> net_result release_data;
  w_upload : list event -> target -> upload_request -> net_result asset_data;
  w_globby : list event -> value -> list string;
  w_stat : list event -> string -> result value;
  w_next : list event -> list upload_request -> nat;
  w_prompt : list event -> string -> value;
  w_bump : list event -> value -> value -> bump_result;
  w_isPreRelease : list event -> value
}.

(** ** Client state *)

Record gh_state := {
  gh_version : value;
  gh_releaseUrl : value;
  gh_uploadUrl : value;
  gh_isReleased : value
}.

Definition gh_init : gh_state :=
  {| gh_version := VUndef; gh_releaseUrl := VUndef; gh_uploadUrl := VUndef;
     gh_isReleased := VUndef |}.

Record store := {
  st_gh : gh_state;
  st_gh_dist : gh_state;
  st_published : value;
  st_published_dist : value;
  st_version : value
}.

Definition store_init : store :=
  {| st_gh := gh_init; st_gh_dist := gh_init; st_published := VUndef;
     st_published_dist := VUndef; st_version := VUndef |}.

Definition gh_of (t : target) (s : store) : gh_state :=
  match t with Primary => st_gh s | Dist => st_gh_dist s end.

Definition set_gh (t : target) (g : gh_state) (s : store) : store :=
  match t with
  | Primary => {| st_gh := g; st_gh_dist := st_gh_dist s; st_published := st_published s;
                  st_published_dist := st_published_dist s; st_version := st_version s |}
  | Dist => {| st_gh := st_gh s; st_gh_dist := g; st_published := st_published s;
               st_published_dist := st_published_dist s; st_version := st_version s |}
  end.

Definition published_of (t : target) (s : store) : value :=
  match t with Primary => st_published s | Dist => st_published_dist s end.

Definition set_published (t : target) (v : value) (s : store) : store :=
  match t with
  | Primary => {| st_gh := st_gh s; st_gh_dist := st_gh_dist s; st_published := v;
                  st_published_dist := st_published_dist s; st_version := st_version s |}
  | Dist => {| st_gh := st_gh s; st_gh_dist := st_gh_dist s; st_published := st_published s;
               st_published_dist := v; st_version := st_version s |}
  end.

Definition set_version (v : value) (s : store) : store :=
  {| st_gh := st_gh s; st_gh_dist := st_gh_dist s; st_published := st_published s;
     st_published_dist := st_published_dist s; st_version := v |}.

(** ** The promise monad *)

Inductive outcome (A : Type) :=
| Ok (a : A)
| Throw (e : exn)
| Pending.
Arguments Ok {A} a.
Arguments Throw {A} e.
Arguments Pending {A}.

Record res (A : Type) := {
  out : outcome A;
  emitted : list event;
  final : store
}.
Arguments out {A} r.
Arguments emitted {A} r.
Arguments final {A} r.

Definition M (A : Type) : Type := world -> list event -> store -> res A.

Definition ret {A} (a : A) : M A :=
  fun _ _ s => {| out := Ok a; emitted := []; final := s |}.

Definition throw {A} (e : exn) : M A :=
  fun _ _ s => {| out := Throw e; emitted := []; final := s |}.

Definition pending {A} : M A :=
  fun _ _ s => {| out := Pending; emitted := []; final := s |}.

Definition bind {A B} (m : M A) (f : A -> M B) : M B :=
  fun w h s =>
    let r := m w h s in
    match out r with
    | Ok a =>
      let r' := f a w (h ++ emitted r) (final r) in
      {| out := out r'; emitted := emitted r ++ emitted r'; final := final r' |}
    | Throw e => {| out := Throw e; emitted := emitted r; final := final r |}
    | Pending => {| out := Pending; emitted := emitted r; final := final r |}
    end.

#[export] Instance M_ret : MRet M := @ret.
#[export] Instance M_bind : MBind M := fun A B f m => bind m f.

(** [try { m } catch (e) { handler(e) }], and [promise.catch(handler)]. *)
Definition catch {A} (m : M A) (handler : exn -> M A) : M A :=
  fun w h s =>
    let r := m w h s in
    match out r with
    | Throw e =>
      let r' := handler e w (h ++ emitted r) (final r) in
      {| out := out r'; emitted := emitted r ++ emitted r'; final := final r' |}
    | _ => r
    end.

Definition emit (e : event) : M unit :=
  fun _ _ s => {| out := Ok tt; emitted := [e]; final := s |}.

Definition get_store : M store :=
  fun _ _ s => {| out := Ok s; emitted := []; final := s |}.

Definition modify (f : store -> store) : M unit :=
  fun _ _ s => {| out := Ok tt; emitted := []; final := f s |}.

Definition get_world : M world :=
  fun w _ s => {| out := Ok w; emitted := []; final := s |}.

Definition log (l : level) (msg : string) : M unit := emit (EvLog l msg).

Definition of_result {A} (r : result A) : outcome A :=
  match r with
  | Returned a => Ok a
  | Raised e => Throw (Rejected e)
  end.

(** A call to the version-control backend. *)
Definition git (t : target) (op : git_op) : M value :=
  fun w h s =>
    let r := w_git w h t op in
    {| out := of_result r; emitted := [EvGit t op r]; final := s |}.

(** A property of the version-control client ([latestTag],
    [isRootDir], [remoteUrl]). *)
Definition git_prop (t : target) (name : string) : M value :=
  fun w h s => {| out := Ok (w_git_prop w h t name); emitted := []; final := s |}.

(** A call to the shell runner. *)
Definition shell (op : shell_op) : M value :=
  fun w h s =>
    let r := w_shell w h op in
    {| out := of_result r; emitted := [EvShell op r]; final := s |}.

(** [client.repos.createRelease(req)], settled. *)
Definition createRelease (t : target) (req : create_request) : M (net_result release_data) :=
  fun w h s =>
    let r := w_create w h t req in
    {| out := Ok r; emitted := [EvCreateRelease t req r]; final := s |}.

(** [client.repos.uploadReleaseAsset(req)], settled. *)
Definition uploadReleaseAsset (t : target) (req : upload_request) : M (net_result asset_data) :=
  fun w h s =>
    let r := w_upload w h t req in
    {| out := Ok r; emitted := [EvUploadAsset t req r]; final := s |}.

Definition globby (assets : value) : M (list string) :=
  fun w h s =>
    let r := w_globby w h assets in
    {| out := Ok r; emitted := [EvGlobby assets r]; final := s |}.

(** [fs.statSync(path).size] *)
Definition statSize (path : string) : M value :=
  fun w h s =>
    let r := w_stat w h path in
    {| out := of_result r; emitted := [EvStat path r]; final := s |}.

(** The operator's answer to a rendered question. *)
Definition inquire (name : string) : M value :=
  fun w h s =>
    let r := w_prompt w h name in
    {| out := Ok r; emitted := [EvPrompt name r]; final := s |}.

(** ** The async-retry library

    [retry(fn, { retries })] runs [fn]; a call of [bail(e)] rejects with
    [e] at once; a thrown error is retried while retries remain, and when
    none remain the promise rejects with the operation's main error (the
    error whose message occurred most often, the latest one on a tie). *)

Inductive attempt (A : Type) :=
| Resolved (a : A)
| Bailed (e : exn)
| Failed (e : http_error).
Arguments Resolved {A} a.
Arguments Bailed {A} e.
Arguments Failed {A} e.

Definition count_message (msg : string) (errors : list http_error) : nat :=
  length (filter (fun e => he_message e = msg) errors).

Fixpoint mainError_from (seen rest : list http_error) (best : http_error) (bestCount : nat)
  : http_error :=
  match rest with
  | [] => best
  | e :: rest' =>
    let count := S (count_message (he_message e) seen) in
    if (bestCount <=? count)%nat
    then mainError_from (seen ++ [e]) rest' e count
    else mainError_from (seen ++ [e]) rest' best bestCount
  end.

Definition mainError (first : http_error) (others : list http_error) : http_error :=
  mainError_from [] (first :: others) first 0.

Fixpoint retry_from {A} (fn : M (attempt A)) (retries : nat) (errors : list http_error) : M A :=
  r ← fn;
  match r with
  | Resolved a => mret a
  | Bailed e => throw e
  | Failed e =>
    match retries with
    | O =>
      match errors ++ [e] with
      | first :: others => throw (HttpError (mainError first others))
      | [] => throw (HttpError e)
      end
    | S n => retry_from fn n (errors ++ [e])
    end
  end.

Definition retry {A} (fn : M (attempt A)) (retries : nat) : M A :=
  retry_from fn retries [].

(** ** The GitHub release client *)

Definition NO_RETRIES_NEEDED : list Z := [400; 401; 404; 422]%Z.

(** [_.includes(NO_RETRIES_NEEDED, status)] *)
Definition no_retry (status : value) : bool :=
  match status with
  | VNum n => bool_decide (n ∈ NO_RETRIES_NEEDED)
  | _ => false
  end.

Definition is_newline (c : ascii) : bool :=
  Ascii.eqb c (ascii_of_nat 10) || Ascii.eqb c (ascii_of_nat 13).

(** [message.replace(/[\n\r]+/g, ' ')] *)
Fixpoint collapse_newlines (in_run : bool) (s : string) : string :=
  match s with
  | EmptyString => EmptyString
  | String c r =>
    if is_newline c
    then if in_run then collapse_newlines true r
         else String " " (collapse_newlines true r)
    else String c (collapse_newlines false r)
  end.

(** [parseErrorMessage(err)] on an instance of Error. *)
Definition parseErrorMessage (err : http_error) : string :=
  to_string (he_status err) ++ " (" ++ collapse_newlines false (he_message err) ++ ")".

Definition dquote : string := String (ascii_of_nat 34) EmptyString.

Record gh_client := {
  gh_target : target;
  gh_options : obj;
  gh_repo : repo_info
}.

(** [_.defaults(options, defaults)]: a default fills a property that is
    undefined. *)
Definition js_defaults (options defaults : obj) : obj :=
  merge (fun a b => match a with
                    | None => b
                    | Some v => match b with
                                | None => Some v
                                | Some d => Some (or_default v d)
                                end
                    end) options defaults.

Section Clients.
Context `{Ext : Externals}.

(** [new GitHub(...args)]; [defaults] is the github section of
    [conf/release-it.json]. *)
Definition GitHub_new (t : target) (defaults : obj) (args : list obj) : gh_client :=
  let options := assign_all args in
  {| gh_target := t;
     gh_options := js_defaults options defaults;
     gh_repo := repoPathParse (prop options "remoteUrl") |}.

(** [get token()]: [_.get(process.env, tokenRef, null)] *)
Definition token (env : gmap string string) (c : gh_client) : value :=
  env_get env (prop (gh_options c) "tokenRef").

(** [GitHub.validate()] *)
Definition GitHub_validate (c : gh_client) : M unit :=
  if negb (truthy (prop (gh_options c) "release")) then mret tt
  else
    w ← get_world;
    if negb (truthy (token (w_env w) c))
    then throw (GithubTokenError (prop (gh_options c) "tokenRef"))
    else mret tt.

Definition create_request_of (c : gh_client) (version isPreRelease changelog : value)
  : create_request :=
  {| cr_owner := repo_owner (gh_repo c);
     cr_repo := repo_project (gh_repo c);
     cr_tag_name := format (prop (gh_options c) "tagName") version;
     cr_name := format (prop (gh_options c) "releaseName") version;
     cr_body := changelog;
     cr_prerelease := isPreRelease;
     cr_draft := prop (gh_options c) "draft" |}.

(** The function given to [retry] in [release]. *)
Definition release_attempt (c : gh_client) (version isPreRelease changelog : value)
  : M (attempt (option release_data)) :=
  r ← createRelease (gh_target c) (create_request_of c version isPreRelease changelog);
  match r with
  | NetOk data =>
    log Lverbose ("octokit releases#createRelease: done (" ++ to_string (rd_location data)
                  ++ " " ++ to_string (rd_tag_name data) ++ " " ++ dquote
                  ++ to_string (rd_name data) ++ dquote ++ ")");;
    modify (set_gh (gh_target c)
              {| gh_version := version;
                 gh_releaseUrl := rd_html_url data;
                 gh_uploadUrl := rd_upload_url data;
                 gh_isReleased := VBool true |});;
    mret (Resolved (Some data))
  | NetErr err =>
    let msg := parseErrorMessage err in
    if no_retry (he_status err)
    then mret (Bailed (GithubClientError msg))
    else log Lwarn msg;; mret (Failed err)
  end.

(** [GitHub.release({ version, isPreRelease, changelog = '' })]; the
    promise [noop] resolves to undefined, here [None]. Building the API
    client in [getGithubClient] contacts nothing. *)
Definition GitHub_release (c : gh_client) (version isPreRelease changelog : value)
  : M (option release_data) :=
  let changelog := or_default changelog (VStr EmptyString) in
  log Lexec "octokit releases#createRelease";;
  if truthy (prop (gh_options c) "isDryRun")
  then log Ldry EmptyString;; mret None
  else retry (release_attempt c version isPreRelease changelog) 2.

Definition upload_request_of (url : value) (filePath : string) (contentLength : value)
  : upload_request :=
  let name := basename filePath in
  {| ur_url := url;
     ur_file := filePath;
     ur_name := name;
     ur_content_type := js_or (contentType name) (VStr "application/octet-stream");
     ur_content_length := contentLength |}.

(** The function given to [retry] in [uploadAsset]. *)
Definition upload_attempt (c : gh_client) (req : upload_request) : M (attempt asset_data) :=
  r ← uploadReleaseAsset (gh_target c) req;
  match r with
  | NetOk data =>
    log Lverbose ("octokit releases#uploadAsset: done ("
                  ++ to_string (ad_browser_download_url data) ++ ")");;
    mret (Resolved data)
  | NetErr err =>
    let msg := parseErrorMessage err in
    if no_retry (he_status err)
    then mret (Bailed (GithubClientError msg))
    else log Lwarn msg;; mret (Failed err)
  end.

(** [GitHub.uploadAsset(filePath)] *)
Definition GitHub_uploadAsset (c : gh_client) (filePath : string) : M asset_data :=
  s ← get_store;
  let url := gh_uploadUrl (gh_of (gh_target c) s) in
  contentLength ← statSize filePath;
  retry (upload_attempt c (upload_request_of url filePath contentLength)) 2.

(** What [uploadAsset] does at once, when it is called: it reads the
    upload URL and the size of the file, which gives the request that
    every attempt of the upload sends. *)
Definition uploadAsset_request (c : gh_client) (filePath : string) : M upload_request :=
  s ← get_store;
  let url := gh_uploadUrl (gh_of (gh_target c) s) in
  contentLength ← statSize filePath;
  mret (upload_request_of url filePath contentLength).

(** [files.map(filePath => this.uploadAsset(filePath))], as far as it
    runs at once: the requests are made one file after the other, and
    a size that cannot be read throws out of the loop. *)
Fixpoint files_map (c : gh_client) (files : list string) : M (list upload_request) :=
  match files with
  | [] => mret []
  | f :: rest =>
    req ← uploadAsset_request c f;
    reqs ← files_map c rest;
    mret (req :: reqs)
  end.

(** One of the promises given to [Promise.all]: an upload under way,
    with its request, the retries that remain and the errors of its
    attempts so far; or an upload that has its answer. *)
Inductive upload_state :=
| InFlight (req : upload_request) (retries : nat) (errors : list http_error)
| Uploaded (data : asset_data).

Definition waiting (ups : list upload_state) : list upload_request :=
  omap (fun u => match u with InFlight req _ _ => Some req | Uploaded _ => None end) ups.

Definition answers (ups : list upload_state) : list asset_data :=
  omap (fun u => match u with Uploaded d => Some d | InFlight _ _ _ => None end) ups.

(** The upload under way number [k], with the uploads before and
    after it. *)
Fixpoint select (k : nat) (ups : list upload_state)
  : option (list upload_state * (upload_request * nat * list http_error)
            * list upload_state) :=
  match ups with
  | [] => None
  | u :: rest =>
    match u, k with
    | InFlight req retries errors, O => Some ([], (req, retries, errors), rest)
    | InFlight _ _ _, S k' =>
      match select k' rest with
      | Some (before, x, after) => Some (u :: before, x, after)
      | None => None
      end
    | Uploaded _, _ =>
      match select k rest with
      | Some (before, x, after) => Some (u :: before, x, after)
      | None => None
      end
    end
  end.

(** [Promise.all] of the uploads: they are under way together. The
    upload that the environment answers next goes one step of its
    [retry]: it has its answer, or it rejects (and the whole with it,
    at once: what the other uploads still do is no longer awaited, and
    is not part of the run), or it waits for the answer to its next
    attempt. When every upload has its answer, the result is the
    answers, in the order of the files. A step is taken for each
    answer, of which there are at most three per file: [fuel] counts
    them. *)
Fixpoint promise_all (c : gh_client) (fuel : nat) (ups : list upload_state)
  : M (list asset_data) :=
  fun w h s =>
    match waiting ups, fuel with
    | [], _ => ret (answers ups) w h s
    | _ :: _, O => pending w h s
    | reqs, S fuel' =>
      match select (w_next w h reqs mod length reqs) ups with
      | Some (before, (req, retries, errors), after) =>
        ((r ← upload_attempt c req;
         match r with
         | Resolved data => promise_all c fuel' (before ++ Uploaded data :: after)
         | Bailed e => throw e
         | Failed e =>
           match retries with
           | O =>
             match errors ++ [e] with
             | first :: others => throw (HttpError (mainError first others))
             | [] => throw (HttpError e)
             end
           | S n => promise_all c fuel' (before ++ InFlight req n (errors ++ [e]) :: after)
           end
         end) : M (list asset_data)) w h s
      | None => pending w h s
      end
    end.

(** [Promise.all(files.map(filePath => this.uploadAsset(filePath)))] *)
Definition upload_all (c : gh_client) (files : list string) : M (list asset_data) :=
  reqs ← files_map c files;
  promise_all c (3 * length reqs) (map (fun req => InFlight req 2 []) reqs).

(** [GitHub.uploadAssets()] *)
Definition GitHub_uploadAssets (c : gh_client) : M (option (list asset_data)) :=
  let assets := prop (gh_options c) "assets" in
  if negb (truthy assets) then mret None
  else
    log Lexec "octokit releases#uploadAssets";;
    if truthy (prop (gh_options c) "isDryRun")
    then log Ldry EmptyString;; mret None
    else
      files ← globby assets;
      (if Nat.eqb (length files) 0
       then log Lwarn ("octokit releases#uploadAssets: assets not found (glob " ++ dquote
                       ++ to_string assets ++ dquote ++ ")")
       else mret tt);;
      l ← upload_all c files;
      mret (Some l).

(** [GitHub.getReleaseUrlFallback()] *)
Definition getReleaseUrlFallback (c : gh_client) (g : gh_state) : string :=
  let tag := format (prop (gh_options c) "tagName") (gh_version g) in
  "https://" ++ to_string (repo_host (gh_repo c)) ++ "/"
  ++ to_string (repo_repository (gh_repo c)) ++ "/releases/tag/" ++ tag.

(** [GitHub.getReleaseUrl()] *)
Definition getReleaseUrl (c : gh_client) (g : gh_state) : value :=
  js_or (gh_releaseUrl g) (VStr (getReleaseUrlFallback c g)).

(** ** The npm publish client *)

Record npm_client := {
  npm_target : target;
  npm_options : obj
}.

(** [new npm(...args)] *)
Definition npm_new (t : target) (args : list obj) : npm_client :=
  {| npm_target := t; npm_options := assign_all args |}.

(** [npm.getPackageUrl()] *)
Definition getPackageUrl (c : npm_client) : string :=
  NPM_BASE_URL ++ to_string (prop (npm_options c) "name").

Record publish_args := {
  pa_tag : value;
  pa_version : value;
  pa_isPreRelease : value;
  pa_otp : value;
  pa_otpPrompt : option ((value -> M unit) -> M unit)
}.

(** The command line of [npm publish]. *)
Definition publish_command (c : npm_client) (name : string) (tag version isPreRelease otp : value)
  : string :=
  let o := npm_options c in
  let publishPath := or_default (prop o "publishPath") (VStr ".") in
  let access := prop o "access" in
  let resolvedTag :=
    getTag {| ta_tag := tag; ta_version := version; ta_isPreRelease := isPreRelease |} in
  let isScopedPkg := is_prefix "@" name in
  let accessArg : string :=
    if isScopedPkg && truthy access then ("--access " ++ to_string access)%string else EmptyString in
  let otpArg : string := if truthy otp then ("--otp " ++ to_string otp)%string else EmptyString in
  let dryRunArg : string := if truthy (prop o "isDryRun") then "--dry-run" else EmptyString in
  ("npm publish " ++ to_string publishPath ++ " --tag " ++ to_string resolvedTag ++ " "
   ++ accessArg ++ " " ++ otpArg ++ " " ++ dryRunArg)%string.

(** [/one-time pass/.test(err)] *)
Definition is_otp_error (r : rejection) : bool :=
  contains "one-time pass" (rejection_to_string r).

(** [npm.publish({ tag = this.options.tag, version, isPreRelease,
    otp = this.options.otp, otpPrompt } = {})]. The method calls itself
    from the operator's answer, without bound: [fuel] bounds the depth,
    and a run that needs more is [Pending]. [this.isVerbose] is never
    assigned, so [verbose] is the dry-run flag. *)
Fixpoint publish (fuel : nat) (c : npm_client) (a : publish_args) : M unit :=
  match fuel with
  | O => pending
  | S fuel' =>
    let o := npm_options c in
    let tag := or_default (pa_tag a) (prop o "tag") in
    let otp := or_default (pa_otp a) (prop o "otp") in
    match prop o "name" with
    | VStr name =>
      catch
        (shell (SRun (publish_command c name tag (pa_version a) (pa_isPreRelease a) otp)
                     (VBool true) (js_or VUndef (prop o "isDryRun")));;
         modify (set_published (npm_target c) (VBool true)))
        (fun err =>
           match err with
           | Rejected r =>
             if is_otp_error r then
               (if not_nullish otp
                then log Lwarn "The provided OTP is incorrect or has expired."
                else mret tt);;
               match pa_otpPrompt a with
               | Some otpPrompt =>
                 if truthy (prop o "isInteractive")
                 then otpPrompt (fun otp' =>
                        publish fuel' c
                          {| pa_tag := tag; pa_version := pa_version a;
                             pa_isPreRelease := pa_isPreRelease a; pa_otp := otp';
                             pa_otpPrompt := Some otpPrompt |})
                 else throw err
               | None => throw err
               end
             else throw err
           | _ => throw err
           end)
    | _ => throw TypeError
    end
  end.

End Clients.

(** ** The pipeline of [lib/tasks.js] *)

Record group_options := {
  g_git : obj;
  g_github : obj;
  g_npm : obj
}.

Record dist_options := {
  d_repo : value;
  d_stageDir : value;
  d_baseDir : value;
  d_files : value;
  d_pkgFiles : value;
  d_scripts : obj;
  d_git : obj;
  d_github : obj;
  d_npm : obj
}.

Record options := {
  o_name : value;
  o_increment : value;
  o_preRelease : value;
  o_preReleaseId : value;
  o_pkgFiles : value;
  o_scripts : obj;
  o_git : obj;
  o_github : obj;
  o_npm : obj;
  o_dist : dist_options
}.

(** What [new Config(opts)] holds: the mode flags, the options as
    [handleDeprecated(config.getOptions())] gives them, and the github
    defaults of [conf/release-it.json]. *)
Record config := {
  isInteractive : bool;
  isVerbose : bool;
  isDryRun : bool;
  isCollectMetrics : bool;
  cfg_options : options;
  cfg_github_defaults : obj
}.

Record tasks_result := {
  tr_changelog : value;
  tr_latestVersion : value;
  tr_version : value
}.

Definition void {A} (m : M A) : M unit := m;; mret tt.

(** Modelled from the spec: [lib/spinner.js] is not among the sources.
    [show(gate, task, label)] skips silently when the gate is false or
    empty, and otherwise runs the task (under a progress indicator when
    the run is not interactive). *)
Definition show (gate : value) (task : M unit) : M unit :=
  if truthy gate then task else mret tt.

Definition confirm_questions : list string := ["commit"; "tag"; "push"; "release"; "publish"].

(** Modelled from the spec: [lib/prompt.js] is not among the sources.
    [prompt(gate, context, name, task)]: a gated step whose gate is false
    is skipped; otherwise the question is rendered and the task is called
    with the operator's answer; for the yes/no confirmation of a step,
    declining skips the task without failing. *)
Definition prompt (gate : value) (name : string) (task : value -> M unit) : M unit :=
  if truthy gate then
    answer ← inquire name;
    if bool_decide (name ∈ confirm_questions)
    then if truthy answer then task answer else mret tt
    else task answer
  else mret tt.

(** Modelled from the spec: [lib/version.js] is not among the sources.
    [bump] resolves a version, leaves it unresolved, or fails with
    InvalidVersionError. *)
Definition Version_bump (increment preRelease : value) : M unit :=
  fun w h s =>
    let r := w_bump w h increment preRelease in
    match r with
    | BumpOk v =>
      {| out := Ok tt; emitted := [EvBump increment preRelease r]; final := set_version v s |}
    | BumpInvalid =>
      {| out := Throw InvalidVersionError; emitted := [EvBump increment preRelease r];
         final := s |}
    end.

(** Modelled from the spec: [lib/version.js] is not among the sources.
    [validate()] fails with InvalidVersionError if no version was
    resolved, and does nothing otherwise. *)
Definition Version_validate : M unit :=
  s ← get_store;
  emit (EvValidate (st_version s));;
  if truthy (st_version s) then mret tt else throw InvalidVersionError.

(** [v.details.isPreRelease] *)
Definition Version_isPreRelease : M value :=
  fun w h s => {| out := Ok (w_isPreRelease w h); emitted := []; final := s |}.

Section Pipeline.
Context `{Ext : Externals}.

(** [run = shell.runTemplateCommand.bind(shell)] *)
Definition run (cmd : value) : M unit := void (shell (SRunTemplate cmd)).

(** The hook steps: [s.show(hook, () => run(hook), hook)] *)
Definition hook (cmd : value) : M unit := show cmd (run cmd).

Definition sharedOptions (cfg : config) : obj :=
  {[ "isInteractive" := VBool (isInteractive cfg);
     "isVerbose" := VBool (isVerbose cfg);
     "isDryRun" := VBool (isDryRun cfg) ]}.

(** [otpPrompt = task => prompt(true, context, 'otp', task)] *)
Definition otpPrompt (task : value -> M unit) : M unit := prompt (VBool true) "otp" task.

(** [getChangelog] of the pipeline *)
Definition getChangelog (scripts : obj) : M value :=
  changelog ← git Primary (GGetChangelog (prop scripts "changelog"));
  (if truthy changelog
   then log Linfo ("Changelog:" ++ to_string changelog)
   else log Lwarn "Empty changelog");;
  mret changelog.

(** The five gated sub-steps of the closure [release] of the pipeline:
    under a progress indicator when the run is not interactive, and
    each behind a confirmation when it is. *)
Definition release_steps (fuel : nat) (cfg : config)
           (version isPreRelease changelog : value)
           (t : target) (o : group_options) (ghClient : gh_client) (npmClient : npm_client)
  : M unit :=
  let commit := void (git t GCommit) in
  let tag := void (git t GTag) in
  let push := void (git t GPush) in
  let release := GitHub_release ghClient version isPreRelease changelog in
  let uploadAssets := GitHub_uploadAssets ghClient in
  let releaseAndUploadAssets :=
    r ← release;
    match r with
    | Some _ => void uploadAssets
    | None => mret tt
    end in
  let publish :=
    publish fuel npmClient
      {| pa_tag := VUndef; pa_version := version; pa_isPreRelease := isPreRelease;
         pa_otp := VUndef; pa_otpPrompt := Some otpPrompt |} in
  let publishGate := js_and (prop (g_npm o) "publish") (js_not (prop (g_npm o) "private")) in
  if negb (isInteractive cfg) then
    show (prop (g_git o) "commit") commit;;
    show (prop (g_git o) "tag") tag;;
    show (prop (g_git o) "push") push;;
    show (prop (g_github o) "release") (void release);;
    show (prop (g_github o) "assets") (void uploadAssets);;
    show publishGate publish
  else
    prompt (prop (g_git o) "commit") "commit" (fun _ => commit);;
    prompt (prop (g_git o) "tag") "tag" (fun _ => tag);;
    prompt (prop (g_git o) "push") "push" (fun _ => push);;
    prompt (prop (g_github o) "release") "release" (fun _ => releaseAndUploadAssets);;
    prompt publishGate "publish" (fun _ => publish).

(** The step group: the closure [release] of the pipeline. [scripts]
    is the primary repository's in both calls; the two events [EvGroup]
    mark where a call of the closure begins and where it returns. *)
Definition release (fuel : nat) (cfg : config) (scripts : obj)
           (version isPreRelease changelog : value)
           (t : target) (o : group_options) (ghClient : gh_client) (npmClient : npm_client)
  : M unit :=
  emit (EvGroup t true version);;
  release_steps fuel cfg version isPreRelease changelog t o ghClient npmClient;;
  hook (prop scripts "afterRelease");;
  emit (EvGroup t false version).

(** Stages of the pipeline up to the resolution of the version: the
    checks of the repository, the token check, the first hook, the
    version resolver, and the early changelog. Gives the latest version
    and the changelog (undefined when it is taken late). *)
Definition resolve (cfg : config) (ghClient ghDistClient : gh_client)
  : M (value * value) :=
  let o := cfg_options cfg in
  GitHub_validate ghClient;;
  GitHub_validate ghDistClient;;
  hook (prop (o_scripts o) "beforeStart");;
  isRootDir ← git_prop Primary "isRootDir";
  latestTag ← git_prop Primary "latestTag";
  let useTag := truthy (js_and isRootDir (valid latestTag)) in
  let latestVersion := if useTag then latestTag else prop (o_npm o) "version" in
  Version_bump (o_increment o) (o_preRelease o);;
  s ← get_store;
  let suffix : string :=
    if truthy (st_version s)
    then (to_string latestVersion ++ "..." ++ to_string (st_version s))%string
    else ("currently at " ++ to_string latestVersion)%string in
  log Llog ("Let's release " ++ to_string (o_name o) ++ " (" ++ suffix ++ ")");;
  changelog ← (if negb (isRecommendation (o_increment o))
               then getChangelog (o_scripts o) else mret VUndef);
  (if isInteractive cfg && negb (truthy (st_version s)) then
     prompt (VBool true) "incrementList" (fun increment =>
       if truthy increment then Version_bump increment VUndef
       else prompt (VBool true) "version" (fun version => modify (set_version version)))
   else mret tt);;
  mret (latestVersion, changelog).

(** From the bump of the files to the report of the changeset. Gives
    the changelog. *)
Definition bump_and_stage (cfg : config) (version changelog : value) : M value :=
  let o := cfg_options cfg in
  (if isInteractive cfg && truthy (o_pkgFiles o)
      && truthy (prop (o_git o) "requireCleanWorkingDir")
   then emit (EvOnSignal "SIGINT");; emit (EvOnSignal "exit")
   else mret tt);;
  hook (prop (o_scripts o) "beforeBump");;
  show (VBool true) (void (shell (SBump (o_pkgFiles o) version)));;
  hook (prop (o_scripts o) "afterBump");;
  changelog ← (if isRecommendation (o_increment o)
               then getChangelog (o_scripts o) else mret changelog);
  hook (prop (o_scripts o) "beforeStage");;
  git Primary (GStage (o_pkgFiles o));;
  git Primary GStageDir;;
  changeSet ← git Primary GStatus;
  (if truthy changeSet
   then log Linfo ("Changeset:" ++ to_string changeSet)
   else log Lwarn "Empty changeset");;
  mret changelog.

(** The preparation of the distribution repository. *)
Definition dist_prepare (cfg : config) (version : value) : M unit :=
  let d := o_dist (cfg_options cfg) in
  if truthy (d_repo d) then
    show (VBool true) (void (git Dist (GClone (d_repo d) (d_stageDir d))));;
    shell (SCopy (d_files d) (d_baseDir d) (d_stageDir d));;
    shell (SPushd (d_stageDir d));;
    shell (SBump (d_pkgFiles d) version);;
    hook (prop (d_scripts d) "beforeStage");;
    git Dist GStageDir;;
    void (shell SPopd)
  else mret tt.

(** The release of the distribution repository. *)
Definition dist_release (fuel : nat) (cfg : config)
           (version isPreRelease changelog : value)
           (ghDistClient : gh_client) (npmDistClient : npm_client) : M unit :=
  let o := cfg_options cfg in
  let d := o_dist o in
  if truthy (d_repo d) then
    log Llog ("Let's release the distribution repo for " ++ to_string (o_name o));;
    shell (SPushd (d_stageDir d));;
    git Dist GInit;;
    shouldTag ← git Dist GShouldTag;
    changeSet ← git Dist GStatus;
    (if isInteractive cfg
     then log Linfo ("Changeset:" ++ to_string changeSet)
     else mret tt);;
    release fuel cfg (o_scripts o) version isPreRelease changelog Dist
            {| g_git := <["tag" := shouldTag]> (d_git d);
               g_github := d_github d;
               g_npm := d_npm d |}
            ghDistClient npmDistClient;;
    shell SPopd;;
    run (VStr ("!rm -rf " ++ to_string (d_stageDir d)))
  else mret tt.

(** The links of what was released and published, and the end. *)
Definition summary (cfg : config) (ghClient ghDistClient : gh_client)
           (npmClient npmDistClient : npm_client) : M unit :=
  s ← get_store;
  (if truthy (gh_isReleased (st_gh s))
   then log Llog (to_string (getReleaseUrl ghClient (st_gh s))) else mret tt);;
  (if truthy (gh_isReleased (st_gh_dist s))
   then log Llog (to_string (getReleaseUrl ghDistClient (st_gh_dist s))) else mret tt);;
  (if truthy (st_published s) then log Llog (getPackageUrl npmClient) else mret tt);;
  (if truthy (st_published_dist s) then log Llog (getPackageUrl npmDistClient) else mret tt);;
  (if isCollectMetrics cfg then emit (EvMetric "end") else mret tt);;
  log Llog "Done".

(** What the pipeline holds once the version is resolved and
    validated: the four clients, the latest version, the changelog taken
    so far, and [v.details]. *)
Record prepared := {
  p_ghClient : gh_client;
  p_ghDistClient : gh_client;
  p_npmClient : npm_client;
  p_npmDistClient : npm_client;
  p_latestVersion : value;
  p_changelog : value;
  p_version : value;
  p_isPreRelease : value
}.

(** The four clients: [new GitHub(options.github, options.git,
    sharedOptions, { remoteUrl })] and its counterpart for the
    distribution repository, [new npm(options.npm, sharedOptions)] and
    its counterpart. *)
Definition ghClient_of (cfg : config) (remoteUrl : value) : gh_client :=
  let o := cfg_options cfg in
  GitHub_new Primary (cfg_github_defaults cfg)
             [o_github o; o_git o; sharedOptions cfg; {[ "remoteUrl" := remoteUrl ]}].

Definition ghDistClient_of (cfg : config) (remoteUrl : value) : gh_client :=
  let o := cfg_options cfg in
  let d := o_dist o in
  GitHub_new Dist (cfg_github_defaults cfg)
             [o_github o; d_github d; o_git o; d_git d; sharedOptions cfg;
              {[ "remoteUrl" := remoteUrl ]}].

Definition npmClient_of (cfg : config) : npm_client :=
  npm_new Primary [o_npm (cfg_options cfg); sharedOptions cfg].

Definition npmDistClient_of (cfg : config) : npm_client :=
  let o := cfg_options cfg in
  npm_new Dist [o_npm o; d_npm (o_dist o); sharedOptions cfg].

(** From the start to [v.validate()]. *)
Definition prepare (cfg : config) : M prepared :=
  let o := cfg_options cfg in
  let d := o_dist o in
  (if isCollectMetrics cfg then emit (EvMetric "start") else mret tt);;
  git Primary GInit;;
  git Primary GValidate;;
  git Dist (GValidateStageDir (d_stageDir d));;
  remoteUrl ← git_prop Primary "remoteUrl";
  let ghClient := ghClient_of cfg remoteUrl in
  let ghDistClient := ghDistClient_of cfg remoteUrl in
  let npmClient := npmClient_of cfg in
  let npmDistClient := npmDistClient_of cfg in
  '(latestVersion, changelog) ← resolve cfg ghClient ghDistClient;
  Version_validate;;
  s ← get_store;
  isPreRelease ← Version_isPreRelease;
  mret {| p_ghClient := ghClient; p_ghDistClient := ghDistClient;
          p_npmClient := npmClient; p_npmDistClient := npmDistClient;
          p_latestVersion := latestVersion; p_changelog := changelog;
          p_version := st_version s; p_isPreRelease := isPreRelease |}.

(** From the bump of the files to the end, once the version is
    validated. *)
Definition carry_out (fuel : nat) (cfg : config) (p : prepared) : M tasks_result :=
  let o := cfg_options cfg in
  let version := p_version p in
  let isPreRelease := p_isPreRelease p in
  changelog ← bump_and_stage cfg version (p_changelog p);
  dist_prepare cfg version;;
  release fuel cfg (o_scripts o) version isPreRelease changelog Primary
          {| g_git := o_git o; g_github := o_github o; g_npm := o_npm o |}
          (p_ghClient p) (p_npmClient p);;
  dist_release fuel cfg version isPreRelease changelog (p_ghDistClient p) (p_npmDistClient p);;
  summary cfg (p_ghClient p) (p_ghDistClient p) (p_npmClient p) (p_npmDistClient p);;
  mret {| tr_changelog := changelog; tr_latestVersion := p_latestVersion p;
          tr_version := version |}.

(** The body of the [try] block. *)
Definition tasks_body (fuel : nat) (cfg : config) : M tasks_result :=
  p ← prepare cfg;
  carry_out fuel cfg p.

(** [module.exports = async opts => ...]: an error is reported and
    thrown again. *)
Definition tasks (fuel : nat) (cfg : config) : M tasks_result :=
  catch (tasks_body fuel cfg)
        (fun err =>
           (if isCollectMetrics cfg then emit (EvMetric "exception") else mret tt);;
           emit (EvError err);;
           throw err).

End Pipeline.

(** ** Concrete worlds and configurations

    A repository whose latest tag is 1.0.0, for which the increment
    [patch] resolves to 1.0.1; collaborators that answer without failure
    unless said otherwise. *)

Definition release_answer : release_data :=
  {| rd_name := VStr "Release 1.0.1";
     rd_tag_name := VStr "1.0.1";
     rd_html_url := VStr "https://github.com/webpro/release-it/releases/tag/1.0.1";
     rd_upload_url := VStr "https://uploads.github.com/repos/webpro/release-it/releases/1/assets";
     rd_location := VStr "https://api.github.com/repos/webpro/release-it/releases/1" |}.

Definition bump_1_0_0 (increment : value) : bump_result :=
  match increment with
  | VStr "patch" => BumpOk (VStr "1.0.1")
  | VStr "prerelease" => BumpOk (VStr "1.0.1-beta.0")
  | VUndef | VNull | VStr EmptyString => BumpOk VUndef
  | _ => BumpInvalid
  end.

Definition world_of (env : gmap string string)
           (create : list event -> net_result release_data)
           (sh : list event -> shell_op -> result value)
           (answer : string -> value) : world :=
  {| w_env := env;
     w_git := fun _ _ op =>
       match op with
       | GGetChangelog _ => Returned (VStr "* Fix the parser")
       | GStatus => Returned (VStr "M package.json")
       | GShouldTag => Returned (VBool true)
       | _ => Returned VUndef
       end;
     w_git_prop := fun _ _ name =>
       if String.eqb name "latestTag" then VStr "1.0.0"
       else if String.eqb name "isRootDir" then VBool true
       else if String.eqb name "remoteUrl" then VStr "https://github.com/webpro/release-it.git"
       else VUndef;
     w_shell := sh;
     w_create := fun h _ _ => create h;
     w_upload := fun _ _ _ =>
       NetOk {| ad_browser_download_url := VStr "https://github.com/webpro/release-it/a.zip" |};
     w_globby := fun _ _ => ["a.zip"];
     w_stat := fun _ _ => Returned (VNum 1024);
     w_next := fun _ _ => 0;
     w_prompt := fun _ name => answer name;
     w_bump := fun _ increment _ => bump_1_0_0 increment;
     w_isPreRelease := fun _ => VBool false |}.

(** Every collaborator answers. *)
Definition calm : world :=
  world_of ∅ (fun _ => NetOk release_answer) (fun _ _ => Returned VUndef) (fun _ => VUndef).

(** The same, with the token in the environment. *)
Definition granted : world :=
  world_of {[ "GITHUB_TOKEN" := "t0k3n" ]} (fun _ => NetOk release_answer)
           (fun _ _ => Returned VUndef) (fun _ => VUndef).

Definition validation_failed : http_error :=
  {| he_status := VNum 422; he_message := "Validation Failed" |}.

Definition bad_gateway : http_error :=
  {| he_status := VNum 502; he_message := "Bad Gateway" |}.

(** The API answers 422 to every create-release. *)
Definition refusing : world :=
  world_of {[ "GITHUB_TOKEN" := "t0k3n" ]} (fun _ => NetErr validation_failed)
           (fun _ _ => Returned VUndef) (fun _ => VUndef).

Definition created_so_far (h : list event) : nat :=
  length (List.filter (fun e => match e with EvCreateRelease _ _ _ => true | _ => false end) h).

(** The API answers 502 twice, and then creates the release. *)
Definition flaky : world :=
  world_of {[ "GITHUB_TOKEN" := "t0k3n" ]}
           (fun h => if (created_so_far h <? 2)%nat then NetErr bad_gateway
                     else NetOk release_answer)
           (fun _ _ => Returned VUndef) (fun _ => VUndef).

Definition otp_required : rejection :=
  Error "Error" "npm ERR! code EOTP: this operation requires a one-time password".

Definition not_logged_in : rejection :=
  Error "Error" "npm ERR! code ENEEDAUTH: you need to authorize this machine".

(** The registry wants the passcode 123456, which the operator knows. *)
Definition registry_with_otp : world :=
  world_of ∅ (fun _ => NetOk release_answer)
           (fun _ op =>
              match op with
              | SRun cmd _ _ =>
                if contains "--otp 123456" cmd then Returned VUndef else Raised otp_required
              | _ => Returned VUndef
              end)
           (fun name => if String.eqb name "otp" then VStr "123456" else VBool true).

(** The registry refuses for another reason. *)
Definition registry_refusing : world :=
  world_of ∅ (fun _ => NetOk release_answer)
           (fun _ op =>
              match op with
              | SRun _ _ _ => Raised not_logged_in
              | _ => Returned VUndef
              end)
           (fun _ => VBool true).

Definition no_dist : dist_options :=
  {| d_repo := VBool false; d_stageDir := VStr ".stage"; d_baseDir := VStr "dist";
     d_files := VStr "**/*"; d_pkgFiles := VNull; d_scripts := ∅;
     d_git := ∅; d_github := ∅; d_npm := ∅ |}.

Definition a_dist : dist_options :=
  {| d_repo := VStr "git@github.com:webpro/release-it-dist.git";
     d_stageDir := VStr ".stage"; d_baseDir := VStr "dist";
     d_files := VStr "**/*"; d_pkgFiles := VStr "package.json"; d_scripts := ∅;
     d_git := {[ "commit" := VBool true; "push" := VBool true ]};
     d_github := {[ "release" := VBool false ]};
     d_npm := {[ "publish" := VBool false ]} |}.

Definition options_with (increment : value) (git github npm : obj) (dist : dist_options)
  : options :=
  {| o_name := VStr "my-package"; o_increment := increment; o_preRelease := VBool false;
     o_preReleaseId := VNull; o_pkgFiles := VStr "package.json"; o_scripts := ∅;
     o_git := git; o_github := github; o_npm := npm; o_dist := dist |}.

Definition options_of : obj -> obj -> obj -> dist_options -> options :=
  options_with (VStr "patch").

Definition config_of (interactive dry : bool) (o : options) : config :=
  {| isInteractive := interactive; isVerbose := false; isDryRun := dry;
     isCollectMetrics := false; cfg_options := o; cfg_github_defaults := ∅ |}.

Definition git_on : obj :=
  {[ "commit" := VBool true; "tag" := VBool true; "push" := VBool true;
     "tagName" := VStr "${version}"; "requireCleanWorkingDir" := VBool true ]}.

Definition git_off : obj :=
  {[ "commit" := VBool false; "tag" := VBool false; "push" := VBool false;
     "tagName" := VStr "${version}" ]}.

Definition github_off : obj :=
  {[ "release" := VBool false; "releaseName" := VStr "Release ${version}";
     "tokenRef" := VStr "GITHUB_TOKEN" ]}.

Definition github_on : obj :=
  {[ "release" := VBool true; "releaseName" := VStr "Release ${version}";
     "tokenRef" := VStr "GITHUB_TOKEN" ]}.

Definition npm_off : obj :=
  {[ "publish" := VBool false; "name" := VStr "my-package"; "version" := VStr "1.0.0" ]}.

Definition npm_on : obj :=
  {[ "publish" := VBool true; "name" := VStr "my-package"; "version" := VStr "1.0.0" ]}.

(** Commit, tag and push, no release and no publish, not interactive. *)
Definition plain_config : config :=
  config_of false false (options_of git_on github_off npm_off no_dist).

(** All five gates false. *)
Definition idle_config : config :=
  config_of false false (options_of git_off github_off npm_off no_dist).

(** A release is asked for. *)
Definition releasing_config : config :=
  config_of false false (options_of git_on github_on npm_off no_dist).

(** The same, as a dry run. *)
Definition dry_config : config :=
  config_of false true (options_of git_on github_on npm_on no_dist).

(** With a distribution repository. *)
Definition dual_config : config :=
  config_of false false (options_of git_on github_off npm_off a_dist).

(** An interactive session that publishes. *)
Definition publishing_config : config :=
  config_of true false (options_of git_off github_off npm_on no_dist).

(** No increment is given, and nobody is there to choose one. *)
Definition undecided_config : config :=
  config_of false false (options_with VUndef git_on github_off npm_off no_dist).

(** Not interactive, and publishing. *)
Definition unattended_config : config :=
  config_of false false (options_of git_off github_off npm_on no_dist).

Definition remote : value := VStr "https://github.com/webpro/release-it.git".

Definition the_version : value := VStr "1.0.1".

(** The arguments with which the step group calls [publish]. *)
Definition publish_1_0_1 : publish_args :=
  {| pa_tag := VUndef; pa_version := the_version; pa_isPreRelease := VBool false;
     pa_otp := VUndef; pa_otpPrompt := Some otpPrompt |}.

(** * Predicates on runs and traces *)

(** [wp m w h s Q]: the run of [m] in world [w], after the history [h]
    and from the state [s], satisfies [Q]. Runs are followed one call at
    a time through the rules for [wp] below. *)
Definition wp {A} (m : M A) (w : world) (h : list event) (s : store) (Q : res A -> Prop) : Prop :=
  Q (m w h s).

Fixpoint count (f : event -> bool) (es : list event) : nat :=
  match es with
  | [] => 0
  | e :: es' => (if f e then 1 else 0) + count f es'
  end.

Definition is_create (e : event) : bool :=
  match e with EvCreateRelease _ _ _ => true | _ => false end.

Definition is_upload (e : event) : bool :=
  match e with EvUploadAsset _ _ _ => true | _ => false end.

(** A call to the release API. *)
Definition is_network (e : event) : bool := is_create e || is_upload e.

(** A request to the collector of the metrics. *)
Definition is_beacon (e : event) : bool :=
  match e with EvMetric _ => true | _ => false end.



Definition failed_create (e : event) : option http_error :=
  match e with EvCreateRelease _ _ (NetErr err) => Some err | _ => None end.

Definition failed_upload (e : event) : option http_error :=
  match e with EvUploadAsset _ _ (NetErr err) => Some err | _ => None end.

(** The answers that the uploads under way can still wait for: one for
    the attempt that is out, and one for each retry that remains. *)
Definition budget (ups : list upload_state) : nat :=
  foldr (fun u n => match u with
                    | InFlight _ retries _ => S retries + n
                    | Uploaded _ => n
                    end) 0 ups.

(** The answer [d] is that of the upload [u]: the answer that it had,
    or the answer of a call, among the events [es], of its request. *)
Definition answered (t : target) (es : list event) (u : upload_state) (d : asset_data) : Prop :=
  match u with
  | Uploaded d0 => d = d0
  | InFlight req _ _ => In (EvUploadAsset t req (NetOk d)) es
  end.

(** What a run must satisfy: at most three calls; a call that fails with
    one of the statuses 400, 401, 404, 422 is the last thing that happens
    and the run ends in a client error made of the parsed status and
    message; a call that fails otherwise is followed by the warning, and
    then by another call if fewer than two calls came before it, and by
    the end of the run in failure if two did. *)
Definition follows_retry_policy {A} (is_call : event -> bool)
           (failed : event -> option http_error) (r : res A) : Prop :=
  count is_call (emitted r) <= 3 /\
  (forall err', out r = Throw (HttpError err') -> count is_call (emitted r) = 3) /\
  forall pre e err post,
    emitted r = pre ++ e :: post ->
    failed e = Some err ->
    if no_retry (he_status err)
    then post = [] /\ out r = Throw (GithubClientError (parseErrorMessage err))
    else exists post',
        post = EvLog Lwarn (parseErrorMessage err) :: post' /\
        if (count is_call pre <? 2)%nat
        then exists e' post'', post' = e' :: post'' /\ is_call e' = true
        else post' = [] /\ exists err', out r = Throw (HttpError err').

Definition is_publish_run (e : event) : bool :=
  match e with EvShell (SRun _ _ _) _ => true | _ => false end.

Definition is_otp_prompt (e : event) : bool :=
  match e with EvPrompt name _ => String.eqb name "otp" | _ => false end.

Definition is_prompt (e : event) : bool :=
  match e with EvPrompt _ _ => true | _ => false end.

Definition otp_warning : list event :=
  [EvLog Lwarn "The provided OTP is incorrect or has expired."].

Definition emits {A} (P : event -> bool) (m : M A) : Prop :=
  forall w h s, Forall (fun e => P e = true) (emitted (m w h s)).

Definition is_group (e : event) : bool :=
  match e with EvGroup _ _ _ => true | _ => false end.

(** The events of the five sub-steps that the five gates of the claim
    decide: the commit, the tag and the push of the version-control
    client, the announcement and the API call of create-release, and the
    publish command. *)
Definition is_gated_step (e : event) : bool :=
  match e with
  | EvGit _ GCommit _ | EvGit _ GTag _ | EvGit _ GPush _ => true
  | EvCreateRelease _ _ _ => true
  | EvLog Lexec msg => String.eqb msg "octokit releases#createRelease"
  | EvShell (SRun _ _ _) _ => true
  | _ => false
  end.

(** A call to a collaborator that came back without failure. *)
Definition succeeded (e : event) : bool :=
  match e with
  | EvGit _ _ (Raised _) | EvShell _ (Raised _) | EvStat _ (Raised _) => false
  | EvCreateRelease _ _ (NetErr _) | EvUploadAsset _ _ (NetErr _) => false
  | EvBump _ _ BumpInvalid => false
  | EvError _ => false
  | _ => true
  end.

Definition is_validate (e : event) : bool :=
  match e with EvValidate _ => true | _ => false end.

(** The bump of the version-carrying files, and the staging of files for
    the commit. *)
Definition is_bump_or_stage (e : event) : bool :=
  match e with
  | EvShell (SBump _ _) _ => true
  | EvGit _ (GStage _) _ | EvGit _ GStageDir _ => true
  | _ => false
  end.

(** An event of upload-assets: its announcement, the listing of the
    files, the reading of a size, an upload. *)
Definition is_upload_step (e : event) : bool :=
  match e with
  | EvLog Lexec msg => String.eqb msg "octokit releases#uploadAssets"
  | EvGlobby _ _ | EvStat _ _ | EvUploadAsset _ _ _ => true
  | _ => false
  end.

(** The events of the sub-steps of the step group: those of the five
    gated sub-steps, and those of upload-assets. *)
Definition is_substep (e : event) : bool := is_gated_step e || is_upload_step e.


Definition gates_off (o : group_options) : Prop :=
  truthy (prop (g_git o) "commit") = false /\
  truthy (prop (g_git o) "tag") = false /\
  truthy (prop (g_git o) "push") = false /\
  truthy (prop (g_github o) "release") = false /\
  truthy (js_and (prop (g_npm o) "publish") (js_not (prop (g_npm o) "private"))) = false.



(** [completes m]: a run of [m] in which no call failed ends in a
    value. *)
Definition completes {A} (m : M A) : Prop :=
  forall w h s,
    Forall (fun e => succeeded e = true) (emitted (m w h s)) ->
    exists a, out (m w h s) = Ok a.

(** What happens before the version is validated: no mark of the step
    group, no validation, no bump or staging of files, no call to the
    API. *)
Definition quiet (e : event) : bool :=
  negb (is_group e || is_validate e || is_bump_or_stage e || is_network e).

(** What happens after it, outside the marks of the step group. *)
Definition late (e : event) : bool := negb (is_group e || is_validate e).

Fixpoint groups (es : list event) : list event :=
  match es with
  | [] => []
  | e :: es' => if is_group e then e :: groups es' else groups es'
  end.

Definition not_validate (e : event) : bool := negb (is_validate e).

Definition full_groups (dist : bool) (v : value) : list event :=
  [EvGroup Primary true v; EvGroup Primary false v]
  ++ (if dist then [EvGroup Dist true v; EvGroup Dist false v] else []).

Definition done : event := EvLog Llog "Done".

Definition is_entry (e : event) : bool :=
  match e with EvGroup _ true _ => true | _ => false end.

Definition primary_group (cfg : config) : group_options :=
  {| g_git := o_git (cfg_options cfg);
     g_github := o_github (cfg_options cfg);
     g_npm := o_npm (cfg_options cfg) |}.

(** The options of the step group for the distribution repository, its
    tag gate being what the git client of that repository answered. *)
Definition dist_group (cfg : config) (shouldTag : value) : group_options :=
  let d := o_dist (cfg_options cfg) in
  {| g_git := <["tag" := shouldTag]> (d_git d);
     g_github := d_github d;
     g_npm := d_npm d |}.

(** The options with which the step group is called for the repository
    [t]. *)
Definition group_of (cfg : config) (t : target) (shouldTag : value) : group_options :=
  match t with
  | Primary => primary_group cfg
  | Dist => dist_group cfg shouldTag
  end.

Definition same_target (t t' : target) : bool :=
  match t, t' with
  | Primary, Primary | Dist, Dist => true
  | _, _ => false
  end.

(** The mark of the beginning of the step group for the repository
    [t]. *)
Definition is_entry_of (t : target) (e : event) : bool :=
  match e with
  | EvGroup t' true _ => same_target t t'
  | _ => false
  end.

Section RunPredicates.
Context `{Ext : Externals}.

(** The command, the tag and the passcode of a call of [publish]. *)
Definition effective_tag (c : npm_client) (a : publish_args) : value :=
  or_default (pa_tag a) (prop (npm_options c) "tag").

Definition effective_otp (c : npm_client) (a : publish_args) : value :=
  or_default (pa_otp a) (prop (npm_options c) "otp").

Definition publish_op (c : npm_client) (name : string) (a : publish_args) : shell_op :=
  SRun (publish_command c name (effective_tag c a) (pa_version a) (pa_isPreRelease a)
                        (effective_otp c a))
       (VBool true) (js_or VUndef (prop (npm_options c) "isDryRun")).

(** The arguments of the call that follows the operator's answer. *)
Definition retry_args (c : npm_client) (a : publish_args) (otp : value) : publish_args :=
  {| pa_tag := effective_tag c a; pa_version := pa_version a;
     pa_isPreRelease := pa_isPreRelease a; pa_otp := otp;
     pa_otpPrompt := pa_otpPrompt a |}.

Definition prepare_shape (r : res prepared) : Prop :=
  exists pre,
    Forall (fun e => quiet e = true) pre /\
    ((exists p, out r = Ok p /\ emitted r = pre ++ [EvValidate (p_version p)] /\
                truthy (p_version p) = true /\
                gh_target (p_ghClient p) = Primary /\
                gh_target (p_ghDistClient p) = Dist /\
                npm_target (p_npmClient p) = Primary /\
                npm_target (p_npmDistClient p) = Dist) \/
     (exists v, out r = Throw InvalidVersionError /\ emitted r = pre ++ [EvValidate v] /\
                truthy v = false) \/
     ((forall p, out r <> Ok p) /\ emitted r = pre)).

(** One call of the step group: its two marks when it returns, its
    first mark alone when it does not. *)
Definition group_spec (t : target) (v : value) (r : res unit) : Prop :=
  Forall (fun e => not_validate e = true) (emitted r) /\
  ((out r = Ok tt /\ groups (emitted r) = [EvGroup t true v; EvGroup t false v]) \/
   ((forall a, out r <> Ok a) /\ groups (emitted r) = [EvGroup t true v])).

Definition dist_spec (cfg : config) (v : value) (s : store) (r : res unit) : Prop :=
  Forall (fun e => not_validate e = true) (emitted r) /\
  if truthy (d_repo (o_dist (cfg_options cfg)))
  then ((forall a, out r <> Ok a) /\
        (groups (emitted r) = [] \/ groups (emitted r) = [EvGroup Dist true v])) \/
       groups (emitted r) = [EvGroup Dist true v; EvGroup Dist false v]
  else out r = Ok tt /\ emitted r = [] /\ final r = s.

Definition summary_spec (r : res unit) : Prop :=
  out r = Ok tt /\ Forall (fun e => late e = true) (emitted r) /\ In done (emitted r).

(** What follows the validation: the marks of the step group are a
    beginning of the full sequence (the primary group, then the group of
    the distribution repository when one is configured), and the whole
    of it when the run succeeds; with the same version throughout. *)
Definition rest_spec (cfg : config) (v : value) (r : res tasks_result) : Prop :=
  let dist := truthy (d_repo (o_dist (cfg_options cfg))) in
  Forall (fun e => not_validate e = true) (emitted r) /\
  groups (emitted r) `prefix_of` full_groups dist v /\
  (forall res, out r = Ok res ->
               groups (emitted r) = full_groups dist v /\ In done (emitted r) /\
               tr_version res = v) /\
  (dist = false -> groups (emitted r) = full_groups false v -> exists res, out r = Ok res).

(** A run of the pipeline: it fails before the validation; or the
    validation fails; or the validation passes and the rest follows. *)
Definition run_shape (cfg : config) (r : res tasks_result) : Prop :=
  exists pre,
    Forall (fun e => quiet e = true) pre /\
    (((forall res, out r <> Ok res) /\ emitted r = pre) \/
     (exists v post,
         out r = Throw InvalidVersionError /\ emitted r = pre ++ EvValidate v :: post /\
         truthy v = false /\ Forall (fun e => quiet e = true) post) \/
     (exists v post,
         emitted r = pre ++ EvValidate v :: post /\ truthy v = true /\
         Forall (fun e => not_validate e = true) post /\
         let dist := truthy (d_repo (o_dist (cfg_options cfg))) in
         groups post `prefix_of` full_groups dist v /\
         (forall res, out r = Ok res ->
                      groups post = full_groups dist v /\ In done post /\ tr_version res = v) /\
         (dist = false -> groups post = full_groups false v -> exists res, out r = Ok res))).

(** The clients with which the step group is called for the
    repository [t], for the URL of the remote that the git client
    gave. *)
Definition gh_client_of (cfg : config) (t : target) (remoteUrl : value) : gh_client :=
  match t with
  | Primary => ghClient_of cfg remoteUrl
  | Dist => ghDistClient_of cfg remoteUrl
  end.

Definition npm_client_of (cfg : config) (t : target) : npm_client :=
  match t with
  | Primary => npmClient_of cfg
  | Dist => npmDistClient_of cfg
  end.

(** The git section of the options of the repository [t]. *)
Definition git_options (cfg : config) (t : target) : obj :=
  match t with
  | Primary => o_git (cfg_options cfg)
  | Dist => d_git (o_dist (cfg_options cfg))
  end.

(** The trace [es] of a run that began after the history [h] either
    has no mark of the beginning of the step group for [t], or has
    one, of the version [version], and only one; what follows it
    begins with a run of the sub-steps for [t], with the options
    [o_of shouldTag], the release client [gh] and the publish client
    [npmc]; [known] says that [shouldTag] is what the git client of
    the distribution repository answered before the mark. *)
Definition group_run (fuel : nat) (cfg : config) (w : world) (h : list event)
           (t : target) (version : value) (o_of : value -> group_options)
           (gh : gh_client) (npmc : npm_client) (known : bool) (es : list event) : Prop :=
  Forall (fun e => is_entry_of t e = false) es \/
  exists pre rest isPreRelease changelog s' shouldTag,
    let steps := emitted (release_steps fuel cfg version isPreRelease changelog t
                            (o_of shouldTag) gh npmc
                            w (h ++ pre ++ [EvGroup t true version]) s') in
    es = pre ++ EvGroup t true version :: steps ++ rest /\
    Forall (fun e => is_entry_of t e = false) pre /\
    Forall (fun e => is_entry_of t e = false) (steps ++ rest) /\
    (known = true -> In (EvGit Dist GShouldTag (Returned shouldTag)) pre).

(** Every run of [m] is such a trace. *)
Definition enters (fuel : nat) (cfg : config) (t : target) (version : value)
           (o_of : value -> group_options) (gh : gh_client) (npmc : npm_client)
           (known : bool) {A} (m : M A) : Prop :=
  forall w h s, group_run fuel cfg w h t version o_of gh npmc known (emitted (m w h s)).

(** The events that the report of an error adds. *)
Definition report (cfg : config) {A} (o : outcome A) : list event :=
  match o with
  | Throw e => (if isCollectMetrics cfg then [EvMetric "exception"] else []) ++ [EvError e]
  | _ => []
  end.




End RunPredicates.

(** * The rest of the clients *)

(** A string without line feed or carriage return. *)
Definition single_line (s : string) : bool :=
  forallb (fun c => negb (is_newline c)) (list_ascii_of_string s).

(** [v === s] for a string literal [s]. *)
Definition strict_eq_string (v : value) (s : string) : bool :=
  match v with
  | VStr x => String.eqb x s
  | _ => false
  end.

(** The value of a property in a stack of option objects, the first
    object that has the property deciding. *)
Fixpoint layered (layers : list obj) (k : string) : value :=
  match layers with
  | [] => VUndef
  | o :: rest =>
    match o !! k with
    | Some v => v
    | None => layered rest k
    end
  end.

(** The options given to the API library, and the client made of them
    once it is authenticated. *)
Record api_options := {
  ao_version : string;
  ao_baseUrl : string;
  ao_timeout : value;
  ao_user_agent : string;
  ao_proxy : value
}.

Record api_client := {
  ac_options : api_options;
  ac_auth_type : string;
  ac_token : value
}.

(** The state of the client after a create-release answered with [d]. *)
Definition released_with (version : value) (d : release_data) : gh_state :=
  {| gh_version := version; gh_releaseUrl := rd_html_url d;
     gh_uploadUrl := rd_upload_url d; gh_isReleased := VBool true |}.

Definition is_stat (e : event) : bool :=
  match e with EvStat _ _ => true | _ => false end.

Definition is_globby (e : event) : bool :=
  match e with EvGlobby _ _ => true | _ => false end.

Section MoreClients.
Context `{Ext : Externals}.

(** The options built in [GitHub.getGithubClient()]; [proxy] is set
  only when the option is. *)
Definition api_options_of (c : gh_client) : api_options :=
let proxy := prop (gh_options c) "proxy" in
let timeout := prop (gh_options c) "timeout" in
let host := js_or (prop (gh_options c) "host") (repo_host (gh_repo c)) in
let isGitHub := strict_eq_string host "github.com" in
let baseUrl : string :=
  ("https://" ++ (if isGitHub then "api.github.com" else to_string host)
   ++ (if isGitHub then EmptyString else "/api/v3"))%string in
{| ao_version := "3.0.0";
   ao_baseUrl := baseUrl;
   ao_timeout := timeout;
   ao_user_agent := "webpro/release-it";
   ao_proxy := if truthy proxy then proxy else VUndef |}.

(** The host that the API client is made for. *)
Definition effective_host (c : gh_client) : value :=
js_or (prop (gh_options c) "host") (repo_host (gh_repo c)).

(** [GitHub.getGithubClient()]: the field [this.client] is the second
  argument and the second component of the result. *)
Definition getGithubClient (env : gmap string string) (c : gh_client)
         (cached : option api_client) : api_client * option api_client :=
match cached with
| Some client => (client, cached)
| None =>
  let client := {| ac_options := api_options_of c;
                   ac_auth_type := "oauth";
                   ac_token := token env c |} in
  (client, Some client)
end.

(** The request of an upload of [filePath] by the client [c], from the
  state [s], once the size of the file is read. *)
Definition upload_of (c : gh_client) (s : store) (filePath : string) (e : event) : Prop :=
match e with
| EvUploadAsset t req _ =>
  t = gh_target c /\
  ur_url req = gh_uploadUrl (gh_of (gh_target c) s) /\
  ur_file req = filePath /\
  ur_name req = basename filePath /\
  truthy (ur_content_type req) = true
| _ => True
end.

(** The registry refuses the passcode [n] times, each time asking for
  one, and then accepts the command: the answers of the shell along
  the run of [publish] with the operator's answers. *)
Fixpoint accepted_after (n : nat) (c : npm_client) (name : string) (a : publish_args)
       (w : world) (h : list event) : bool :=
match w_shell w h (publish_op c name a), n with
| Returned _, O => true
| Raised r, S n' =>
  is_otp_error r &&
  let before := EvShell (publish_op c name a) (Raised r)
                :: (if not_nullish (effective_otp c a) then otp_warning else []) in
  let answer := w_prompt w (h ++ before) "otp" in
  accepted_after n' c name (retry_args c a answer) w (h ++ before ++ [EvPrompt "otp" answer])
| _, _ => false
end.

End MoreClients.

(** The options that [publish] reads. *)
Definition publish_reads : list string :=
  ["name"; "tag"; "otp"; "publishPath"; "access"; "isDryRun"; "isInteractive"].

(** Two publish clients for the same target whose options agree on what
    [publish] reads. *)
Definition same_publish_options (c c' : npm_client) : Prop :=
  npm_target c = npm_target c' /\
  Forall (fun k => prop (npm_options c) k = prop (npm_options c') k) publish_reads.

(** The client [c] with the option [k] set to [v]. *)
Definition with_option (c : npm_client) (k : string) (v : value) : npm_client :=
  {| npm_target := npm_target c; npm_options := <[k := v]> (npm_options c) |}.

(** * Relations on the runs of the pipeline *)

(** How a run ended, whatever it would have given. *)
Inductive verdict :=
| Returns
| Throws (e : exn)
| Unfinished.

Definition verdict_of {A} (o : outcome A) : verdict :=
  match o with
  | Ok _ => Returns
  | Throw e => Throws e
  | Pending => Unfinished
  end.

(** A relation between the state before a run, what the run emitted,
    the state after it and how it ended. *)
Definition run_rel : Type := store -> list event -> store -> verdict -> Prop.

(** Every run of [m] is in the relation [R]. *)
Definition respects {A} (R : run_rel) (m : M A) : Prop :=
  forall w h s, R s (emitted (m w h s)) (final (m w h s)) (verdict_of (out (m w h s))).

(** The same, and what the run gives satisfies [Post]. *)
Definition respects_giving {A} (R : run_rel) (Post : A -> Prop) (m : M A) : Prop :=
  forall w h s,
    R s (emitted (m w h s)) (final (m w h s)) (verdict_of (out (m w h s))) /\
    forall a, out (m w h s) = Ok a -> Post a.

(** [R] holds of a step that does nothing, and of a run made of a run
    that returned followed by another. *)
Record sequential (R : run_rel) : Prop := {
  seq_skip : forall s, R s [] s Returns;
  seq_fail : forall s e, R s [] s (Throws e);
  seq_then : forall s es s' es' s'' v,
      R s es s' Returns -> R s' es' s'' v -> R s (es ++ es') s'' v
}.

Definition is_publish_op (op : shell_op) : bool :=
  match op with SRun _ _ _ => true | _ => false end.

(** What the pipeline emits outside its clients when nothing fails: log
    entries, marks, and the calls to git and to the shell that came
    back. *)
Definition routine (e : event) : bool :=
  match e with
  | EvLog _ _ | EvValidate _ | EvMetric _ | EvOnSignal _ | EvGroup _ _ _ => true
  | EvGit _ _ (Returned _) => true
  | EvShell op (Returned _) => negb (is_publish_op op)
  | _ => false
  end.

(** [R] holds of each step that the pipeline takes outside its clients;
    of the questions to the operator only in an interactive run. *)
Record admits (R : run_rel) (interactive : bool) : Prop := {
  adm_routine : forall s e, routine e = true -> R s [e] s Returns;
  adm_git_fail : forall s t op r, R s [EvGit t op (Raised r)] s (Throws (Rejected r));
  adm_shell_fail : forall s op r,
      is_publish_op op = false -> R s [EvShell op (Raised r)] s (Throws (Rejected r));
  adm_bump : forall s i p v, R s [EvBump i p (BumpOk v)] (set_version v s) Returns;
  adm_bump_invalid : forall s i p, R s [EvBump i p BumpInvalid] s (Throws InvalidVersionError);
  adm_set_version : forall s v, R s [] (set_version v s) Returns;
  adm_prompt : interactive = true -> forall s name a, R s [EvPrompt name a] s Returns
}.

Section ClientsOfTheRun.
Context `{Ext : Externals}.

(** The arguments with which the step group calls [publish]. *)
Definition publish_call (version isPreRelease : value) : publish_args :=
{| pa_tag := VUndef; pa_version := version; pa_isPreRelease := isPreRelease;
   pa_otp := VUndef; pa_otpPrompt := Some otpPrompt |}.

(** [R] holds of every call that the step group makes to the release
  client [gh] and to the publish client [npmc]. *)
Definition clients_respect (R : run_rel) (fuel : nat) (gh : gh_client) (npmc : npm_client)
: Prop :=
(forall version isPreRelease changelog,
    respects R (GitHub_release gh version isPreRelease changelog)) /\
respects R (GitHub_uploadAssets gh) /\
(forall version isPreRelease, respects R (publish fuel npmc (publish_call version isPreRelease))).

(** The four clients of [p] are those that the pipeline builds from the
  configuration and some remote URL. *)
Definition clients_of (cfg : config) (p : prepared) : Prop :=
(exists url, p_ghClient p = ghClient_of cfg url /\
             p_ghDistClient p = ghDistClient_of cfg url) /\
p_npmClient p = npmClient_of cfg /\
p_npmDistClient p = npmDistClient_of cfg.

End ClientsOfTheRun.

(** Relations on the events alone, relations on the state alone, and
    conjunctions. *)
Definition only (P : event -> Prop) : run_rel := fun _ es _ _ => Forall P es.

Definition keeps {X : Type} (f : store -> X) : run_rel := fun s _ s' _ => f s' = f s.

Definition rel_and (R1 R2 : run_rel) : run_rel :=
  fun s es s' v => R1 s es s' v /\ R2 s es s' v.

(** ** Dry runs *)

(** What a dry run may emit: no call to the API, no listing or reading
    of asset files, and publish commands only with the dry-run flag at
    their end. *)
Definition dry_event (e : event) : Prop :=
  match e with
  | EvCreateRelease _ _ _ | EvUploadAsset _ _ _ | EvStat _ _ | EvGlobby _ _ => False
  | EvShell (SRun cmd _ _) _ => exists pre, cmd = (pre ++ " --dry-run")%string
  | _ => True
  end.

Definition dry_rel : run_rel :=
  rel_and (only dry_event) (rel_and (keeps st_gh) (keeps st_gh_dist)).

(** ** Failures *)

(** The error with which a call ends the run: a failed call to git, a
    failed command of the shell (for the publish command, unless the
    registry asks for a passcode), a version that cannot be resolved. *)
Definition failure_of (e : event) : option exn :=
  match e with
  | EvGit _ _ (Raised r) => Some (Rejected r)
  | EvShell (SRun _ _ _) (Raised r) => if is_otp_error r then None else Some (Rejected r)
  | EvShell _ (Raised r) => Some (Rejected r)
  | EvBump _ _ BumpInvalid => Some InvalidVersionError
  | _ => None
  end.

(** The first such call of a trace is its last event, and its error is
    how the run ended. *)
Fixpoint stops_at_failure (v : verdict) (es : list event) : Prop :=
  match es with
  | [] => True
  | e :: es' =>
    match failure_of e with
    | Some x => es' = [] /\ v = Throws x
    | None => stops_at_failure v es'
    end
  end.

Definition stop_rel : run_rel := fun _ es _ v => stops_at_failure v es.

(** An error that is an instance of [Error], and so has a message. *)
Definition has_message (x : exn) : Prop :=
  match x with
  | Rejected (Thrown _) => False
  | _ => True
  end.

(** ** Questions *)

Definition silent_rel : run_rel := only (fun e => is_prompt e = false).

(** ** Marks *)

Definition target_eqb (t t' : target) : bool :=
  match t, t' with
  | Primary, Primary | Dist, Dist => true
  | _, _ => false
  end.

(** A create-release call for the target [t] that the API answered with
    a release. *)
Definition created (t : target) (e : event) : bool :=
  match e with
  | EvCreateRelease t' _ (NetOk _) => target_eqb t t'
  | _ => false
  end.

(** A publish command that succeeded. *)
Definition published (e : event) : bool :=
  match e with
  | EvShell (SRun _ _ _) (Returned _) => true
  | _ => false
  end.

(** Without a release created for [t], the state of the release client
    of [t] is what it was; without a publish command that succeeded, so
    are the marks of the publish clients. *)
Definition marks_rel (t : target) : run_rel :=
  fun s es s' _ =>
    (Forall (fun e => created t e = false) es -> gh_of t s' = gh_of t s) /\
    (Forall (fun e => published e = false) es ->
     st_published s' = st_published s /\ st_published_dist s' = st_published_dist s).

(** ** Reports *)



(** ** The sub-steps of the step group *)

Definition is_commit (e : event) : bool :=
  match e with EvGit _ GCommit _ => true | _ => false end.

Definition is_tag (e : event) : bool :=
  match e with EvGit _ GTag _ => true | _ => false end.

Definition is_push (e : event) : bool :=
  match e with EvGit _ GPush _ => true | _ => false end.

(** In the trace [es], every event of upload-assets comes after a
    create-release call for [t] that the API answered with a release. *)
Definition uploads_follow_release (t : target) (es : list event) : Prop :=
  forall pre e post,
    es = pre ++ e :: post ->
    is_upload_step e = true ->
    exists req d, In (EvCreateRelease t req (NetOk d)) pre.

Definition follow_rel (t : target) : run_rel := fun _ es _ _ => uploads_follow_release t es.

(** The configuration [cfg] with the option [tag] of the git section of
    its distribution repository set to [v]. *)
Definition with_dist_tag (cfg : config) (v : value) : config :=
  let o := cfg_options cfg in
  let d := o_dist o in
  {| isInteractive := isInteractive cfg;
     isVerbose := isVerbose cfg;
     isDryRun := isDryRun cfg;
     isCollectMetrics := isCollectMetrics cfg;
     cfg_options :=
       {| o_name := o_name o; o_increment := o_increment o; o_preRelease := o_preRelease o;
          o_preReleaseId := o_preReleaseId o; o_pkgFiles := o_pkgFiles o;
          o_scripts := o_scripts o; o_git := o_git o; o_github := o_github o;
          o_npm := o_npm o;
          o_dist :=
            {| d_repo := d_repo d; d_stageDir := d_stageDir d; d_baseDir := d_baseDir d;
               d_files := d_files d; d_pkgFiles := d_pkgFiles d; d_scripts := d_scripts d;
               d_git := <["tag" := v]> (d_git d);
               d_github := d_github d; d_npm := d_npm d |} |};
     cfg_github_defaults := cfg_github_defaults cfg |}.

(** * The metrics beacon *)

(** [cast = value => (value ? 1 : 0)] *)
Definition cast (v : value) : value := if truthy v then VNum 1 else VNum 0.

(** What the module reads once when it is loaded: the client id, the
    size of the window (when the library that gives it is there), the
    colour support level (when there is one), the versions of the
    package and of the runtime, the name of the system, and whether the
    run is under continuous integration. *)
Record metrics_env := {
  me_cid : value;
  me_window : option (value * value);
  me_colorLevel : option Z;
  me_pkg_version : value;
  me_process_version : value;
  me_osName : value;
  me_isCi : value
}.

Definition depths : list string := ["1-bit"; "4-bit"; "8-bit"; "24-bits"].

(** [vp = `${dimensions.width}x${dimensions.height}`] *)
Definition vp (env : metrics_env) : string :=
  let dimensions := match me_window env with
                    | Some d => d
                    | None => (VNum 0, VNum 0)
                    end in
  (to_string (fst dimensions) ++ "x" ++ to_string (snd dimensions))%string.

(** [sd = depths[supportsColor.level || 0]] *)
Definition sd (env : metrics_env) : value :=
  let level := match me_colorLevel env with
               | Some n => if (n =? 0)%Z then 0%Z else n
               | None => 0%Z
               end in
  if (level <? 0)%Z then VUndef
  else match depths !! Z.to_nat level with
       | Some d => VStr d
       | None => VUndef
       end.

(** The options as [payload] reads them. *)
Record metrics_config := {
  mc_isInteractive : value;
  mc_isDryRun : value;
  mc_isVerbose : value;
  mc_isDebug : value;
  mc_scripts : obj;
  mc_preReleaseId : value;
  mc_dist_repo : value;
  mc_git : obj;
  mc_npm : obj;
  mc_github : obj;
  mc_increment : value
}.

(** [payload(config)] *)
Definition payload (env : metrics_env) (config : metrics_config) : obj :=
  <["v" := VNum 1]> (
  <["tid" := VStr "UA-108828841-1"]> (
  <["cid" := me_cid env]> (
  <["vp" := VStr (vp env)]> (
  <["sd" := sd env]> (
  <["cd1" := me_pkg_version env]> (
  <["cd2" := me_process_version env]> (
  <["cd3" := me_osName env]> (
  <["cd4" := cast (mc_isInteractive config)]> (
  <["cd5" := cast (mc_isDryRun config)]> (
  <["cd6" := cast (mc_isVerbose config)]> (
  <["cd7" := cast (mc_isDebug config)]> (
  <["cd8" := cast (prop (mc_scripts config) "beforeStage")]> (
  <["cd9" := mc_preReleaseId config]> (
  <["cd10" := cast (mc_dist_repo config)]> (
  <["cd11" := cast (me_isCi env)]> (
  <["cd12" := cast (prop (mc_git config) "tag")]> (
  <["cd13" := cast (prop (mc_npm config) "publish")]> (
  <["cd14" := cast (prop (mc_github config) "release")]> (
  {["cd15" := mc_increment config]}))))))))))))))))))).

(** The request of [send]. *)
Record beacon := {
  b_url : string;
  b_timeout : Z;
  b_retries : Z;
  b_form : bool;
  b_body : obj
}.

Definition send (body : obj) : beacon :=
  {| b_url := "http://www.google-analytics.com/collect";
     b_timeout := 300; b_retries := 0; b_form := true; b_body := body |}.

(** A promise that is settled; [promise.then(f)] and [promise.catch(f)]
    for a function [f] that does not throw. *)
Inductive settled :=
| Fulfilled (v : value)
| Broken (reason : value).

Definition and_then (f : value -> value) (p : settled) : settled :=
  match p with
  | Fulfilled v => Fulfilled (f v)
  | Broken r => Broken r
  end.

Definition or_catch (f : value -> value) (p : settled) : settled :=
  match p with
  | Fulfilled v => Fulfilled v
  | Broken r => Fulfilled (f r)
  end.

(** [debug] logs and gives undefined. *)
Definition debug (_ : value) : value := VUndef.

(** What becomes of the promise of the request in [send], for the
    function [pick] that keeps the properties of the response worth
    logging. *)
Definition sent (pick : value -> value) (response : settled) : settled :=
  or_catch debug (and_then debug (and_then pick response)).

(** [trackEvent(action, config)] *)
Definition trackEvent (env : metrics_env) (action : value) (config : option metrics_config)
  : beacon :=
  send (assign (match config with Some c => payload env c | None => ∅ end)
               (<["t" := VStr "event"]> (<["ec" := VStr "session"]> {["ea" := action]}))).

(** [s.split(eol)[0]]: what comes before the first [eol]. *)
Fixpoint first_segment (eol s : string) : string :=
  if is_prefix eol s then EmptyString
  else match s with
       | EmptyString => EmptyString
       | String c r => String c (first_segment eol r)
       end.

(** [trackException(err)], for an error with the message [message]. *)
Definition trackException (eol message : string) : beacon :=
  send (<["t" := VStr "exception"]> {["exd" := VStr (first_segment eol message)]}).

Definition flag_dimensions : list string :=
  ["cd4"; "cd5"; "cd6"; "cd7"; "cd8"; "cd10"; "cd11"; "cd12"; "cd13"; "cd14"].

(** * More worlds *)

(** The world [w] with another version-control backend. *)
Definition with_git (g : list event -> target -> git_op -> result value) (w : world) : world :=
  {| w_env := w_env w; w_git := g; w_git_prop := w_git_prop w; w_shell := w_shell w;
     w_create := w_create w; w_upload := w_upload w; w_globby := w_globby w;
     w_stat := w_stat w; w_next := w_next w; w_prompt := w_prompt w; w_bump := w_bump w;
     w_isPreRelease := w_isPreRelease w |}.

Definition remote_rejected : rejection := Error "Error" "remote rejected".

(** The push is refused. *)
Definition push_refused : world :=
  with_git (fun h t op => match op with
                          | GPush => Raised remote_rejected
                          | _ => w_git calm h t op
                          end) calm.

(** The git client of the distribution repository says that no tag
    should be made. *)
Definition never_tagging : world :=
  with_git (fun h t op => match op with
                          | GShouldTag => Returned (VBool false)
                          | _ => w_git calm h t op
                          end) calm.

Definition line_feed : string := String (ascii_of_nat 10) EmptyString.

(** A terminal of 80 columns without colours, on a developer's
    machine. *)
Definition a_terminal : metrics_env :=
  {| me_cid := VStr "0f6c1c0e-3b1e-4a52-9d3c-2f1f0a1b2c3d";
     me_window := Some (VNum 80, VNum 24);
     me_colorLevel := None;
     me_pkg_version := VStr "7.4.8";
     me_process_version := VStr "v8.11.1";
     me_osName := VStr "Linux";
     me_isCi := VBool false |}.

(** No file matches the glob of the assets. *)
Definition nothing_matches : world :=
  {| w_env := w_env granted; w_git := w_git granted; w_git_prop := w_git_prop granted;
     w_shell := w_shell granted; w_create := w_create granted; w_upload := w_upload granted;
     w_globby := fun _ _ => [];
     w_stat := w_stat granted; w_next := w_next granted; w_prompt := w_prompt granted;
     w_bump := w_bump granted;
     w_isPreRelease := w_isPreRelease granted |}.

(** A release with assets. *)
Definition github_assets : obj := <["assets" := VStr "dist/*.zip"]> github_on.

Definition assets_config : config :=
  config_of false false (options_of git_on github_assets npm_off no_dist).

(** The options of a scripted run that tags and publishes. *)
Definition scripted : metrics_config :=
  {| mc_isInteractive := VBool false; mc_isDryRun := VBool false; mc_isVerbose := VBool false;
     mc_isDebug := VUndef; mc_scripts := ∅; mc_preReleaseId := VNull;
     mc_dist_repo := VBool false; mc_git := git_on; mc_npm := npm_on; mc_github := github_off;
     mc_increment := VStr "patch" |}.

(** An interactive session that releases with assets. *)
Definition attended_assets_config : config :=
  config_of true false (options_of git_off github_assets npm_off no_dist).

(** The operator agrees to every step, and the token is there. *)
Definition agreeing : world :=
  world_of {[ "GITHUB_TOKEN" := "t0k3n" ]} (fun _ => NetOk release_answer)
           (fun _ _ => Returned VUndef) (fun _ => VBool true).



Definition not_found : http_error :=
  {| he_status := VNum 404; he_message := "Not Found" |}.





(** Two files match the glob of the assets; of two uploads under way,
    the second is answered first; the size of a file is read unless
    [unreadable] says otherwise, and an upload is accepted unless
    [refused] says otherwise. *)
Definition two_assets (unreadable refused : string -> bool) : world :=
  {| w_env := w_env granted; w_git := w_git granted; w_git_prop := w_git_prop granted;
     w_shell := w_shell granted; w_create := w_create granted;
     w_upload := fun _ _ req =>
       if refused (ur_file req) then NetErr not_found
       else NetOk {| ad_browser_download_url :=
                       VStr ("https://github.com/webpro/release-it/" ++ ur_name req) |};
     w_globby := fun _ _ => ["dist/a.zip"; "dist/b.zip"];
     w_stat := fun _ path =>
       if unreadable path then Raised (Error "Error" "ENOENT: no such file")
       else Returned (VNum 1024);
     w_next := fun _ _ => 1;
     w_prompt := w_prompt granted; w_bump := w_bump granted;
     w_isPreRelease := w_isPreRelease granted |}.

Definition asset_request (path name : string) : upload_request :=
  {| ur_url := VUndef; ur_file := path; ur_name := name;
     ur_content_type := VStr "application/zip"; ur_content_length := VNum 1024 |}.

Definition asset_answer (name : string) : asset_data :=
  {| ad_browser_download_url := VStr ("https://github.com/webpro/release-it/" ++ name) |}.

(** A distribution repository that is released and published under
    names of its own. *)
Definition a_released_dist : dist_options :=
  {| d_repo := VStr "git@github.com:webpro/release-it-dist.git";
     d_stageDir := VStr ".stage"; d_baseDir := VStr "dist";
     d_files := VStr "**/*"; d_pkgFiles := VStr "package.json"; d_scripts := ∅;
     d_git := {[ "commit" := VBool true; "push" := VBool true ]};
     d_github := {[ "release" := VBool true; "releaseName" := VStr "Dist ${version}" ]};
     d_npm := {[ "publish" := VBool true; "name" := VStr "my-package-dist" ]} |}.

(** Both repositories are released and published. *)
Definition dual_release_config : config :=
  config_of false false (options_of git_on github_on npm_on a_released_dist).





(** * The order of the sub-steps *)

(** The place of an event in the step group: commit, tag, push,
    create-release, upload-assets, publish; none for the rest. *)
Definition rank (e : event) : option nat :=
  match e with
  | EvGit _ GCommit _ => Some 1
  | EvGit _ GTag _ => Some 2
  | EvGit _ GPush _ => Some 3
  | EvCreateRelease _ _ _ => Some 4
  | EvGlobby _ _ | EvStat _ _ | EvUploadAsset _ _ _ => Some 5
  | EvShell (SRun _ _ _) _ => Some 6
  | _ => None
  end.

(** The places of the events of [es] never go down, and start at [k]
    or above. *)
Fixpoint ordered_from (k : nat) (es : list event) : bool :=
  match es with
  | [] => true
  | e :: es' =>
    match rank e with
    | Some r => Nat.leb k r && ordered_from r es'
    | None => ordered_from k es'
    end
  end.

Definition in_order (es : list event) : bool := ordered_from 0 es.

(** An event without a place, or at the place [m]. *)
Definition flat (m : nat) (e : event) : bool :=
  match rank e with
  | Some r => Nat.eqb r m
  | None => true
  end.

(** Every run of [x] is in order from [k] and ends at [m] or below. *)
Definition stays {A} (k m : nat) (x : M A) : Prop :=
  forall w h s,
    ordered_from k (emitted (x w h s)) = true /\
    Forall (fun e => match rank e with Some r => (r <= m)%nat | None => True end)
           (emitted (x w h s)).

(** * Properties *)

(** ** Publish tag resolution *)

Section TagProperties.
Context `{Ext : Externals}.

Lemma getTag_not_prerelease (a : tag_args) :
  truthy (ta_isPreRelease a) = false ->
  getTag a = or_default (ta_tag a) (VStr DEFAULT_TAG).
Proof. intros H. unfold getTag. now rewrite H. Qed.

Lemma getTag_no_version (a : tag_args) :
  truthy (ta_version a) = false ->
  getTag a = or_default (ta_tag a) (VStr DEFAULT_TAG).
Proof. intros H. unfold getTag. rewrite H. now rewrite orb_true_r. Qed.

Lemma getTag_no_components (a : tag_args) :
  prerelease (ta_version a) = None \/ prerelease (ta_version a) = Some [] ->
  getTag a = or_default (ta_tag a) (VStr DEFAULT_TAG).
Proof.
  intros H. unfold getTag.
  destruct (negb (truthy (ta_isPreRelease a)) || negb (truthy (ta_version a))); [reflexivity|].
  destruct H as [-> | ->]; reflexivity.
Qed.

Lemma getTag_prerelease (a : tag_args) (c : value) (cs : list value) :
  truthy (ta_isPreRelease a) = true ->
  truthy (ta_version a) = true ->
  prerelease (ta_version a) = Some (c :: cs) ->
  c <> VUndef ->
  getTag a = c.
Proof.
  intros Hp Hv Hc Hne. unfold getTag. rewrite Hp, Hv, Hc. simpl.
  destruct c; congruence.
Qed.

(** C2, as amended. The tag of a pre-release version is its first
    pre-release identifier, whether or not a tag was supplied; without
    a supplied tag a version that is not a pre-release gets the default
    tag; a supplied tag takes the place of the default tag, and so
    decides the tag of a version that is not a pre-release. *)
Theorem C2_tag_resolution (a : tag_args) :
  (forall c cs,
      truthy (ta_isPreRelease a) = true ->
      truthy (ta_version a) = true ->
      prerelease (ta_version a) = Some (c :: cs) ->
      c <> VUndef ->
      getTag a = c) /\
  (truthy (ta_isPreRelease a) = false ->
   ta_tag a = VUndef ->
   getTag a = VStr DEFAULT_TAG) /\
  (truthy (ta_isPreRelease a) = false ->
   ta_tag a <> VUndef ->
   getTag a = ta_tag a).
Proof.
  split; [|split].
  - intros c cs. apply getTag_prerelease.
  - intros Hp Ht. rewrite getTag_not_prerelease by assumption. now rewrite Ht.
  - intros Hp Ht. rewrite getTag_not_prerelease by assumption.
    destruct (ta_tag a); simpl; congruence.
Qed.

(** C9. When the release is flagged as a pre-release but the version
    is absent, or when the version has no pre-release components, the
    tag is the supplied tag, or 'latest' when none is supplied; and
    whatever the arguments, [getTag] returns either that tag or the
    first pre-release component of the version, never undefined unless
    handed to it. *)
Theorem C9_tag_fallback (a : tag_args) :
  (truthy (ta_isPreRelease a) = true ->
   truthy (ta_version a) = false ->
   getTag a = or_default (ta_tag a) (VStr "latest")) /\
  (prerelease (ta_version a) = None \/ prerelease (ta_version a) = Some [] ->
   getTag a = or_default (ta_tag a) (VStr "latest")) /\
  (getTag a = or_default (ta_tag a) (VStr "latest") \/
   exists c cs, prerelease (ta_version a) = Some (c :: cs) /\ c <> VUndef /\ getTag a = c) /\
  getTag a <> VUndef.
Proof.
  split; [|split; [|split]].
  - intros _ Hv. now apply getTag_no_version.
  - apply getTag_no_components.
  - unfold getTag.
    destruct (negb (truthy (ta_isPreRelease a)) || negb (truthy (ta_version a)));
      [now left|].
    destruct (prerelease (ta_version a)) as [[|c cs]|] eqn:E; [now left| |now left].
    destruct c; simpl;
      first [ now left
            | right; eexists _, _; split; [reflexivity | split; [discriminate | reflexivity]] ].
  - unfold getTag.
    assert (Hd : or_default (ta_tag a) (VStr DEFAULT_TAG) <> VUndef)
      by (destruct (ta_tag a); simpl; congruence).
    destruct (negb (truthy (ta_isPreRelease a)) || negb (truthy (ta_version a)));
      [exact Hd|].
    destruct (prerelease (ta_version a)) as [[|c cs]|]; simpl; try exact Hd.
    destruct c; simpl; try congruence; exact Hd.
Qed.

End TagProperties.

(** C2 as stated fails: with the tag 'next' supplied, the pre-release
    version 2.0.0-beta.3 is still published under 'beta'. *)
Lemma C2_supplied_tag_not_used :
  let a := {| ta_tag := VStr "next"; ta_version := VStr "2.0.0-beta.3";
              ta_isPreRelease := VBool true |} in
  getTag a = VStr "beta" /\ getTag a <> ta_tag a.
Proof. vm_compute. split; [reflexivity | discriminate]. Qed.

Lemma C2_tag_resolution_witness :
  getTag {| ta_tag := VUndef; ta_version := VStr "2.0.0-beta.3";
            ta_isPreRelease := VBool true |} = VStr "beta" /\
  getTag {| ta_tag := VUndef; ta_version := VStr "2.0.0";
            ta_isPreRelease := VBool false |} = VStr "latest" /\
  getTag {| ta_tag := VStr "next"; ta_version := VStr "2.0.0";
            ta_isPreRelease := VBool false |} = VStr "next".
Proof.
  split; [|split].
  - apply (proj1 (C2_tag_resolution _) (VStr "beta") [VNum 3]);
      [reflexivity | reflexivity | vm_compute; reflexivity | discriminate].
  - apply (proj1 (proj2 (C2_tag_resolution _))); reflexivity.
  - apply (proj2 (proj2 (C2_tag_resolution
             {| ta_tag := VStr "next"; ta_version := VStr "2.0.0";
                ta_isPreRelease := VBool false |}))); [reflexivity | discriminate].
Defined.

Lemma C9_tag_fallback_witness :
  getTag {| ta_tag := VStr "next"; ta_version := VUndef; ta_isPreRelease := VBool true |}
  = VStr "next" /\
  getTag {| ta_tag := VUndef; ta_version := VStr "1.4.0"; ta_isPreRelease := VBool true |}
  = VStr "latest".
Proof.
  split.
  - apply (proj1 (C9_tag_fallback
             {| ta_tag := VStr "next"; ta_version := VUndef; ta_isPreRelease := VBool true |}));
      reflexivity.
  - apply (proj1 (proj2 (C9_tag_fallback
             {| ta_tag := VUndef; ta_version := VStr "1.4.0"; ta_isPreRelease := VBool true |}))).
    left. vm_compute. reflexivity.
Defined.

(** ** Running computations

    [wp m w h s Q]: the run of [m] in world [w], after the history [h],
    from the store [s], satisfies [Q]. The rules below run a computation
    one step at a time, so that each answer of a collaborator can be
    examined when it is given. *)

Lemma run_bind {A B} (m : M A) (f : A -> M B) w h s :
  (m ≫= f) w h s =
  match out (m w h s) with
  | Ok a =>
    {| out := out (f a w (h ++ emitted (m w h s)) (final (m w h s)));
       emitted := emitted (m w h s) ++ emitted (f a w (h ++ emitted (m w h s)) (final (m w h s)));
       final := final (f a w (h ++ emitted (m w h s)) (final (m w h s))) |}
  | Throw e => {| out := Throw e; emitted := emitted (m w h s); final := final (m w h s) |}
  | Pending => {| out := Pending; emitted := emitted (m w h s); final := final (m w h s) |}
  end.
Proof. reflexivity. Qed.

Lemma run_catch {A} (m : M A) (handler : exn -> M A) w h s :
  catch m handler w h s =
  match out (m w h s) with
  | Throw e =>
    {| out := out (handler e w (h ++ emitted (m w h s)) (final (m w h s)));
       emitted := emitted (m w h s)
                  ++ emitted (handler e w (h ++ emitted (m w h s)) (final (m w h s)));
       final := final (handler e w (h ++ emitted (m w h s)) (final (m w h s))) |}
  | _ => m w h s
  end.
Proof. reflexivity. Qed.

Lemma wp_bind {A B} (m : M A) (f : A -> M B) w h s Q :
  wp m w h s (fun r =>
    match out r with
    | Ok a =>
      wp (f a) w (h ++ emitted r) (final r) (fun r' =>
        Q {| out := out r'; emitted := emitted r ++ emitted r'; final := final r' |})
    | Throw e => Q {| out := Throw e; emitted := emitted r; final := final r |}
    | Pending => Q {| out := Pending; emitted := emitted r; final := final r |}
    end) ->
  wp (m ≫= f) w h s Q.
Proof. unfold wp. rewrite run_bind. destruct (out (m w h s)); auto. Qed.

Lemma wp_catch {A} (m : M A) (handler : exn -> M A) w h s Q :
  wp m w h s (fun r =>
    match out r with
    | Throw e =>
      wp (handler e) w (h ++ emitted r) (final r) (fun r' =>
        Q {| out := out r'; emitted := emitted r ++ emitted r'; final := final r' |})
    | _ => Q r
    end) ->
  wp (catch m handler) w h s Q.
Proof. unfold wp. rewrite run_catch. destruct (out (m w h s)); auto. Qed.

Lemma wp_ret {A} (a : A) w h s Q :
  Q {| out := Ok a; emitted := []; final := s |} -> wp (mret a) w h s Q.
Proof. exact id. Qed.

Lemma wp_throw {A} (e : exn) w h s (Q : res A -> Prop) :
  Q {| out := Throw e; emitted := []; final := s |} -> wp (throw e) w h s Q.
Proof. exact id. Qed.

Lemma wp_pending {A} w h s (Q : res A -> Prop) :
  Q {| out := Pending; emitted := []; final := s |} -> wp pending w h s Q.
Proof. exact id. Qed.

Lemma wp_emit e w h s Q :
  Q {| out := Ok tt; emitted := [e]; final := s |} -> wp (emit e) w h s Q.
Proof. exact id. Qed.

Lemma wp_log l msg w h s Q :
  Q {| out := Ok tt; emitted := [EvLog l msg]; final := s |} -> wp (log l msg) w h s Q.
Proof. exact id. Qed.

Lemma wp_modify f w h s Q :
  Q {| out := Ok tt; emitted := []; final := f s |} -> wp (modify f) w h s Q.
Proof. exact id. Qed.

Lemma wp_get_store w h s Q :
  Q {| out := Ok s; emitted := []; final := s |} -> wp get_store w h s Q.
Proof. exact id. Qed.

Lemma wp_get_world w h s Q :
  Q {| out := Ok w; emitted := []; final := s |} -> wp get_world w h s Q.
Proof. exact id. Qed.

Lemma wp_git t op w h s Q :
  Q {| out := of_result (w_git w h t op); emitted := [EvGit t op (w_git w h t op)];
       final := s |} ->
  wp (git t op) w h s Q.
Proof. exact id. Qed.

Lemma wp_git_prop t name w h s Q :
  Q {| out := Ok (w_git_prop w h t name); emitted := []; final := s |} ->
  wp (git_prop t name) w h s Q.
Proof. exact id. Qed.

Lemma wp_shell op w h s Q :
  Q {| out := of_result (w_shell w h op); emitted := [EvShell op (w_shell w h op)];
       final := s |} ->
  wp (shell op) w h s Q.
Proof. exact id. Qed.

Lemma wp_createRelease t req w h s Q :
  Q {| out := Ok (w_create w h t req); emitted := [EvCreateRelease t req (w_create w h t req)];
       final := s |} ->
  wp (createRelease t req) w h s Q.
Proof. exact id. Qed.

Lemma wp_uploadReleaseAsset t req w h s Q :
  Q {| out := Ok (w_upload w h t req); emitted := [EvUploadAsset t req (w_upload w h t req)];
       final := s |} ->
  wp (uploadReleaseAsset t req) w h s Q.
Proof. exact id. Qed.

Lemma wp_globby assets w h s Q :
  Q {| out := Ok (w_globby w h assets); emitted := [EvGlobby assets (w_globby w h assets)];
       final := s |} ->
  wp (globby assets) w h s Q.
Proof. exact id. Qed.

Lemma wp_statSize path w h s Q :
  Q {| out := of_result (w_stat w h path); emitted := [EvStat path (w_stat w h path)];
       final := s |} ->
  wp (statSize path) w h s Q.
Proof. exact id. Qed.

Lemma wp_inquire name w h s Q :
  Q {| out := Ok (w_prompt w h name); emitted := [EvPrompt name (w_prompt w h name)];
       final := s |} ->
  wp (inquire name) w h s Q.
Proof. exact id. Qed.

Lemma wp_void {A} (m : M A) w h s Q :
  wp (m ≫= fun _ => mret tt) w h s Q -> wp (void m) w h s Q.
Proof. exact id. Qed.

Ltac wp_red := cbn [out emitted final of_result].

Ltac wp_step :=
  lazymatch goal with
  | |- wp (_ ≫= _) _ _ _ _ => apply wp_bind
  | |- wp (mbind _ _) _ _ _ _ => apply wp_bind
  | |- wp (catch _ _) _ _ _ _ => apply wp_catch
  | |- wp (mret _) _ _ _ _ => apply wp_ret
  | |- wp (throw _) _ _ _ _ => apply wp_throw
  | |- wp pending _ _ _ _ => apply wp_pending
  | |- wp (emit _) _ _ _ _ => apply wp_emit
  | |- wp (log _ _) _ _ _ _ => apply wp_log
  | |- wp (modify _) _ _ _ _ => apply wp_modify
  | |- wp get_store _ _ _ _ => apply wp_get_store
  | |- wp get_world _ _ _ _ => apply wp_get_world
  | |- wp (git _ _) _ _ _ _ => apply wp_git
  | |- wp (git_prop _ _) _ _ _ _ => apply wp_git_prop
  | |- wp (shell _) _ _ _ _ => apply wp_shell
  | |- wp (createRelease _ _) _ _ _ _ => apply wp_createRelease
  | |- wp (uploadReleaseAsset _ _) _ _ _ _ => apply wp_uploadReleaseAsset
  | |- wp (globby _) _ _ _ _ => apply wp_globby
  | |- wp (statSize _) _ _ _ _ => apply wp_statSize
  | |- wp (inquire _) _ _ _ _ => apply wp_inquire
  | |- wp (void _) _ _ _ _ => apply wp_void
  end; wp_red.

Ltac wp_steps := repeat wp_step.

(** ** Counting and splitting traces *)

Lemma count_app f es1 es2 : count f (es1 ++ es2) = count f es1 + count f es2.
Proof. induction es1 as [|e es1 IH]; simpl; [reflexivity | rewrite IH; lia]. Qed.

Lemma split_lookup {A} (l pre post : list A) (x : A) :
  l = pre ++ x :: post ->
  exists i, l !! i = Some x /\ pre = take i l /\ post = drop (S i) l.
Proof.
  intros ->. exists (length pre). split; [|split].
  - rewrite lookup_app_r by lia. now rewrite Nat.sub_diag.
  - now rewrite take_app_length.
  - replace (pre ++ x :: post) with ((pre ++ [x]) ++ post)
      by (now rewrite <- app_assoc).
    rewrite drop_app_length'; [reflexivity | rewrite length_app; simpl; lia].
Qed.

(** Case analysis on the position of an event in a trace that is known
    up to its end. *)
Ltac split_trace H :=
  let i := fresh "i" in
  let Hi := fresh "Hi" in
  let Hpre := fresh "Hpre" in
  let Hpost := fresh "Hpost" in
  apply split_lookup in H; destruct H as (i & Hi & Hpre & Hpost);
  repeat (destruct i as [|i]; simpl in Hi, Hpre, Hpost;
          [try discriminate Hi |]);
  try discriminate Hi.

Section RetryProperties.
Context `{Ext : Externals}.

Lemma wp_retry_from {A} (fn : M (attempt A)) retries errors w h s Q :
  wp fn w h s (fun r =>
    match out r with
    | Ok (Resolved a) => Q {| out := Ok a; emitted := emitted r ++ []; final := final r |}
    | Ok (Bailed e) => Q {| out := Throw e; emitted := emitted r ++ []; final := final r |}
    | Ok (Failed e) =>
      match retries with
      | O =>
        Q {| out := Throw (HttpError match errors ++ [e] with
                                     | first :: others => mainError first others
                                     | [] => e
                                     end);
             emitted := emitted r ++ []; final := final r |}
      | S n =>
        wp (retry_from fn n (errors ++ [e])) w (h ++ emitted r) (final r) (fun r' =>
          Q {| out := out r'; emitted := emitted r ++ emitted r'; final := final r' |})
      end
    | Throw e => Q {| out := Throw e; emitted := emitted r; final := final r |}
    | Pending => Q {| out := Pending; emitted := emitted r; final := final r |}
    end) ->
  wp (retry_from fn retries errors) w h s Q.
Proof.
  intros H. destruct retries; simpl retry_from; apply wp_bind; unfold wp in *;
    destruct (out (fn w h s)) as [[a|e|e]| |]; try exact H.
  - destruct (errors ++ [e]); exact H.
Qed.

Lemma wp_release_attempt c version isPreRelease changelog w h s Q :
  match w_create w h (gh_target c) (create_request_of c version isPreRelease changelog) with
  | NetOk data =>
    Q {| out := Ok (Resolved (Some data));
         emitted :=
           [EvCreateRelease (gh_target c)
              (create_request_of c version isPreRelease changelog) (NetOk data);
            EvLog Lverbose
              ("octokit releases#createRelease: done (" ++ to_string (rd_location data)
               ++ " " ++ to_string (rd_tag_name data) ++ " " ++ dquote
               ++ to_string (rd_name data) ++ dquote ++ ")")];
         final := set_gh (gh_target c)
                    {| gh_version := version; gh_releaseUrl := rd_html_url data;
                       gh_uploadUrl := rd_upload_url data; gh_isReleased := VBool true |} s |}
  | NetErr err =>
    if no_retry (he_status err)
    then Q {| out := Ok (Bailed (GithubClientError (parseErrorMessage err)));
              emitted := [EvCreateRelease (gh_target c)
                            (create_request_of c version isPreRelease changelog) (NetErr err)];
              final := s |}
    else Q {| out := Ok (Failed err);
              emitted := [EvCreateRelease (gh_target c)
                            (create_request_of c version isPreRelease changelog) (NetErr err);
                          EvLog Lwarn (parseErrorMessage err)];
              final := s |}
  end ->
  wp (release_attempt c version isPreRelease changelog) w h s Q.
Proof.
  intros H. unfold release_attempt. wp_steps. revert H.
  destruct (w_create w h (gh_target c) _) as [data|err]; intros H.
  - wp_steps. exact H.
  - destruct (no_retry (he_status err)); wp_steps; exact H.
Qed.

Lemma wp_upload_attempt c req w h s Q :
  match w_upload w h (gh_target c) req with
  | NetOk data =>
    Q {| out := Ok (Resolved data);
         emitted :=
           [EvUploadAsset (gh_target c) req (NetOk data);
            EvLog Lverbose ("octokit releases#uploadAsset: done ("
                            ++ to_string (ad_browser_download_url data) ++ ")")];
         final := s |}
  | NetErr err =>
    if no_retry (he_status err)
    then Q {| out := Ok (Bailed (GithubClientError (parseErrorMessage err)));
              emitted := [EvUploadAsset (gh_target c) req (NetErr err)];
              final := s |}
    else Q {| out := Ok (Failed err);
              emitted := [EvUploadAsset (gh_target c) req (NetErr err);
                          EvLog Lwarn (parseErrorMessage err)];
              final := s |}
  end ->
  wp (upload_attempt c req) w h s Q.
Proof.
  intros H. unfold upload_attempt. wp_steps. revert H.
  destruct (w_upload w h (gh_target c) _) as [data|err]; intros H.
  - wp_steps. exact H.
  - destruct (no_retry (he_status err)); wp_steps; exact H.
Qed.

End RetryProperties.

(** ** The retry policy of the release client *)

Ltac policy_leaf :=
  unfold follows_retry_policy;
  cbn [out emitted final app count is_create is_upload Nat.add];
  split; [lia|];
  split; [let H := fresh in intros ? H; first [discriminate H | cbn; lia]|];
  let pre := fresh "pre" in
  let e := fresh "e" in
  let err := fresh "err" in
  let post := fresh "post" in
  let Hs := fresh "Hs" in
  let Hf := fresh "Hf" in
  intros pre e err post Hs Hf;
  split_trace Hs; simplify_eq/=;
  repeat match goal with
         | H : no_retry _ = _ |- _ => rewrite H
         end;
  eauto 10.

Section RetryPolicy.
Context `{Ext : Externals}.

Lemma release_follows_policy c version isPreRelease changelog w h s :
  truthy (prop (gh_options c) "isDryRun") = false ->
  let r := GitHub_release c version isPreRelease changelog w h s in
  follows_retry_policy is_create failed_create r /\ 1 <= count is_create (emitted r).
Proof.
  intros Hdry r. subst r.
  change (wp (GitHub_release c version isPreRelease changelog) w h s
            (fun r => follows_retry_policy is_create failed_create r
                      /\ 1 <= count is_create (emitted r))).
  unfold GitHub_release. wp_steps. rewrite Hdry. unfold retry.
  apply wp_retry_from, wp_release_attempt.
  destruct (w_create _ _ _ _) as [d1|e1]; wp_red.
  { split; [policy_leaf | cbn; lia]. }
  destruct (no_retry (he_status e1)) eqn:N1; wp_red.
  { split; [policy_leaf | cbn; lia]. }
  apply wp_retry_from, wp_release_attempt.
  destruct (w_create _ _ _ _) as [d2|e2]; wp_red.
  { split; [policy_leaf | cbn; lia]. }
  destruct (no_retry (he_status e2)) eqn:N2; wp_red.
  { split; [policy_leaf | cbn; lia]. }
  apply wp_retry_from, wp_release_attempt.
  destruct (w_create _ _ _ _) as [d3|e3]; wp_red.
  { split; [policy_leaf | cbn; lia]. }
  destruct (no_retry (he_status e3)) eqn:N3; wp_red.
  { split; [policy_leaf | cbn; lia]. }
  split; [policy_leaf | cbn; lia].
Qed.

Lemma uploadAsset_follows_policy c filePath w h s :
  let r := GitHub_uploadAsset c filePath w h s in
  follows_retry_policy is_upload failed_upload r /\
  (forall size, w_stat w h filePath = Returned size -> 1 <= count is_upload (emitted r)).
Proof.
  intros r. subst r.
  change (wp (GitHub_uploadAsset c filePath) w h s
            (fun r => follows_retry_policy is_upload failed_upload r /\
                      (forall size, w_stat w h filePath = Returned size ->
                                    1 <= count is_upload (emitted r)))).
  unfold GitHub_uploadAsset. wp_steps. rewrite app_nil_r.
  destruct (w_stat w h filePath) as [size|rej] eqn:Hstat; wp_red.
  2:{ split; [policy_leaf | intros ? [=]]. }
  unfold retry.
  apply wp_retry_from, wp_upload_attempt.
  destruct (w_upload _ _ _ _) as [d1|e1]; wp_red.
  { split; [policy_leaf | cbn; intros; lia]. }
  destruct (no_retry (he_status e1)) eqn:N1; wp_red.
  { split; [policy_leaf | cbn; intros; lia]. }
  apply wp_retry_from, wp_upload_attempt.
  destruct (w_upload _ _ _ _) as [d2|e2]; wp_red.
  { split; [policy_leaf | cbn; intros; lia]. }
  destruct (no_retry (he_status e2)) eqn:N2; wp_red.
  { split; [policy_leaf | cbn; intros; lia]. }
  apply wp_retry_from, wp_upload_attempt.
  destruct (w_upload _ _ _ _) as [d3|e3]; wp_red.
  { split; [policy_leaf | cbn; intros; lia]. }
  destruct (no_retry (he_status e3)) eqn:N3; wp_red.
  { split; [policy_leaf | cbn; intros; lia]. }
  split; [policy_leaf | cbn; intros; lia].
Qed.

Lemma release_exactly_once c version isPreRelease changelog w h s err :
  truthy (prop (gh_options c) "isDryRun") = false ->
  w_create w (h ++ [EvLog Lexec "octokit releases#createRelease"]) (gh_target c)
           (create_request_of c version isPreRelease (or_default changelog (VStr EmptyString)))
  = NetErr err ->
  no_retry (he_status err) = true ->
  let r := GitHub_release c version isPreRelease changelog w h s in
  count is_create (emitted r) = 1 /\
  count (fun e => match e with EvLog Lwarn _ => true | _ => false end) (emitted r) = 0 /\
  out r = Throw (GithubClientError (parseErrorMessage err)).
Proof.
  intros Hdry Hnet Hno r. subst r.
  change (wp (GitHub_release c version isPreRelease changelog) w h s
            (fun r => count is_create (emitted r) = 1 /\
                      count (fun e => match e with EvLog Lwarn _ => true | _ => false end)
                            (emitted r) = 0 /\
                      out r = Throw (GithubClientError (parseErrorMessage err)))).
  unfold GitHub_release. wp_steps. rewrite Hdry. unfold retry.
  apply wp_retry_from, wp_release_attempt. rewrite Hnet, Hno. wp_red.
  repeat split; reflexivity.
Qed.

Lemma uploadAsset_exactly_once c filePath w h s size err :
  w_stat w h filePath = Returned size ->
  w_upload w (h ++ [EvStat filePath (Returned size)]) (gh_target c)
           (upload_request_of (gh_uploadUrl (gh_of (gh_target c) s)) filePath size)
  = NetErr err ->
  no_retry (he_status err) = true ->
  let r := GitHub_uploadAsset c filePath w h s in
  count is_upload (emitted r) = 1 /\
  count (fun e => match e with EvLog Lwarn _ => true | _ => false end) (emitted r) = 0 /\
  out r = Throw (GithubClientError (parseErrorMessage err)).
Proof.
  intros Hstat Hnet Hno r. subst r.
  change (wp (GitHub_uploadAsset c filePath) w h s
            (fun r => count is_upload (emitted r) = 1 /\
                      count (fun e => match e with EvLog Lwarn _ => true | _ => false end)
                            (emitted r) = 0 /\
                      out r = Throw (GithubClientError (parseErrorMessage err)))).
  unfold GitHub_uploadAsset. wp_steps. rewrite app_nil_r, Hstat. wp_red. unfold retry.
  apply wp_retry_from, wp_upload_attempt. rewrite Hnet, Hno. wp_red.
  repeat split; reflexivity.
Qed.

(** C1. In a release that is not a dry run, and in the upload of an
    asset: there are at most three calls to the API (and at least one,
    once the upload has read the size of the file); a call that fails
    with status 400, 401, 404 or 422 ends the run at once, in a client
    error that carries the parsed status and message, so that a first
    call failing so is the only one and no warning is logged; a call
    that fails otherwise is followed by a warning with the parsed
    message and, when fewer than two calls came before it, by another
    call, and otherwise by the end of the run in failure; a run ends in
    the failure of the API only after three calls. *)
Theorem C1_retry_policy (c : gh_client) (w : world) (h : list event) (s : store) :
  (forall version isPreRelease changelog,
      truthy (prop (gh_options c) "isDryRun") = false ->
      let r := GitHub_release c version isPreRelease changelog w h s in
      follows_retry_policy is_create failed_create r /\
      1 <= count is_create (emitted r) /\
      (forall err,
          w_create w (h ++ [EvLog Lexec "octokit releases#createRelease"]) (gh_target c)
            (create_request_of c version isPreRelease
               (or_default changelog (VStr EmptyString))) = NetErr err ->
          no_retry (he_status err) = true ->
          count is_create (emitted r) = 1 /\
          count (fun e => match e with EvLog Lwarn _ => true | _ => false end) (emitted r) = 0 /\
          out r = Throw (GithubClientError (parseErrorMessage err)))) /\
  (forall filePath,
      let r := GitHub_uploadAsset c filePath w h s in
      follows_retry_policy is_upload failed_upload r /\
      (forall size,
          w_stat w h filePath = Returned size ->
          1 <= count is_upload (emitted r) /\
          forall err,
            w_upload w (h ++ [EvStat filePath (Returned size)]) (gh_target c)
              (upload_request_of (gh_uploadUrl (gh_of (gh_target c) s)) filePath size)
            = NetErr err ->
            no_retry (he_status err) = true ->
            count is_upload (emitted r) = 1 /\
            count (fun e => match e with EvLog Lwarn _ => true | _ => false end) (emitted r) = 0 /\
            out r = Throw (GithubClientError (parseErrorMessage err)))).
Proof.
  split.
  - intros version isPreRelease changelog Hdry r.
    destruct (release_follows_policy c version isPreRelease changelog w h s Hdry) as [H1 H2].
    split; [exact H1 | split; [exact H2 |]].
    intros err Hnet Hno.
    exact (release_exactly_once c version isPreRelease changelog w h s err Hdry Hnet Hno).
  - intros filePath r.
    destruct (uploadAsset_follows_policy c filePath w h s) as [H1 H2].
    split; [exact H1 |]. intros size Hstat. split; [exact (H2 size Hstat) |].
    intros err Hnet Hno.
    exact (uploadAsset_exactly_once c filePath w h s size err Hstat Hnet Hno).
Qed.

End RetryPolicy.

(** ** Strings *)

Lemma append_assoc (a b c : string) : ((a ++ b) ++ c = a ++ (b ++ c))%string.
Proof.
  induction a as [|x a IH]; [reflexivity|].
  change (String x ((a ++ b) ++ c)%string = String x (a ++ (b ++ c))%string).
  now rewrite IH.
Qed.

(** ** One-time passcodes *)

Section Publish.
Context `{Ext : Externals}.

Lemma wp_otpPrompt (task : value -> M unit) w h s Q :
  wp (task (w_prompt w h "otp")) w (h ++ [EvPrompt "otp" (w_prompt w h "otp")]) s
     (fun r' => Q {| out := out r';
                     emitted := [EvPrompt "otp" (w_prompt w h "otp")] ++ emitted r';
                     final := final r' |}) ->
  wp (otpPrompt task) w h s Q.
Proof.
  intros H. unfold otpPrompt, prompt. cbn [truthy]. wp_steps. exact H.
Qed.

Lemma publish_success fuel c a name w h s v :
  prop (npm_options c) "name" = VStr name ->
  w_shell w h (publish_op c name a) = Returned v ->
  publish (S fuel) c a w h s =
  {| out := Ok tt; emitted := [EvShell (publish_op c name a) (Returned v)];
     final := set_published (npm_target c) (VBool true) s |}.
Proof.
  intros Hname Hsh.
  change (wp (publish (S fuel) c a) w h s (fun r => r =
    {| out := Ok tt; emitted := [EvShell (publish_op c name a) (Returned v)];
       final := set_published (npm_target c) (VBool true) s |})).
  cbn [publish]. rewrite Hname. wp_steps.
  fold (effective_tag c a) (effective_otp c a) (publish_op c name a).
  rewrite Hsh. wp_red. wp_steps. reflexivity.
Qed.

Lemma publish_other_failure fuel c a name w h s r :
  prop (npm_options c) "name" = VStr name ->
  w_shell w h (publish_op c name a) = Raised r ->
  is_otp_error r = false ->
  publish (S fuel) c a w h s =
  {| out := Throw (Rejected r); emitted := [EvShell (publish_op c name a) (Raised r)];
     final := s |}.
Proof.
  intros Hname Hsh Hotp.
  change (wp (publish (S fuel) c a) w h s (fun r' => r' =
    {| out := Throw (Rejected r); emitted := [EvShell (publish_op c name a) (Raised r)];
       final := s |})).
  cbn [publish]. rewrite Hname. wp_steps.
  fold (effective_tag c a) (effective_otp c a) (publish_op c name a).
  rewrite Hsh. wp_red. rewrite Hotp. wp_steps. reflexivity.
Qed.

Lemma publish_otp_failure_no_prompt fuel c a name w h s r :
  prop (npm_options c) "name" = VStr name ->
  w_shell w h (publish_op c name a) = Raised r ->
  is_otp_error r = true ->
  truthy (prop (npm_options c) "isInteractive") = false \/ pa_otpPrompt a = None ->
  publish (S fuel) c a w h s =
  {| out := Throw (Rejected r);
     emitted := EvShell (publish_op c name a) (Raised r)
                :: (if not_nullish (effective_otp c a) then otp_warning else []);
     final := s |}.
Proof.
  intros Hname Hsh Hotp Hno.
  change (wp (publish (S fuel) c a) w h s (fun r' => r' =
    {| out := Throw (Rejected r);
       emitted := EvShell (publish_op c name a) (Raised r)
                  :: (if not_nullish (effective_otp c a) then otp_warning else []);
       final := s |})).
  cbn [publish]. rewrite Hname. wp_steps.
  fold (effective_tag c a) (effective_otp c a) (publish_op c name a).
  rewrite Hsh. wp_red. rewrite Hotp. wp_step.
  destruct (not_nullish (effective_otp c a)); wp_steps;
    (destruct (pa_otpPrompt a) as [p|];
     [destruct Hno as [Hno|Hno]; [rewrite Hno | discriminate Hno] |]);
    wp_steps; reflexivity.
Qed.

Lemma publish_otp_retry fuel c a name w h s r :
  prop (npm_options c) "name" = VStr name ->
  w_shell w h (publish_op c name a) = Raised r ->
  is_otp_error r = true ->
  truthy (prop (npm_options c) "isInteractive") = true ->
  pa_otpPrompt a = Some otpPrompt ->
  let before :=
    EvShell (publish_op c name a) (Raised r)
    :: (if not_nullish (effective_otp c a) then otp_warning else []) in
  let answer := w_prompt w (h ++ before) "otp" in
  let again :=
    publish fuel c (retry_args c a answer) w (h ++ before ++ [EvPrompt "otp" answer]) s in
  publish (S fuel) c a w h s =
  {| out := out again;
     emitted := before ++ [EvPrompt "otp" answer] ++ emitted again;
     final := final again |}.
Proof.
  intros Hname Hsh Hotp Hint Hp before answer again. subst before answer again.
  match goal with |- _ = ?R => change (wp (publish (S fuel) c a) w h s (fun r' => r' = R)) end.
  cbn [publish]. rewrite Hname. wp_steps.
  fold (effective_tag c a) (effective_otp c a) (publish_op c name a).
  rewrite Hsh. wp_red. rewrite Hotp. wp_step. unfold retry_args. rewrite Hp, Hint.
  destruct (not_nullish (effective_otp c a)); wp_steps;
    apply wp_otpPrompt; unfold wp, otp_warning; cbn [app];
    rewrite <- ?app_assoc; cbn [app]; reflexivity.
Qed.

(** Every call of the publish command but the first follows one
    question to the operator. *)
Lemma publish_counts fuel : forall c a name w h s,
  prop (npm_options c) "name" = VStr name ->
  pa_otpPrompt a = Some otpPrompt ->
  let r := publish fuel c a w h s in
  out r <> Pending ->
  count is_publish_run (emitted r) = S (count is_prompt (emitted r)) /\
  count is_otp_prompt (emitted r) = count is_prompt (emitted r).
Proof.
  induction fuel as [|fuel IH]; intros c a name w h s Hname Hp r Hout; subst r.
  - now contradict Hout.
  - destruct (w_shell w h (publish_op c name a)) as [v|r] eqn:Hsh.
    + rewrite (publish_success fuel c a name w h s v Hname Hsh). split; reflexivity.
    + destruct (is_otp_error r) eqn:Hotp.
      * destruct (truthy (prop (npm_options c) "isInteractive")) eqn:Hint.
        -- rewrite (publish_otp_retry fuel c a name w h s r Hname Hsh Hotp Hint Hp) in Hout |- *.
           cbn [out emitted final] in Hout |- *.
           specialize (IH c (retry_args c a
                             (w_prompt w (h ++ EvShell (publish_op c name a) (Raised r)
                                :: (if not_nullish (effective_otp c a)
                                    then otp_warning else [])) "otp")) name w
                          (h ++ (EvShell (publish_op c name a) (Raised r)
                                 :: (if not_nullish (effective_otp c a)
                                     then otp_warning else []))
                             ++ [EvPrompt "otp"
                                   (w_prompt w (h ++ EvShell (publish_op c name a) (Raised r)
                                      :: (if not_nullish (effective_otp c a)
                                          then otp_warning else [])) "otp")])
                          s Hname Hp Hout).
           destruct IH as [IH1 IH2].
           rewrite !count_app, IH1, IH2.
           destruct (not_nullish (effective_otp c a)); cbn; split; lia.
        -- rewrite (publish_otp_failure_no_prompt fuel c a name w h s r Hname Hsh Hotp
                      (or_introl Hint)).
           destruct (not_nullish (effective_otp c a)); split; reflexivity.
      * rewrite (publish_other_failure fuel c a name w h s r Hname Hsh Hotp).
        split; reflexivity.
Qed.

End Publish.

Section PublishClaims.
Context `{Ext : Externals}.

(** C3. A publish call has failed with the rejection [r]. If [r]
    speaks of a one-time passcode, the session is interactive and the
    pipeline's passcode prompt is at hand, the client warns (when a
    passcode had been given), asks the operator once, and calls publish
    again with the answer: the run is the failed call, the warning, the
    question, and then the run of that one new call. If [r] speaks of a
    one-time passcode but the session is not interactive (or there is no
    prompt), the run fails with [r] and nothing is asked. Any other [r]
    is thrown as it is, after the single call. And in every run that
    ends, the publish command was called once more than the operator
    was asked. *)
Theorem C3_otp_flow (fuel : nat) (c : npm_client) (a : publish_args) (name : string)
        (w : world) (h : list event) (s : store) (r : rejection) :
  prop (npm_options c) "name" = VStr name ->
  w_shell w h (publish_op c name a) = Raised r ->
  let this := publish (S fuel) c a w h s in
  (is_otp_error r = true ->
   truthy (prop (npm_options c) "isInteractive") = true ->
   pa_otpPrompt a = Some otpPrompt ->
   let before :=
     EvShell (publish_op c name a) (Raised r)
     :: (if not_nullish (effective_otp c a) then otp_warning else []) in
   let answer := w_prompt w (h ++ before) "otp" in
   let again :=
     publish fuel c (retry_args c a answer) w (h ++ before ++ [EvPrompt "otp" answer]) s in
   this = {| out := out again;
             emitted := before ++ [EvPrompt "otp" answer] ++ emitted again;
             final := final again |}) /\
  (is_otp_error r = true ->
   truthy (prop (npm_options c) "isInteractive") = false \/ pa_otpPrompt a = None ->
   out this = Throw (Rejected r) /\
   emitted this = EvShell (publish_op c name a) (Raised r)
                  :: (if not_nullish (effective_otp c a) then otp_warning else []) /\
   count is_prompt (emitted this) = 0 /\
   final this = s) /\
  (is_otp_error r = false ->
   this = {| out := Throw (Rejected r);
             emitted := [EvShell (publish_op c name a) (Raised r)];
             final := s |}) /\
  (pa_otpPrompt a = Some otpPrompt ->
   out this <> Pending ->
   count is_publish_run (emitted this) = S (count is_prompt (emitted this))).
Proof.
  intros Hname Hsh this. subst this. split; [|split; [|split]].
  - intros Hotp Hint Hp. now apply publish_otp_retry.
  - intros Hotp Hno.
    rewrite (publish_otp_failure_no_prompt fuel c a name w h s r Hname Hsh Hotp Hno).
    cbn [out emitted final]. repeat split.
    destruct (not_nullish (effective_otp c a)); reflexivity.
  - intros Hotp. now apply publish_other_failure.
  - intros Hp Hout.
    exact (proj1 (publish_counts (S fuel) c a name w h s Hname Hp Hout)).
Qed.

End PublishClaims.

(** ** Dry runs, the token check, and the release URL *)

Section ClientClaims.
Context `{Ext : Externals}.

Lemma release_dry_run c version isPreRelease changelog w h s :
  truthy (prop (gh_options c) "isDryRun") = true ->
  GitHub_release c version isPreRelease changelog w h s =
  {| out := Ok None;
     emitted := [EvLog Lexec "octokit releases#createRelease"; EvLog Ldry EmptyString];
     final := s |}.
Proof.
  intros Hdry.
  match goal with |- ?m w h s = ?R => change (wp m w h s (fun r => r = R)) end.
  unfold GitHub_release. wp_steps. rewrite Hdry. wp_steps. reflexivity.
Qed.

Lemma uploadAssets_dry_run c w h s :
  truthy (prop (gh_options c) "isDryRun") = true ->
  GitHub_uploadAssets c w h s =
  {| out := Ok None;
     emitted := if truthy (prop (gh_options c) "assets")
                then [EvLog Lexec "octokit releases#uploadAssets"; EvLog Ldry EmptyString]
                else [];
     final := s |}.
Proof.
  intros Hdry.
  match goal with |- ?m w h s = ?R => change (wp m w h s (fun r => r = R)) end.
  unfold GitHub_uploadAssets.
  destruct (truthy (prop (gh_options c) "assets")); cbn [negb].
  - wp_steps. rewrite Hdry. wp_steps. reflexivity.
  - wp_steps. reflexivity.
Qed.

Lemma publish_command_dry_run c name tag version isPreRelease otp :
  truthy (prop (npm_options c) "isDryRun") = true ->
  exists pre, publish_command c name tag version isPreRelease otp
              = (pre ++ " --dry-run")%string.
Proof.
  intros Hdry. unfold publish_command. rewrite Hdry.
  eexists. rewrite <- !append_assoc. rewrite (append_assoc _ " " "--dry-run"). reflexivity.
Qed.

(** C4, as amended. In a dry run, create-release and upload-assets
    contact nothing and succeed with no result, logging only what they
    would do, and they leave the state of the client as it was: nothing
    is marked as released. Publish in a dry run still calls the publish
    command, with the dry-run flag at the end of the command line, and
    marks the package as published when the command succeeds. *)
Theorem C4_dry_run (w : world) (h : list event) (s : store) :
  (forall c version isPreRelease changelog,
      truthy (prop (gh_options c) "isDryRun") = true ->
      let r := GitHub_release c version isPreRelease changelog w h s in
      out r = Ok None /\ count is_network (emitted r) = 0 /\ final r = s /\
      emitted r = [EvLog Lexec "octokit releases#createRelease"; EvLog Ldry EmptyString]) /\
  (forall c,
      truthy (prop (gh_options c) "isDryRun") = true ->
      let r := GitHub_uploadAssets c w h s in
      out r = Ok None /\ count is_network (emitted r) = 0 /\ final r = s) /\
  (forall fuel c a name,
      truthy (prop (npm_options c) "isDryRun") = true ->
      prop (npm_options c) "name" = VStr name ->
      let r := publish (S fuel) c a w h s in
      (exists pre rest,
          emitted r = EvShell (publish_op c name a) (w_shell w h (publish_op c name a)) :: rest /\
          publish_op c name a = SRun (pre ++ " --dry-run")%string (VBool true)
                                     (prop (npm_options c) "isDryRun")) /\
      (forall v, w_shell w h (publish_op c name a) = Returned v ->
                 out r = Ok tt /\ published_of (npm_target c) (final r) = VBool true)).
Proof.
  split; [|split].
  - intros c version isPreRelease changelog Hdry r. subst r.
    rewrite release_dry_run by assumption. repeat split.
  - intros c Hdry r. subst r. rewrite uploadAssets_dry_run by assumption.
    cbn [out emitted final]. destruct (truthy (prop (gh_options c) "assets")); repeat split.
  - intros fuel c a name Hdry Hname r. subst r. split.
    + destruct (publish_command_dry_run c name (effective_tag c a) (pa_version a)
                  (pa_isPreRelease a) (effective_otp c a) Hdry) as [pre Hpre].
      exists pre.
      assert (Hop : publish_op c name a
                    = SRun (pre ++ " --dry-run")%string (VBool true)
                           (prop (npm_options c) "isDryRun")).
      { unfold publish_op. rewrite Hpre. reflexivity. }
      destruct (w_shell w h (publish_op c name a)) as [v|r] eqn:Hsh.
      * rewrite (publish_success fuel c a name w h s v Hname Hsh). eexists. split; [reflexivity|exact Hop].
      * destruct (is_otp_error r) eqn:Hotp.
        -- destruct (pa_otpPrompt a) as [p|] eqn:Hp.
           2:{ rewrite (publish_otp_failure_no_prompt fuel c a name w h s r Hname Hsh Hotp
                          (or_intror Hp)).
               eexists. split; [reflexivity|exact Hop]. }
           destruct (truthy (prop (npm_options c) "isInteractive")) eqn:Hint.
           2:{ rewrite (publish_otp_failure_no_prompt fuel c a name w h s r Hname Hsh Hotp
                          (or_introl Hint)).
               eexists. split; [reflexivity|exact Hop]. }
           change (wp (publish (S fuel) c a) w h s (fun r' =>
             exists rest, emitted r' = EvShell (publish_op c name a) (Raised r) :: rest /\
               publish_op c name a = SRun (pre ++ " --dry-run")%string (VBool true)
                                          (prop (npm_options c) "isDryRun"))).
           cbn [publish]. rewrite Hname. wp_steps.
           fold (effective_tag c a) (effective_otp c a) (publish_op c name a).
           rewrite Hsh. wp_red. unfold wp. cbn [app]. eexists. split; [reflexivity|exact Hop].
        -- rewrite (publish_other_failure fuel c a name w h s r Hname Hsh Hotp).
           eexists. split; [reflexivity|exact Hop].
    + intros v Hsh. rewrite (publish_success fuel c a name w h s v Hname Hsh).
      cbn [out final]. split; [reflexivity|]. now destruct (npm_target c).
Qed.






Lemma truthy_fallback c g : truthy (VStr (getReleaseUrlFallback c g)) = true.
Proof. reflexivity. Qed.

(** C10. [getReleaseUrl] is a function of the client and its state
    alone. It gives the URL recorded by create-release when there is
    one, and otherwise the URL made of the host and path of the
    repository and of the tag name formatted with the stored version;
    it always gives a value that is not empty. After a create-release
    that succeeded at its first call, the recorded URL and version are
    those of the answer and of the call. *)
Theorem C10_release_url (c : gh_client) (g : gh_state) :
  (truthy (gh_releaseUrl g) = true -> getReleaseUrl c g = gh_releaseUrl g) /\
  (truthy (gh_releaseUrl g) = false ->
   getReleaseUrl c g =
   VStr ("https://" ++ to_string (repo_host (gh_repo c)) ++ "/"
         ++ to_string (repo_repository (gh_repo c)) ++ "/releases/tag/"
         ++ format (prop (gh_options c) "tagName") (gh_version g))) /\
  truthy (getReleaseUrl c g) = true /\
  (forall version isPreRelease changelog w h s data,
      truthy (prop (gh_options c) "isDryRun") = false ->
      w_create w (h ++ [EvLog Lexec "octokit releases#createRelease"]) (gh_target c)
        (create_request_of c version isPreRelease (or_default changelog (VStr EmptyString)))
      = NetOk data ->
      let g' := gh_of (gh_target c) (final (GitHub_release c version isPreRelease changelog w h s)) in
      gh_releaseUrl g' = rd_html_url data /\ gh_version g' = version /\
      getReleaseUrl c g' =
      js_or (rd_html_url data) (VStr (getReleaseUrlFallback c g'))).
Proof.
  split; [|split; [|split]].
  - intros H. unfold getReleaseUrl, js_or. now rewrite H.
  - intros H. unfold getReleaseUrl, js_or. now rewrite H.
  - unfold getReleaseUrl, js_or. destruct (truthy (gh_releaseUrl g)) eqn:E; [exact E|].
    apply truthy_fallback.
  - intros version isPreRelease changelog w h s data Hdry Hnet g'. subst g'.
    assert (Hfin : final (GitHub_release c version isPreRelease changelog w h s)
                   = set_gh (gh_target c)
                       {| gh_version := version; gh_releaseUrl := rd_html_url data;
                          gh_uploadUrl := rd_upload_url data; gh_isReleased := VBool true |} s).
    { change (wp (GitHub_release c version isPreRelease changelog) w h s (fun r =>
                final r = set_gh (gh_target c)
                       {| gh_version := version; gh_releaseUrl := rd_html_url data;
                          gh_uploadUrl := rd_upload_url data; gh_isReleased := VBool true |} s)).
      unfold GitHub_release. wp_steps. rewrite Hdry. unfold retry.
      apply wp_retry_from, wp_release_attempt. rewrite Hnet. wp_red. reflexivity. }
    rewrite Hfin. destruct (gh_target c); cbn; repeat split.
Qed.

End ClientClaims.

(** ** What a computation can emit

    [emits P m]: every event of every run of [m] satisfies [P]. *)

Section Emits.
Context `{Ext : Externals}.
Variable P : event -> bool.

Lemma emits_ret {A} (a : A) : emits P (mret a).
Proof. intros w h s. constructor. Qed.

Lemma emits_throw {A} e : emits P (throw e : M A).
Proof. intros w h s. constructor. Qed.

Lemma emits_pending {A} : emits P (pending : M A).
Proof. intros w h s. constructor. Qed.

Lemma emits_modify f : emits P (modify f).
Proof. intros w h s. constructor. Qed.

Lemma emits_get_store : emits P get_store.
Proof. intros w h s. constructor. Qed.

Lemma emits_get_world : emits P get_world.
Proof. intros w h s. constructor. Qed.

Lemma emits_git_prop t name : emits P (git_prop t name).
Proof. intros w h s. constructor. Qed.

Lemma emits_isPreRelease : emits P Version_isPreRelease.
Proof. intros w h s. constructor. Qed.

Lemma emits_emit e : P e = true -> emits P (emit e).
Proof. intros H w h s. repeat constructor. exact H. Qed.

Lemma emits_log l msg : P (EvLog l msg) = true -> emits P (log l msg).
Proof. apply emits_emit. Qed.

Lemma emits_git t op : (forall r, P (EvGit t op r) = true) -> emits P (git t op).
Proof. intros H w h s. repeat constructor. apply H. Qed.

Lemma emits_shell op : (forall r, P (EvShell op r) = true) -> emits P (shell op).
Proof. intros H w h s. repeat constructor. apply H. Qed.

Lemma emits_createRelease t req :
  (forall r, P (EvCreateRelease t req r) = true) -> emits P (createRelease t req).
Proof. intros H w h s. repeat constructor. apply H. Qed.

Lemma emits_uploadReleaseAsset t req :
  (forall r, P (EvUploadAsset t req r) = true) -> emits P (uploadReleaseAsset t req).
Proof. intros H w h s. repeat constructor. apply H. Qed.

Lemma emits_globby assets :
  (forall r, P (EvGlobby assets r) = true) -> emits P (globby assets).
Proof. intros H w h s. repeat constructor. apply H. Qed.

Lemma emits_statSize path :
  (forall r, P (EvStat path r) = true) -> emits P (statSize path).
Proof. intros H w h s. repeat constructor. apply H. Qed.

Lemma emits_inquire name :
  (forall r, P (EvPrompt name r) = true) -> emits P (inquire name).
Proof. intros H w h s. repeat constructor. apply H. Qed.

Lemma emits_Version_bump i p :
  (forall r, P (EvBump i p r) = true) -> emits P (Version_bump i p).
Proof.
  intros H w h s. unfold Version_bump.
  destruct (w_bump w h i p) eqn:E; cbn; repeat constructor; rewrite <- E; apply H.
Qed.

Lemma emits_bind {A B} (m : M A) (f : A -> M B) :
  emits P m -> (forall a, emits P (f a)) -> emits P (m ≫= f).
Proof.
  intros Hm Hf w h s. rewrite run_bind. specialize (Hm w h s).
  destruct (out (m w h s)); cbn; try exact Hm.
  apply Forall_app. split; [exact Hm | apply Hf].
Qed.

Lemma emits_catch {A} (m : M A) handler :
  emits P m -> (forall e, emits P (handler e)) -> emits P (catch m handler).
Proof.
  intros Hm Hf w h s. rewrite run_catch. specialize (Hm w h s).
  destruct (out (m w h s)); cbn; try exact Hm.
  apply Forall_app. split; [exact Hm | apply Hf].
Qed.

Lemma emits_void {A} (m : M A) : emits P m -> emits P (void m).
Proof. intros H. apply emits_bind; [exact H | intros; apply emits_ret]. Qed.

Lemma emits_show gate task : emits P task -> emits P (show gate task).
Proof. intros H. unfold show. destruct (truthy gate); [exact H | apply emits_ret]. Qed.

Lemma emits_prompt gate name task :
  (forall r, P (EvPrompt name r) = true) ->
  (forall a, emits P (task a)) ->
  emits P (prompt gate name task).
Proof.
  intros Hp Ht. unfold prompt. destruct (truthy gate); [|apply emits_ret].
  apply emits_bind; [now apply emits_inquire|]. intros a.
  destruct (bool_decide _); [destruct (truthy a)|]; auto using emits_ret.
Qed.

Lemma emits_retry_from {A} (fn : M (attempt A)) n errors :
  emits P fn -> emits P (retry_from fn n errors).
Proof.
  intros Hfn. revert errors. induction n as [|n IH]; intros errors; simpl retry_from;
    (apply emits_bind; [exact Hfn|]); intros [a|e|e];
    auto using emits_ret, emits_throw.
  destruct (errors ++ [e]); apply emits_throw.
Qed.

Lemma emits_Version_validate :
  (forall v, P (EvValidate v) = true) -> emits P Version_validate.
Proof.
  intros H. unfold Version_validate.
  apply emits_bind; [apply emits_get_store|]. intros s.
  apply emits_bind; [now apply emits_emit|]. intros _.
  destruct (truthy (st_version s)); auto using emits_ret, emits_throw.
Qed.

Lemma emits_GitHub_validate c : emits P (GitHub_validate c).
Proof.
  unfold GitHub_validate. destruct (negb _); [apply emits_ret|].
  apply emits_bind; [apply emits_get_world|]. intros w.
  destruct (negb _); auto using emits_ret, emits_throw.
Qed.

(** The release client emits only log entries, API calls, the file
    listing and the file sizes. *)
Hypothesis P_log : forall l msg, l <> Lexec -> P (EvLog l msg) = true.

Lemma emits_GitHub_release c version isPreRelease changelog :
  P (EvLog Lexec "octokit releases#createRelease") = true ->
  (forall t req r, P (EvCreateRelease t req r) = true) ->
  emits P (GitHub_release c version isPreRelease changelog).
Proof.
  intros He Hc. unfold GitHub_release.
  apply emits_bind; [(apply emits_log; first [assumption | now apply P_log])|]. intros _.
  destruct (truthy _).
  - apply emits_bind; [(apply emits_log; first [assumption | now apply P_log]) | intros; apply emits_ret].
  - apply emits_retry_from. unfold release_attempt.
    apply emits_bind; [now apply emits_createRelease|]. intros [d|e].
    + repeat (apply emits_bind; [|intros]);
        auto using emits_log, emits_modify, emits_ret.
    + destruct (no_retry _); [apply emits_ret|].
      apply emits_bind; [(apply emits_log; first [assumption | now apply P_log]) | intros; apply emits_ret].
Qed.

Lemma emits_upload_attempt c req :
  (forall t req r, P (EvUploadAsset t req r) = true) ->
  emits P (upload_attempt c req).
Proof.
  intros Hu. unfold upload_attempt.
  apply emits_bind; [now apply emits_uploadReleaseAsset|]. intros [d|e].
  - apply emits_bind; [(apply emits_log; first [assumption | now apply P_log]) | intros; apply emits_ret].
  - destruct (no_retry _); [apply emits_ret|].
    apply emits_bind; [(apply emits_log; first [assumption | now apply P_log]) | intros; apply emits_ret].
Qed.

Lemma emits_GitHub_uploadAsset c filePath :
  (forall t req r, P (EvUploadAsset t req r) = true) ->
  (forall path r, P (EvStat path r) = true) ->
  emits P (GitHub_uploadAsset c filePath).
Proof.
  intros Hu Hs. unfold GitHub_uploadAsset.
  apply emits_bind; [apply emits_get_store|]. intros s.
  apply emits_bind; [now apply emits_statSize|]. intros size.
  apply emits_retry_from. now apply emits_upload_attempt.
Qed.

Lemma emits_files_map c files :
  (forall path r, P (EvStat path r) = true) ->
  emits P (files_map c files).
Proof.
  intros Hs. induction files as [|f files IH]; cbn [files_map]; [apply emits_ret|].
  apply emits_bind.
  { unfold uploadAsset_request.
    apply emits_bind; [apply emits_get_store|]. intros s.
    apply emits_bind; [now apply emits_statSize | intros; apply emits_ret]. }
  intros req. apply emits_bind; [exact IH | intros; apply emits_ret].
Qed.

Lemma emits_promise_all c fuel : forall ups,
  (forall t req r, P (EvUploadAsset t req r) = true) ->
  emits P (promise_all c fuel ups).
Proof.
  induction fuel as [|fuel IH]; intros ups Hu w h s; cbn [promise_all].
  - destruct (waiting ups); constructor.
  - destruct (waiting ups) as [|r0 reqs]; [constructor|].
    destruct (select _ ups) as [[[before [[req retries] errors]] after]|]; [|constructor].
    apply emits_bind; [now apply emits_upload_attempt|].
    intros [d|e|e]; [now apply IH | apply emits_throw |].
    destruct retries; [destruct (errors ++ [e]); apply emits_throw | now apply IH].
Qed.

Lemma emits_upload_all c files :
  (forall t req r, P (EvUploadAsset t req r) = true) ->
  (forall path r, P (EvStat path r) = true) ->
  emits P (upload_all c files).
Proof.
  intros Hu Hs. unfold upload_all.
  apply emits_bind; [now apply emits_files_map | intros; now apply emits_promise_all].
Qed.

Lemma emits_GitHub_uploadAssets c :
  P (EvLog Lexec "octokit releases#uploadAssets") = true ->
  (forall t req r, P (EvUploadAsset t req r) = true) ->
  (forall path r, P (EvStat path r) = true) ->
  (forall assets r, P (EvGlobby assets r) = true) ->
  emits P (GitHub_uploadAssets c).
Proof.
  intros He Hu Hs Hg. unfold GitHub_uploadAssets.
  destruct (negb _); [apply emits_ret|].
  apply emits_bind; [(apply emits_log; first [assumption | now apply P_log])|]. intros _.
  destruct (truthy _).
  - apply emits_bind; [(apply emits_log; first [assumption | now apply P_log]) | intros; apply emits_ret].
  - apply emits_bind; [now apply emits_globby|]. intros files.
    apply emits_bind.
    { destruct (Nat.eqb _ _); [(apply emits_log; first [assumption | now apply P_log]) | apply emits_ret]. }
    intros _. apply emits_bind; [|intros; apply emits_ret].
    now apply emits_upload_all.
Qed.

Lemma emits_publish fuel : forall c a,
  (forall cmd ro v r, P (EvShell (SRun cmd ro v) r) = true) ->
  (forall r, P (EvPrompt "otp" r) = true) ->
  pa_otpPrompt a = Some otpPrompt \/ pa_otpPrompt a = None ->
  emits P (publish fuel c a).
Proof.
  induction fuel as [|fuel IH]; intros c a Hsh Hp Ha; cbn [publish];
    [apply emits_pending|].
  destruct (prop (npm_options c) "name"); try apply emits_throw.
  apply emits_catch.
  - apply emits_bind; [now apply emits_shell | intros; apply emits_modify].
  - intros [r| | | | |]; try apply emits_throw.
    destruct (is_otp_error r); [|apply emits_throw].
    apply emits_bind.
    { destruct (not_nullish _); [(apply emits_log; first [assumption | now apply P_log]) | apply emits_ret]. }
    intros _. destruct Ha as [-> | ->]; [|apply emits_throw].
    destruct (truthy _); [|apply emits_throw].
    unfold otpPrompt at 1. apply emits_prompt; [exact Hp|].
    intros otp'. apply IH; auto.
Qed.

End Emits.

(** ** The step group *)

(** ** Uploads under way together *)

Lemma select_spec k : forall ups before req retries errors after,
  select k ups = Some (before, (req, retries, errors), after) ->
  ups = before ++ InFlight req retries errors :: after.
Proof.
  intros ups. revert k. induction ups as [|u ups IH]; intros k b req n es a; [discriminate|].
  cbn [select]. destruct u as [req0 n0 es0|d0].
  - destruct k as [|k].
    + intros [= <- <- <- <- <-]. reflexivity.
    + destruct (select k ups) as [[[b' [[req' n'] es']] a']|] eqn:E; [|discriminate].
      intros [= <- <- <- <- <-]. cbn [app]. f_equal. exact (IH k _ _ _ _ _ E).
  - destruct (select k ups) as [[[b' [[req' n'] es']] a']|] eqn:E; [|discriminate].
    intros [= <- <- <- <- <-]. cbn [app]. f_equal. exact (IH k _ _ _ _ _ E).
Qed.

Lemma waiting_cons u ups :
  waiting (u :: ups) = match u with
                       | InFlight req _ _ => req :: waiting ups
                       | Uploaded _ => waiting ups
                       end.
Proof. now destruct u. Qed.

Lemma answers_cons u ups :
  answers (u :: ups) = match u with
                       | InFlight _ _ _ => answers ups
                       | Uploaded d => d :: answers ups
                       end.
Proof. now destruct u. Qed.

Lemma budget_cons u ups :
  budget (u :: ups) = match u with
                      | InFlight _ retries _ => S retries + budget ups
                      | Uploaded _ => budget ups
                      end.
Proof. now destruct u. Qed.

Lemma select_some ups : forall k, k < length (waiting ups) -> exists z, select k ups = Some z.
Proof.
  induction ups as [|u ups IH]; intros k Hk; [cbn in Hk; lia|].
  rewrite waiting_cons in Hk. cbn [select]. destruct u as [req n es|d].
  - destruct k as [|k]; [now eexists|].
    cbn [length] in Hk. destruct (IH k ltac:(lia)) as [[[b x] a] ->]. now eexists.
  - destruct (IH k Hk) as [[[b x] a] ->]. now eexists.
Qed.

Lemma budget_app ups1 ups2 : budget (ups1 ++ ups2) = budget ups1 + budget ups2.
Proof.
  induction ups1 as [|u ups1 IH]; [reflexivity|]. cbn [app].
  rewrite !budget_cons, IH. destruct u; lia.
Qed.

Lemma budget_waiting ups : budget ups = 0 -> waiting ups = [].
Proof.
  induction ups as [|u ups IH]; [reflexivity|]. rewrite budget_cons, waiting_cons.
  destruct u; [lia|]. exact IH.
Qed.

Lemma budget_start reqs :
  budget (map (fun req => InFlight req 2 []) reqs) = 3 * length reqs.
Proof.
  induction reqs as [|r reqs IH]; [reflexivity|]. cbn [map length].
  rewrite budget_cons, IH. lia.
Qed.

Lemma answers_settled t es ups :
  waiting ups = [] -> Forall2 (answered t es) ups (answers ups).
Proof.
  induction ups as [|u ups IH]; [constructor|]. rewrite waiting_cons, answers_cons.
  destruct u as [req n errs|d]; [discriminate|].
  intros H. constructor; [reflexivity | now apply IH].
Qed.

Lemma answered_later t es es' u d : answered t es u d -> answered t (es' ++ es) u d.
Proof. destruct u; cbn; [|exact id]. intros H. apply in_or_app. now right. Qed.

Lemma answered_replace t es before after u u' l :
  Forall2 (answered t es) (before ++ u' :: after) l ->
  (forall d, answered t es u' d -> answered t es u d) ->
  Forall2 (answered t es) (before ++ u :: after) l.
Proof.
  intros H Hu. apply Forall2_app_inv_l in H as (lb & la & Hb & Ha & ->).
  inversion Ha as [|? d ? la' Hd Ha']; subst.
  apply Forall2_app; [exact Hb|]. constructor; [now apply Hu | exact Ha'].
Qed.

Section UploadsTogether.
Context `{Ext : Externals}.

(** The uploads end, whatever the order of the answers; the state is
    what it was; no size is read; when nothing fails the whole
    resolves; and when it resolves, each answer is that of its
    upload. *)
Lemma promise_all_run c fuel : forall ups w h s,
  budget ups <= fuel ->
  let r := promise_all c fuel ups w h s in
  final r = s /\
  out r <> Pending /\
  (Forall (fun e => succeeded e = true) (emitted r) -> exists l, out r = Ok l) /\
  Forall (fun e => is_stat e = false) (emitted r) /\
  forall l, out r = Ok l -> Forall2 (answered (gh_target c) (emitted r)) ups l.
Proof.
  induction fuel as [|fuel IH]; intros ups w h s Hb; cbn zeta.
  - assert (Hw : waiting ups = []) by (apply budget_waiting; lia).
    cbn [promise_all]. rewrite Hw. cbn. split; [reflexivity|]. split; [discriminate|].
    split; [now eexists|]. split; [constructor|].
    intros l [= <-]. now apply answers_settled.
  - cbn [promise_all]. destruct (waiting ups) as [|r0 reqs] eqn:Hw.
    { cbn. split; [reflexivity|]. split; [discriminate|].
      split; [now eexists|]. split; [constructor|].
      intros l [= <-]. now apply answers_settled. }
    destruct (select_some ups (w_next w h (r0 :: reqs) mod length (r0 :: reqs)))
      as [[[before [[req retries] errors]] after] Hsel].
    { rewrite Hw. apply Nat.mod_upper_bound. discriminate. }
    rewrite Hsel. pose proof (select_spec _ _ _ _ _ _ _ Hsel) as Hups.
    assert (Hbudget : budget ups = budget before + S retries + budget after).
    { rewrite Hups, budget_app, budget_cons. lia. }
    match goal with
    | |- final ((?m ≫= ?k) w h s) = _ /\ _ =>
      change (wp (m ≫= k) w h s (fun r =>
        final r = s /\
        out r <> Pending /\
        (Forall (fun e => succeeded e = true) (emitted r) -> exists l, out r = Ok l) /\
        Forall (fun e => is_stat e = false) (emitted r) /\
        forall l, out r = Ok l -> Forall2 (answered (gh_target c) (emitted r)) ups l))
    end.
    apply wp_bind, wp_upload_attempt.
    destruct (w_upload w h (gh_target c) req) as [data|err] eqn:Hup.
    + wp_red. unfold wp.
      match goal with
      | |- context [promise_all c fuel ?u ?w' ?h' ?s'] =>
        destruct (IH u w' h' s') as (I1 & I2 & I3 & I4 & I5);
          [rewrite budget_app, budget_cons; lia|];
          set (r' := promise_all c fuel u w' h' s') in *
      end.
      cbn [out emitted final app]. split; [exact I1|]. split; [exact I2|].
      split; [intros H; inversion H as [|? ? _ H']; inversion H' as [|? ? _ H'']; now apply I3|].
      split; [repeat (constructor; [reflexivity|]); exact I4|].
      intros l Hl. specialize (I5 l Hl). rewrite Hups.
      apply (answered_replace _ _ _ _ _ (Uploaded data)).
      * eapply Forall2_impl; [exact I5|]. intros u d Hd.
        exact (answered_later _ _ [_; _] u d Hd).
      * intros d ->. cbn. now left.
    + destruct (no_retry (he_status err)).
      * cbn [out emitted final app]. split; [reflexivity|]. split; [discriminate|].
        split; [intros H; inversion H as [|? ? H1 _]; discriminate H1|].
        split; [repeat constructor | intros l [=]].
      * wp_red. destruct retries as [|n].
        -- destruct (errors ++ [err]); unfold wp; cbn [throw out emitted final app];
             (split; [reflexivity|]; split; [discriminate|];
              split; [intros H; inversion H as [|? ? H1 _]; discriminate H1|];
              split; [repeat constructor | intros ? [=]]).
        -- unfold wp.
           match goal with
           | |- context [promise_all c fuel ?u ?w' ?h' ?s'] =>
             destruct (IH u w' h' s') as (I1 & I2 & I3 & I4 & I5);
               [rewrite budget_app, budget_cons; lia|];
               set (r' := promise_all c fuel u w' h' s') in *
           end.
           cbn [out emitted final app]. split; [exact I1|]. split; [exact I2|].
           split; [intros H; inversion H as [|? ? H1 _]; discriminate H1|].
           split; [repeat (constructor; [reflexivity|]); exact I4|].
           intros l Hl. specialize (I5 l Hl). rewrite Hups.
           apply (answered_replace _ _ _ _ _ (InFlight req n (errors ++ [err]))).
           ++ eapply Forall2_impl; [exact I5|]. intros u d Hd.
              exact (answered_later _ _ [_; _] u d Hd).
           ++ intros d Hd. exact Hd.
Qed.

(** One upload alone goes the way of [retry], whatever the
    environment says of the order. *)
Lemma promise_all_one c fuel : forall req retries errors w h s,
  retries < fuel ->
  promise_all c fuel [InFlight req retries errors] w h s
  = (retry_from (upload_attempt c req) retries errors ≫= fun d => mret [d]) w h s.
Proof.
  induction fuel as [|fuel IH]; intros req retries errors w h s Hf; [lia|].
  cbn [promise_all waiting omap list_omap length select]. rewrite Nat.mod_1_r.
  cbn [select app].
  destruct retries as [|n]; cbn [retry_from].
  - rewrite !run_bind.
    destruct (out (upload_attempt c req w h s)) as [[d|e|e]| |]; cbn; try reflexivity.
    + destruct fuel; cbn; now rewrite ?app_nil_r.
    + now destruct (errors ++ [e]).
  - rewrite !run_bind.
    destruct (out (upload_attempt c req w h s)) as [[d|e|e]| |]; cbn [out emitted final];
      try reflexivity.
    + destruct fuel; cbn; now rewrite ?app_nil_r.
    + rewrite IH by lia. rewrite run_bind.
      destruct (out (retry_from (upload_attempt c req) n (errors ++ [e]) w
                                (h ++ emitted (upload_attempt c req w h s))
                                (final (upload_attempt c req w h s))));
        cbn; rewrite ?app_nil_r; reflexivity.
Qed.

Lemma files_map_one c f w h s :
  files_map c [f] w h s =
  {| out := match w_stat w h f with
            | Returned size =>
              Ok [upload_request_of (gh_uploadUrl (gh_of (gh_target c) s)) f size]
            | Raised rej => Throw (Rejected rej)
            end;
     emitted := [EvStat f (w_stat w h f)];
     final := s |}.
Proof.
  match goal with |- ?m w h s = ?R => change (wp m w h s (fun r => r = R)) end.
  cbn [files_map]. unfold uploadAsset_request. wp_steps. rewrite app_nil_r.
  destruct (w_stat w h f); wp_red; wp_steps; reflexivity.
Qed.

(** Upload-assets of one file is the upload of that file. *)
Lemma upload_all_one c f w h s :
  let r := upload_all c [f] w h s in
  let r1 := GitHub_uploadAsset c f w h s in
  emitted r = emitted r1 /\ final r = final r1 /\
  out r = match out r1 with
          | Ok d => Ok [d]
          | Throw e => Throw e
          | Pending => Pending
          end.
Proof.
  cbn zeta. unfold upload_all, GitHub_uploadAsset, retry.
  rewrite (run_bind (files_map c [f])), files_map_one.
  rewrite (run_bind get_store). cbn [get_store out emitted final app].
  rewrite (run_bind (statSize f)). cbn [statSize out emitted final]. rewrite !app_nil_r.
  destruct (w_stat w h f) as [size|rej]; cbn [of_result out emitted final app length map];
    [|repeat split].
  rewrite promise_all_one by (cbn; lia). rewrite run_bind.
  destruct (out (retry_from _ _ _ _ _ _)); cbn; rewrite ?app_nil_r; repeat split.
Qed.

(** The requests are made in the order of the files, one size read
    for each, until a size cannot be read. *)
Lemma files_map_run c files : forall w h s,
  let r := files_map c files w h s in
  final r = s /\
  out r <> Pending /\
  (Forall (fun e => succeeded e = true) (emitted r) -> exists reqs, out r = Ok reqs) /\
  Forall (fun e => is_stat e = true) (emitted r) /\
  forall reqs, out r = Ok reqs ->
               length reqs = length files /\ length (emitted r) = length files.
Proof.
  induction files as [|f files IH]; intros w h s; cbn zeta.
  - cbn. split; [reflexivity|]. split; [discriminate|]. split; [now eexists|].
    split; [constructor|]. now intros reqs [= <-].
  - change (wp (files_map c (f :: files)) w h s (fun r =>
      final r = s /\
      out r <> Pending /\
      (Forall (fun e => succeeded e = true) (emitted r) -> exists reqs, out r = Ok reqs) /\
      Forall (fun e => is_stat e = true) (emitted r) /\
      forall reqs, out r = Ok reqs ->
                   length reqs = length (f :: files)
                   /\ length (emitted r) = length (f :: files))).
    cbn [files_map]. unfold uploadAsset_request. wp_steps.
    destruct (w_stat w (h ++ []) f) as [size|rej]; wp_red.
    + wp_steps. unfold wp.
      match goal with
      | |- context [files_map c files ?w' ?h' ?s'] =>
        destruct (IH w' h' s') as (I1 & I2 & I3 & I4 & I5);
          set (r' := files_map c files w' h' s') in *
      end.
      destruct (out r') as [reqs| |] eqn:Ho; cbn [out emitted final app].
      * split; [exact I1|]. split; [discriminate|]. split; [now eexists|].
        split; [constructor; [reflexivity|]; now rewrite app_nil_r|].
        intros reqs' [= <-]. destruct (I5 reqs eq_refl) as [L1 L2].
        rewrite app_nil_r. cbn [length]. now rewrite L1, L2.
      * split; [exact I1|]. split; [discriminate|].
        split; [intros H; inversion H as [|? ? _ H']; destruct (I3 H') as [? [=]]|].
        split; [constructor; [reflexivity | exact I4] | intros ? [=]].
      * congruence.
    + split; [reflexivity|]. split; [discriminate|].
      split; [intros H; inversion H as [|? ? H1 _]; discriminate H1|].
      split; [repeat constructor | intros ? [=]].
Qed.

Lemma count_stats es : Forall (fun e => is_stat e = true) es -> count is_stat es = length es.
Proof. induction 1 as [|e es He _ IH]; [reflexivity|]. cbn. now rewrite He, IH. Qed.

Lemma count_no_stat es : Forall (fun e => is_stat e = false) es -> count is_stat es = 0.
Proof. induction 1 as [|e es He _ IH]; [reflexivity|]. cbn. now rewrite He, IH. Qed.

Lemma upload_all_run c files w h s :
  let r := upload_all c files w h s in
  final r = s /\
  out r <> Pending /\
  (Forall (fun e => succeeded e = true) (emitted r) -> exists l, out r = Ok l) /\
  forall l, out r = Ok l ->
            length l = length files /\
            count is_stat (emitted r) = length files /\
            Forall (fun d => exists req,
                        In (EvUploadAsset (gh_target c) req (NetOk d)) (emitted r)) l.
Proof.
  cbn zeta. unfold upload_all. rewrite run_bind.
  destruct (files_map_run c files w h s) as (F1 & F2 & F3 & F4 & F5). cbn zeta in *.
  destruct (out (files_map c files w h s)) as [reqs| |] eqn:Ho; cbn [out emitted final].
  2:{ split; [exact F1|]. split; [discriminate|].
      split; [intros H; destruct (F3 H) as [? [=]] | intros ? [=]]. }
  2:{ congruence. }
  destruct (F5 reqs eq_refl) as [L1 L2].
  match goal with
  | |- context [promise_all c ?n ?u ?w' ?h' ?s'] =>
    destruct (promise_all_run c n u w' h' s') as (P1 & P2 & P3 & P4 & P5);
      [now rewrite budget_start|]; cbn zeta in P1, P2, P3, P4, P5;
      set (r' := promise_all c n u w' h' s') in *
  end.
  split; [now rewrite P1|]. split; [exact P2|].
  split; [intros H; apply Forall_app in H as [_ H]; now apply P3|].
  intros l Hl. specialize (P5 l Hl).
  split; [|split].
  - apply Forall2_length in P5. rewrite length_map in P5. congruence.
  - rewrite count_app, (count_stats _ F4), (count_no_stat _ P4). lia.
  - apply Forall2_flip in P5.
    eapply Forall2_Forall_l; [exact P5|].
    apply Forall_forall. intros u Hu d Hd.
    apply list_elem_of_In, in_map_iff in Hu as (req & <- & _). cbn in Hd.
    exists req. apply in_or_app. now right.
Qed.

End UploadsTogether.

Section Completes.
Context `{Ext : Externals}.

Lemma completes_ret {A} (a : A) : completes (mret a).
Proof. intros w h s _. now exists a. Qed.

Lemma completes_emit e : completes (emit e).
Proof. intros w h s _. now exists tt. Qed.

Lemma completes_log l msg : completes (log l msg).
Proof. apply completes_emit. Qed.

Lemma completes_get_store : completes get_store.
Proof. intros w h s _. now exists s. Qed.

Lemma completes_bind {A B} (m : M A) (f : A -> M B) :
  completes m -> (forall a, completes (f a)) -> completes (m ≫= f).
Proof.
  intros Hm Hf w h s. rewrite run_bind. specialize (Hm w h s).
  destruct (out (m w h s)) as [a| |] eqn:E; cbn.
  - intros H. apply Forall_app in H as [_ H]. now apply Hf.
  - intros H. destruct (Hm H) as [a [=]].
  - intros H. destruct (Hm H) as [a [=]].
Qed.

Lemma completes_void {A} (m : M A) : completes m -> completes (void m).
Proof. intros H. apply completes_bind; [exact H | intros; apply completes_ret]. Qed.

Lemma completes_show gate task : completes task -> completes (show gate task).
Proof. intros H. unfold show. destruct (truthy gate); [exact H | apply completes_ret]. Qed.

Lemma completes_shell op : completes (shell op).
Proof.
  intros w h s. cbn. destruct (w_shell w h op) as [v|r]; cbn.
  - intros _. now exists v.
  - intros H. inversion H as [|? ? H1 _]. destruct op; discriminate H1.
Qed.

Lemma completes_git t op : completes (git t op).
Proof.
  intros w h s. cbn. destruct (w_git w h t op) as [v|r]; cbn.
  - intros _. now exists v.
  - intros H. inversion H as [|? ? H1 _]. destruct op; discriminate H1.
Qed.

Lemma completes_statSize path : completes (statSize path).
Proof.
  intros w h s. cbn. destruct (w_stat w h path) as [v|r]; cbn.
  - intros _. now exists v.
  - intros H. inversion H as [|? ? H1 _]. discriminate H1.
Qed.

Lemma completes_hook cmd : completes (hook cmd).
Proof. apply completes_show, completes_void, completes_shell. Qed.

Lemma completes_retry_from {A} (fn : M (attempt A)) n errors :
  (forall w h s,
      Forall (fun e => succeeded e = true) (emitted (fn w h s)) ->
      exists a, out (fn w h s) = Ok (Resolved a)) ->
  completes (retry_from fn n errors).
Proof.
  intros Hfn w h s.
  assert (Hstep : forall k : attempt A -> M A,
             (forall a, k (Resolved a) = mret a) ->
             Forall (fun e => succeeded e = true) (emitted ((fn ≫= k) w h s)) ->
             exists a, out ((fn ≫= k) w h s) = Ok a).
  { intros k Hk. rewrite run_bind. specialize (Hfn w h s).
    destruct (out (fn w h s)) as [a| |] eqn:E; cbn.
    - intros H. apply Forall_app in H as [H _]. destruct (Hfn H) as [a' [= ->]].
      rewrite Hk. now exists a'.
    - intros H. destruct (Hfn H) as [a [=]].
    - intros H. destruct (Hfn H) as [a [=]]. }
  destruct n; simpl retry_from; apply Hstep; reflexivity.
Qed.

Lemma completes_uploadAsset c filePath : completes (GitHub_uploadAsset c filePath).
Proof.
  unfold GitHub_uploadAsset.
  apply completes_bind; [apply completes_get_store|]. intros s0.
  apply completes_bind; [apply completes_statSize|]. intros size.
  apply completes_retry_from. intros w h s.
  match goal with |- context [upload_attempt c ?req] =>
    change (wp (upload_attempt c req) w h s (fun r =>
      Forall (fun e => succeeded e = true) (emitted r) ->
      exists a, out r = Ok (Resolved a)))
  end.
  apply wp_upload_attempt.
  destruct (w_upload _ _ _ _) as [d|e]; [intros _; now exists d|].
  destruct (no_retry _); intros H; inversion H as [|? ? H1 _]; discriminate H1.
Qed.

Lemma completes_uploadAssets c : completes (GitHub_uploadAssets c).
Proof.
  unfold GitHub_uploadAssets.
  destruct (negb _); [apply completes_ret|].
  apply completes_bind; [apply completes_log|]. intros _.
  destruct (truthy _).
  - apply completes_bind; [apply completes_log | intros; apply completes_ret].
  - apply completes_bind; [intros w h s _; now eexists|]. intros files.
    apply completes_bind.
    { destruct (Nat.eqb _ _); [apply completes_log | apply completes_ret]. }
    intros _. apply completes_bind; [|intros; apply completes_ret].
    intros w h s Hs. destruct (upload_all_run c files w h s) as (_ & _ & H & _).
    now apply H.
Qed.

End Completes.

Section StepGroup.
Context `{Ext : Externals}.

(** Between its two marks, the step group emits no mark. *)
Lemma release_steps_emits P fuel cfg version isPreRelease changelog t o gh npmc :
  (forall e, is_group e = false -> is_validate e = false -> P e = true) ->
  emits P (release_steps fuel cfg version isPreRelease changelog t o gh npmc).
Proof.
  intros HP'. assert (HP : forall e, is_group e = false /\ is_validate e = false -> P e = true)
    by (intros e [? ?]; now apply HP').
  unfold release_steps.
  assert (Hrel : emits P (GitHub_release gh version isPreRelease changelog))
    by (apply emits_GitHub_release; intros; now apply HP).
  assert (Hup : emits P (GitHub_uploadAssets gh))
    by (apply emits_GitHub_uploadAssets; intros; now apply HP).
  assert (Hpub : emits P (publish fuel npmc
            {| pa_tag := VUndef; pa_version := version; pa_isPreRelease := isPreRelease;
               pa_otp := VUndef; pa_otpPrompt := Some otpPrompt |}))
    by (apply emits_publish; [intros; now apply HP .. | now left]).
  assert (Hgit : forall op, emits P (void (git t op)))
    by (intros op; apply emits_void, emits_git; intros; now apply HP).
  destruct (negb (isInteractive cfg)).
  - repeat (apply emits_bind; [|intros _]);
      apply emits_show; auto using emits_void.
  - repeat (apply emits_bind; [|intros _]);
      (apply emits_prompt; [intros; now apply HP | intros _]); auto.
    apply emits_bind; [exact Hrel|]. intros [d|]; auto using emits_void, emits_ret.
Qed.

Lemma hook_emits P cmd :
  (forall op r, P (EvShell (SRunTemplate op) r) = true) -> emits P (hook cmd).
Proof. intros HP. apply emits_show, emits_void, emits_shell. intros; apply HP. Qed.

Lemma release_steps_gates_off_emits fuel cfg version isPreRelease changelog t o gh npmc :
  gates_off o ->
  emits (fun e => negb (is_gated_step e))
        (release_steps fuel cfg version isPreRelease changelog t o gh npmc).
Proof.
  intros (Hc & Ht & Hp & Hr & Hn). unfold release_steps, show, prompt.
  rewrite Hc, Ht, Hp, Hr, Hn.
  assert (Hup : emits (fun e => negb (is_gated_step e)) (GitHub_uploadAssets gh))
    by (apply emits_GitHub_uploadAssets; intros; try reflexivity; now destruct l).
  destruct (negb (isInteractive cfg)).
  - repeat (apply emits_bind; [|intros _]); try apply emits_ret.
    destruct (truthy (prop (g_github o) "assets")); [now apply emits_void | apply emits_ret].
  - repeat (apply emits_bind; [|intros _]); apply emits_ret.
Qed.


Lemma release_steps_gates_off_completes fuel cfg version isPreRelease changelog t o gh npmc :
  gates_off o ->
  completes (release_steps fuel cfg version isPreRelease changelog t o gh npmc).
Proof.
  intros (Hc & Ht & Hp & Hr & Hn). unfold release_steps, show, prompt.
  rewrite Hc, Ht, Hp, Hr, Hn.
  destruct (negb (isInteractive cfg)).
  - repeat (apply completes_bind; [|intros _]); try apply completes_ret.
    destruct (truthy (prop (g_github o) "assets"));
      [apply completes_void, completes_uploadAssets | apply completes_ret].
  - repeat (apply completes_bind; [|intros _]); apply completes_ret.
Qed.

End StepGroup.

(** ** The stages of the pipeline *)

Lemma groups_app es1 es2 : groups (es1 ++ es2) = groups es1 ++ groups es2.
Proof.
  induction es1 as [|e es1 IH]; [reflexivity|]. cbn. rewrite IH. now destruct (is_group e).
Qed.

Lemma groups_nil P es :
  (forall e, P e = true -> is_group e = false) ->
  Forall (fun e => P e = true) es -> groups es = [].
Proof.
  intros HP. induction 1 as [|e es He _ IH]; [reflexivity|]. cbn. now rewrite (HP e He).
Qed.

Lemma groups_In e es : In e (groups es) -> In e es.
Proof.
  induction es as [|x es IH]; [easy|]. cbn. destruct (is_group x); cbn; tauto.
Qed.

Lemma emits_weaken {A} (P Q : event -> bool) (m : M A) :
  (forall e, P e = true -> Q e = true) -> emits P m -> emits Q m.
Proof. intros HPQ H w h s. eapply Forall_impl; [apply H | exact HPQ]. Qed.

Lemma wp_emits {A} P (m : M A) w h s (Q : res A -> Prop) :
  emits P m ->
  (forall r, Forall (fun e => P e = true) (emitted r) -> Q r) ->
  wp m w h s Q.
Proof. intros Hm HQ. apply HQ, Hm. Qed.

Lemma wp_isPreRelease w h s Q :
  Q {| out := Ok (w_isPreRelease w h); emitted := []; final := s |} ->
  wp Version_isPreRelease w h s Q.
Proof. exact id. Qed.

Ltac emits_go HP :=
  repeat first
    [ apply emits_ret | apply emits_throw | apply emits_modify | apply emits_get_store
    | apply emits_git_prop | apply emits_isPreRelease | apply emits_GitHub_validate
    | apply emits_log; apply HP; reflexivity
    | apply emits_emit; apply HP; reflexivity
    | apply emits_git; intros; apply HP; reflexivity
    | apply emits_shell; intros; apply HP; reflexivity
    | apply emits_Version_bump; intros; apply HP; reflexivity
    | apply emits_inquire; intros; apply HP; reflexivity
    | apply emits_prompt; [intros; apply HP; reflexivity | intros]
    | apply emits_void | apply emits_show
    | apply emits_bind; [|intros]
    | match goal with |- emits _ (if ?b then _ else _) => destruct b end
    | match goal with |- emits _ (match ?x with _ => _ end) => destruct x end ].

Section Stages.
Context `{Ext : Externals}.

Lemma resolve_emits P cfg gh ghd :
  (forall e, quiet e = true -> is_substep e = false -> P e = true) ->
  emits P (resolve cfg gh ghd).
Proof. intros HP. unfold resolve, hook, run, getChangelog. emits_go HP. Qed.

Lemma bump_and_stage_emits P cfg version changelog :
  (forall e, late e = true -> is_substep e = false -> P e = true) ->
  emits P (bump_and_stage cfg version changelog).
Proof. intros HP. unfold bump_and_stage, hook, run, getChangelog. emits_go HP. Qed.

Lemma dist_prepare_emits P cfg version :
  (forall e, late e = true -> is_substep e = false -> P e = true) ->
  emits P (dist_prepare cfg version).
Proof. intros HP. unfold dist_prepare, hook, run. emits_go HP. Qed.

Lemma summary_emits P cfg gh ghd n nd :
  (forall e, late e = true -> is_substep e = false -> P e = true) ->
  emits P (summary cfg gh ghd n nd).
Proof. intros HP. unfold summary. emits_go HP. Qed.

Lemma release_steps_late P fuel cfg version isPreRelease changelog t o gh npmc :
  (forall e, late e = true -> P e = true) ->
  emits P (release_steps fuel cfg version isPreRelease changelog t o gh npmc).
Proof.
  intros HP. apply release_steps_emits. intros e H1 H2. apply HP. unfold late.
  now rewrite H1, H2.
Qed.

(** Everything after the validation, marks included. *)
Lemma release_emits P fuel cfg scripts version isPreRelease changelog t o gh npmc :
  (forall e, is_validate e = false -> P e = true) ->
  emits P (release fuel cfg scripts version isPreRelease changelog t o gh npmc).
Proof.
  intros HP. unfold release.
  apply emits_bind; [apply emits_emit, HP; reflexivity | intros _].
  apply emits_bind; [|intros _].
  { apply release_steps_late. intros e He. apply HP. unfold late in He.
    destruct (is_validate e); [now rewrite orb_true_r in He | reflexivity]. }
  apply emits_bind; [|intros _; apply emits_emit, HP; reflexivity].
  unfold hook, run. emits_go HP.
Qed.

Lemma prepare_emits P cfg :
  (forall e, late e = true \/ is_validate e = true -> is_substep e = false -> P e = true) ->
  emits P (prepare cfg).
Proof.
  intros HP. unfold prepare.
  apply emits_bind.
  { destruct (isCollectMetrics cfg); [apply emits_emit, HP; auto | apply emits_ret]. }
  intros _.
  do 3 (apply emits_bind; [apply emits_git; intros; apply HP; auto | intros _]).
  apply emits_bind; [apply emits_git_prop | intros remoteUrl].
  apply emits_bind.
  { apply resolve_emits. intros e H1 H2. apply HP; [left|exact H2].
    unfold quiet in H1. unfold late.
    destruct (is_group e), (is_validate e); try discriminate H1; reflexivity. }
  intros [latest changelog].
  apply emits_bind.
  { apply emits_Version_validate. intros v. apply HP; auto. }
  intros _. apply emits_bind; [apply emits_get_store | intros s0].
  apply emits_bind; [apply emits_isPreRelease | intros; apply emits_ret].
Qed.

Lemma dist_release_emits P fuel cfg version isPreRelease changelog gh npmc :
  (forall e, is_validate e = false -> P e = true) ->
  emits P (dist_release fuel cfg version isPreRelease changelog gh npmc).
Proof.
  intros HP. unfold dist_release, run.
  destruct (truthy _); [|apply emits_ret].
  do 6 (apply emits_bind; [emits_go HP | intros]).
  apply emits_bind; [now apply release_emits | intros].
  emits_go HP.
Qed.

End Stages.

(** ** The shape of a run of the pipeline *)

Ltac solve_forall :=
  repeat first
    [ assumption
    | apply Forall_nil_2
    | apply Forall_app; split
    | apply List.Forall_cons; [reflexivity|] ].

Lemma cons_snoc {A} (x y : A) l pre : l = pre ++ [y] -> x :: l = (x :: pre) ++ [y].
Proof. now intros ->. Qed.

Lemma app_snoc {A} (y : A) a l pre : l = pre ++ [y] -> a ++ l = (a ++ pre) ++ [y].
Proof. intros ->. now rewrite app_assoc. Qed.

(** Writes a trace that is known up to its last event as what came
    before, followed by that event. *)
Ltac snoc_form :=
  cbn [app];
  repeat lazymatch goal with
         | |- [?x] = _ => exact (eq_refl ([] ++ [x]))
         | |- ?a ++ [?x] = _ => reflexivity
         | |- _ :: _ = _ => apply cons_snoc
         | |- _ ++ _ = _ => apply app_snoc
         end.

Ltac wp_case :=
  match goal with
  | |- context [of_result ?X] => destruct X eqn:?; wp_red
  end.

Section Shapes.
Context `{Ext : Externals}.

Ltac prepare_fails :=
  unfold prepare_shape; cbn [app]; eexists; split;
  [| right; right; split; [intros ? [=] | reflexivity]]; solve_forall.

Lemma prepare_has_shape cfg w h s : prepare_shape (prepare cfg w h s).
Proof.
  change (wp (prepare cfg) w h s prepare_shape). unfold prepare.
  wp_step.
  assert (Hm : emits quiet (if isCollectMetrics cfg then emit (EvMetric "start") else mret tt))
    by (destruct (isCollectMetrics cfg); [now apply emits_emit | apply emits_ret]).
  apply (wp_emits quiet); [exact Hm|]. intros r0 H0. clear Hm.
  destruct (out r0) as [[]| |]; [| prepare_fails ..].
  wp_steps. wp_case; [|prepare_fails].
  wp_steps. wp_case; [|prepare_fails].
  wp_steps. wp_case; [|prepare_fails].
  wp_steps.
  apply (wp_emits quiet); [now apply resolve_emits|]. intros r1 H1.
  destruct (out r1) as [[latest changelog]| |]; [| prepare_fails ..].
  unfold Version_validate. wp_steps.
  destruct (truthy (st_version (final r1))) eqn:Hv.
  - wp_steps. apply wp_isPreRelease. wp_red. wp_steps.
    unfold prepare_shape. cbn [app out emitted final].
    eexists. split; [|left; eexists; split; [reflexivity|]].
    2:{ cbn [p_version]. split; [snoc_form|].
        repeat split; assumption || reflexivity. }
    solve_forall.
  - wp_steps. unfold prepare_shape. cbn [app out emitted final].
    eexists. split; [|right; left; eexists; split; [reflexivity|]].
    2:{ split; [snoc_form | exact Hv]. }
    solve_forall.
Qed.

End Shapes.

Lemma late_groups es : Forall (fun e => late e = true) es -> groups es = [].
Proof.
  apply groups_nil. intros e. unfold late. destruct (is_group e); [discriminate | reflexivity].
Qed.

Lemma late_not_validate es :
  Forall (fun e => late e = true) es -> Forall (fun e => not_validate e = true) es.
Proof.
  intros H. eapply Forall_impl; [exact H|]. intros e. unfold late, not_validate.
  destruct (is_validate e); [now rewrite orb_true_r | reflexivity].
Qed.

Lemma quiet_groups es : Forall (fun e => quiet e = true) es -> groups es = [].
Proof.
  apply groups_nil. intros e. unfold quiet. destruct (is_group e); [discriminate | reflexivity].
Qed.

Lemma wp_spec {A} (Spec : res A -> Prop) (m : M A) w h s (Q : res A -> Prop) :
  Spec (m w h s) -> (forall r, Spec r -> Q r) -> wp m w h s Q.
Proof. intros H HQ. apply HQ, H. Qed.

Lemma wp_if_emit (b : bool) e w h s Q :
  Q {| out := Ok tt; emitted := if b then [e] else []; final := s |} ->
  wp (if b then emit e else mret tt) w h s Q.
Proof. destruct b; exact id. Qed.

Lemma wp_if_log (b : bool) l msg w h s Q :
  Q {| out := Ok tt; emitted := if b then [EvLog l msg] else []; final := s |} ->
  wp (if b then log l msg else mret tt) w h s Q.
Proof. destruct b; exact id. Qed.

Ltac groups_norm :=
  cbn [out emitted final app groups is_group];
  repeat (rewrite groups_app; cbn [groups is_group]);
  repeat match goal with H : groups (emitted _) = _ |- _ => rewrite H end;
  cbn [app groups is_group].

Section RunShape.
Context `{Ext : Externals}.

Lemma release_has_spec fuel cfg scripts version isPreRelease changelog t o gh npmc w h s :
  group_spec t version
    (release fuel cfg scripts version isPreRelease changelog t o gh npmc w h s).
Proof.
  split.
  { apply (release_emits not_validate). intros e He. unfold not_validate. now rewrite He. }
  change (wp (release fuel cfg scripts version isPreRelease changelog t o gh npmc) w h s
            (fun r =>
               (out r = Ok tt /\ groups (emitted r) = [EvGroup t true version; EvGroup t false version]) \/
               ((forall a, out r <> Ok a) /\ groups (emitted r) = [EvGroup t true version]))).
  unfold release. wp_steps.
  apply (wp_emits late); [now apply release_steps_late|]. intros r1 H1.
  apply late_groups in H1.
  destruct (out r1) as [[]| |];
    [| right; split; [intros ? [=] | now groups_norm] ..].
  wp_step.
  apply (wp_emits late).
  { unfold hook, run. emits_go (fun e (H : late e = true) => H). }
  intros r2 H2. apply late_groups in H2.
  destruct (out r2) as [[]| |];
    [| right; split; [intros ? [=] | now groups_norm] ..].
  wp_steps. left. split; [reflexivity|]. now groups_norm.
Qed.

Lemma dist_release_has_spec fuel cfg version isPreRelease changelog gh npmc w h s :
  dist_spec cfg version s
    (dist_release fuel cfg version isPreRelease changelog gh npmc w h s).
Proof.
  split.
  { apply (dist_release_emits not_validate). intros e He. unfold not_validate. now rewrite He. }
  change (wp (dist_release fuel cfg version isPreRelease changelog gh npmc) w h s
            (fun r =>
               if truthy (d_repo (o_dist (cfg_options cfg)))
               then ((forall a, out r <> Ok a) /\
                     (groups (emitted r) = [] \/ groups (emitted r) = [EvGroup Dist true version])) \/
                    groups (emitted r) = [EvGroup Dist true version; EvGroup Dist false version]
               else out r = Ok tt /\ emitted r = [] /\ final r = s)).
  unfold dist_release.
  destruct (truthy (d_repo (o_dist (cfg_options cfg)))); [|wp_steps; repeat split].
  wp_steps. wp_case; [|left; split; [intros ? [=] | now left]].
  wp_steps. wp_case; [|left; split; [intros ? [=] | now left]].
  wp_steps. wp_case; [|left; split; [intros ? [=] | now left]].
  wp_steps. wp_case; [|left; split; [intros ? [=] | now left]].
  wp_step.
  apply (wp_emits late).
  { destruct (isInteractive cfg); [now apply emits_log | apply emits_ret]. }
  intros r0 H0. apply late_groups in H0.
  destruct (out r0) as [[]| |];
    [| left; split; [intros ? [=] | left; now groups_norm] ..].
  wp_step.
  eapply wp_spec; [apply release_has_spec|]. intros r1 [_ [[Hout Hg]|[Hout Hg]]].
  - rewrite Hout. wp_steps. wp_case.
    + unfold run. wp_steps. wp_case; wp_steps; right; now groups_norm.
    + right. now groups_norm.
  - destruct (out r1) as [x| |]; [exfalso; now apply (Hout x) | ..];
      (left; split; [intros ? [=] | right; now groups_norm]).
Qed.

Lemma summary_has_spec cfg gh ghd n nd w h s :
  summary_spec (summary cfg gh ghd n nd w h s).
Proof.
  split; [|split].
  2:{ apply summary_emits. auto. }
  - change (wp (summary cfg gh ghd n nd) w h s (fun r => out r = Ok tt)).
    unfold summary. wp_steps.
    do 4 (apply wp_if_log; wp_red; wp_step).
    apply wp_if_emit; wp_red. wp_steps. reflexivity.
  - change (wp (summary cfg gh ghd n nd) w h s (fun r => In done (emitted r))).
    unfold summary. wp_steps.
    do 4 (apply wp_if_log; wp_red; wp_step).
    apply wp_if_emit; wp_red. wp_steps.
    cbn [app]. repeat (apply in_or_app; right). now left.
Qed.

End RunShape.

Section CarryOut.
Context `{Ext : Externals}.

Ltac rest_fails :=
  unfold rest_spec;
  repeat match goal with H : truthy (d_repo _) = _ |- _ => rewrite H end;
  split; [cbn [out emitted final]; solve_forall |];
  split; [groups_norm; unfold full_groups; cbn [app]; eexists; reflexivity |];
  split; [intros ? [=] |];
  let H1 := fresh in let H2 := fresh in
  intros H1 H2; try discriminate H1;
  revert H2; groups_norm; unfold full_groups; cbn [app]; intros H2; discriminate H2.

Lemma carry_out_has_spec fuel cfg p w h s :
  rest_spec cfg (p_version p) (carry_out fuel cfg p w h s).
Proof.
  change (wp (carry_out fuel cfg p) w h s (rest_spec cfg (p_version p))).
  unfold carry_out. wp_step.
  apply (wp_emits late); [now apply bump_and_stage_emits|]. intros r1 H1.
  pose proof (late_groups _ H1) as G1. apply late_not_validate in H1.
  destruct (truthy (d_repo (o_dist (cfg_options cfg)))) eqn:Hd.
  - (* a distribution repository is configured *)
    destruct (out r1) as [changelog| |]; [| rest_fails ..].
    wp_step.
    apply (wp_emits late); [now apply dist_prepare_emits|]. intros r2 H2.
    pose proof (late_groups _ H2) as G2. apply late_not_validate in H2.
    destruct (out r2) as [[]| |]; [| rest_fails ..].
    wp_step.
    eapply wp_spec; [apply release_has_spec|]. intros r3 [H3 [[O3 G3]|[O3 G3]]].
    2:{ destruct (out r3) as [x| |]; [exfalso; now apply (O3 x) | rest_fails ..]. }
    rewrite O3. wp_step.
    eapply wp_spec; [apply dist_release_has_spec|]. intros r4 [H4 D4].
    rewrite Hd in D4. destruct D4 as [[O4 [G4|G4]]|G4].
    1,2: destruct (out r4) as [x| |]; [exfalso; now apply (O4 x) | rest_fails ..].
    destruct (out r4) as [[]| |]; [| rest_fails ..].
    wp_step.
    eapply wp_spec; [apply summary_has_spec|]. intros r5 (O5 & H5 & D5).
    pose proof (late_groups _ H5) as G5. apply late_not_validate in H5.
    rewrite O5. wp_steps.
    unfold rest_spec. rewrite Hd.
    split; [cbn [out emitted final]; solve_forall |].
    split; [groups_norm; unfold full_groups; cbn [app]; now exists [] |].
    split; [| intros [=]].
    intros res [= <-]. split; [now groups_norm | split; [|reflexivity]].
    cbn [emitted]. do 4 (apply in_or_app; right). apply in_or_app. now left.
  - (* no distribution repository *)
    destruct (out r1) as [changelog| |]; [| rest_fails ..].
    wp_step.
    apply (wp_emits late); [now apply dist_prepare_emits|]. intros r2 H2.
    pose proof (late_groups _ H2) as G2. apply late_not_validate in H2.
    destruct (out r2) as [[]| |]; [| rest_fails ..].
    wp_step.
    eapply wp_spec; [apply release_has_spec|]. intros r3 [H3 [[O3 G3]|[O3 G3]]].
    2:{ destruct (out r3) as [x| |]; [exfalso; now apply (O3 x) | rest_fails ..]. }
    rewrite O3. wp_step.
    eapply wp_spec; [apply dist_release_has_spec|]. intros r4 [H4 D4].
    rewrite Hd in D4. destruct D4 as (O4 & E4 & F4).
    assert (G4 : groups (emitted r4) = []) by now rewrite E4.
    rewrite O4. wp_step.
    eapply wp_spec; [apply summary_has_spec|]. intros r5 (O5 & H5 & D5).
    pose proof (late_groups _ H5) as G5. apply late_not_validate in H5.
    rewrite O5. wp_steps.
    unfold rest_spec. rewrite Hd.
    split; [cbn [out emitted final]; solve_forall |].
    split; [groups_norm; unfold full_groups; cbn [app]; now exists [] |].
    split; [| intros _ _; now eexists].
    intros res [= <-]. split; [now groups_norm | split; [|reflexivity]].
    cbn [emitted]. do 4 (apply in_or_app; right). apply in_or_app. now left.
Qed.

End CarryOut.

Lemma quiet_not_validate es :
  Forall (fun e => quiet e = true) es -> Forall (fun e => is_validate e = false) es.
Proof.
  intros H. eapply Forall_impl; [exact H|]. intros e. unfold quiet.
  destruct (is_validate e); [now rewrite orb_true_r | reflexivity].
Qed.

Lemma quiet_not_bump es :
  Forall (fun e => quiet e = true) es -> Forall (fun e => is_bump_or_stage e = false) es.
Proof.
  intros H. eapply Forall_impl; [exact H|]. intros e. unfold quiet.
  destruct (is_bump_or_stage e); [now rewrite !orb_true_r | reflexivity].
Qed.

Lemma In_groups e es : is_group e = true -> In e es -> In e (groups es).
Proof.
  intros He. induction es as [|x es IH]; [easy|]. cbn. intros [->|H].
  - rewrite He. now left.
  - destruct (is_group x); [right|]; auto.
Qed.

Section Run.
Context `{Ext : Externals}.

Lemma tasks_run fuel cfg w h s :
  let b := tasks_body fuel cfg w h s in
  let r := tasks fuel cfg w h s in
  out r = out b /\ final r = final b /\ emitted r = emitted b ++ report cfg (out b).
Proof.
  cbn zeta. unfold tasks. rewrite run_catch.
  destruct (out (tasks_body fuel cfg w h s)) as [a|e|] eqn:E; cbn [report].
  - rewrite E, app_nil_r. auto.
  - destruct (isCollectMetrics cfg); cbn; auto.
  - rewrite E, app_nil_r. auto.
Qed.

Lemma report_quiet cfg {A} (o : outcome A) : Forall (fun e => quiet e = true) (report cfg o).
Proof.
  destruct o; cbn; try constructor.
  destruct (isCollectMetrics cfg); repeat constructor.
Qed.

Lemma tasks_has_shape fuel cfg w h s : run_shape cfg (tasks fuel cfg w h s).
Proof.
  destruct (tasks_run fuel cfg w h s) as (Hout & _ & Hem). cbn zeta in *.
  unfold run_shape. rewrite Hout, Hem. clear Hout Hem.
  unfold tasks_body. rewrite run_bind.
  destruct (prepare_has_shape cfg w h s) as (pre & Hpre & Hcase).
  destruct Hcase as [(p & Hp & He & Hv & _) | [(v & Hp & He & Hv) | (Hp & He)]].
  - rewrite Hp. cbn [out emitted final].
    pose proof (carry_out_has_spec fuel cfg p w (h ++ emitted (prepare cfg w h s))
                  (final (prepare cfg w h s))) as (H1 & H2 & H3 & H4).
    set (c := carry_out fuel cfg p w (h ++ emitted (prepare cfg w h s))
                        (final (prepare cfg w h s))) in *.
    exists pre. split; [exact Hpre|]. right. right.
    exists (p_version p), (emitted c ++ report cfg (out c)).
    assert (Hrep : groups (report cfg (out c)) = [])
      by (apply quiet_groups, report_quiet).
    rewrite He, <- !app_assoc. split; [reflexivity|]. split; [exact Hv|].
    split.
    { apply Forall_app. split; [exact H1|].
      eapply Forall_impl; [apply report_quiet|]. intros e. unfold quiet, not_validate.
      destruct (is_validate e); [now rewrite orb_true_r | reflexivity]. }
    cbn zeta. rewrite groups_app, Hrep, app_nil_r. split; [exact H2|]. split.
    + intros res Hres. destruct (H3 res Hres) as (G & D & V).
      repeat split; try assumption. apply in_or_app. now left.
    + exact H4.
  - rewrite He. destruct (out (prepare cfg w h s)); try discriminate. injection Hp as ->.
    cbn [out emitted final report].
    exists pre. split; [exact Hpre|]. right. left.
    exists v, (report cfg (Throw InvalidVersionError : outcome tasks_result)).
    split; [reflexivity|]. split; [now rewrite <- app_assoc|]. split; [exact Hv|].
    apply (report_quiet cfg (Throw InvalidVersionError : outcome tasks_result)).
  - rewrite He. destruct (out (prepare cfg w h s)) as [p|e|] eqn:E.
    + exfalso. now apply (Hp p).
    + cbn [out emitted final].
      exists (pre ++ report cfg (Throw e : outcome tasks_result)).
      split; [apply Forall_app; split; [exact Hpre | apply report_quiet]|].
      left. split; [intros ? [=] | reflexivity].
    + cbn [out emitted final report]. exists pre. split; [exact Hpre|].
      left. split; [intros ? [=] | now rewrite app_nil_r].
Qed.

End Run.

(** ** Ordering in a run of the pipeline *)

Lemma split_marker (P : event -> bool) pre x post p e q :
  pre ++ x :: post = p ++ e :: q ->
  Forall (fun y => P y = false) pre -> P x = false -> P e = true ->
  exists mid, p = pre ++ x :: mid /\ post = mid ++ e :: q.
Proof.
  revert p. induction pre as [|a pre IH]; intros p Heq Hpre Hx He.
  - destruct p as [|y p]; cbn in Heq; injection Heq as -> Hq.
    + congruence.
    + now exists p.
  - inversion Hpre as [|? ? Ha Hpre']; subst.
    destruct p as [|y p]; cbn in Heq; injection Heq as -> Hq.
    + congruence.
    + destruct (IH p Hq Hpre' Hx He) as (mid & -> & ->). now exists mid.
Qed.

Lemma Forall_split_false (P : event -> bool) l p e q :
  Forall (fun y => P y = false) l -> l = p ++ e :: q -> P e = true -> False.
Proof.
  intros H -> He. apply Forall_app in H as [_ H]. inversion H; congruence.
Qed.

Lemma count_groups f es :
  (forall e, f e = true -> is_group e = true) -> count f (groups es) = count f es.
Proof.
  intros Hf. induction es as [|e es IH]; [reflexivity|]. cbn.
  destruct (is_group e) eqn:G; cbn; rewrite IH; [reflexivity|].
  destruct (f e) eqn:F; [|reflexivity]. rewrite (Hf e F) in G. discriminate.
Qed.

Lemma count_prefix f (l1 l2 : list event) : l1 `prefix_of` l2 -> count f l1 <= count f l2.
Proof. intros [k ->]. rewrite count_app. lia. Qed.

Section Ordering.
Context `{Ext : Externals}.

(** C7. In every run of the pipeline, whatever is bumped or staged
    comes after a validation of the version that passed; and when the
    validation finds no version, the run ends in InvalidVersionError
    and nothing at all is bumped or staged. *)
Theorem C7_validation_first (fuel : nat) (cfg : config) (w : world) (h : list event)
        (s : store) :
  let r := tasks fuel cfg w h s in
  (forall pre e post,
      emitted r = pre ++ e :: post ->
      is_bump_or_stage e = true ->
      exists v, In (EvValidate v) pre /\ truthy v = true) /\
  (forall v,
      In (EvValidate v) (emitted r) ->
      truthy v = false ->
      out r = Throw InvalidVersionError /\
      Forall (fun e => is_bump_or_stage e = false) (emitted r)).
Proof.
  intros r. subst r.
  destruct (tasks_has_shape fuel cfg w h s) as (pre0 & Hpre & Hcase).
  pose proof (quiet_not_bump _ Hpre) as Hpb.
  pose proof (quiet_not_validate _ Hpre) as Hpv.
  destruct Hcase as [(Hno & He) | [(v & post & Ho & He & Hv & Hpost) | (v & post & He & Hv & Hpost & _)]];
    rewrite He; split.
  - intros p e q Heq Hb. exfalso. eapply (Forall_split_false is_bump_or_stage); eauto.
  - intros v Hin Hv. exfalso.
    rewrite Forall_forall in Hpv. apply list_elem_of_In, Hpv in Hin. discriminate Hin.
  - intros p e q Heq Hb. exfalso.
    destruct (split_marker is_bump_or_stage _ _ _ _ _ _ Heq Hpb eq_refl Hb) as (mid & _ & Hq).
    eapply (Forall_split_false is_bump_or_stage); [apply quiet_not_bump, Hpost | exact Hq | exact Hb].
  - intros v0 _ _. split; [exact Ho|].
    apply Forall_app. split; [exact Hpb|]. constructor; [reflexivity|].
    now apply quiet_not_bump.
  - intros p e q Heq Hb.
    destruct (split_marker is_bump_or_stage _ _ _ _ _ _ Heq Hpb eq_refl Hb) as (mid & -> & _).
    exists v. split; [|exact Hv]. apply in_or_app. right. now left.
  - intros v0 Hin Hv0. exfalso. apply in_app_or in Hin as [Hin|[Hin|Hin]].
    + rewrite Forall_forall in Hpv. apply list_elem_of_In, Hpv in Hin. discriminate Hin.
    + injection Hin as ->. congruence.
    + rewrite Forall_forall in Hpost. apply list_elem_of_In, Hpost in Hin. discriminate Hin.
Qed.

End Ordering.

(** ** The two calls of the step group *)

Lemma groups_of_shape_nil pre : Forall (fun e => quiet e = true) pre -> groups pre = [].
Proof. apply quiet_groups. Qed.

Lemma is_entry_group e : is_entry e = true -> is_group e = true.
Proof. destruct e; cbn; congruence. Qed.

Lemma marker_unique (P : event -> bool) p0 x0 q0 p x q :
  p0 ++ x0 :: q0 = p ++ x :: q ->
  Forall (fun e => P e = false) p0 -> Forall (fun e => P e = false) q0 ->
  P x = true ->
  p = p0 /\ x = x0 /\ q = q0.
Proof.
  revert p. induction p0 as [|a p0 IH]; intros p Heq H0 Hq Hx.
  - destruct p as [|y p]; cbn in Heq.
    + injection Heq as Hx0 Hq0. subst. auto.
    + injection Heq as Hx0 Hq0. subst. apply Forall_app in Hq as [_ Hq].
      inversion Hq; congruence.
  - inversion H0 as [|? ? Ha H0']; subst.
    destruct p as [|y p]; cbn in Heq.
    + injection Heq as Hx0 _. congruence.
    + injection Heq as Hy Heq. subst.
      destruct (IH p Heq H0' Hq Hx) as (-> & -> & ->). auto.
Qed.

Lemma Forall_negb (f : event -> bool) es :
  Forall (fun e => negb (f e) = true) es -> Forall (fun e => f e = false) es.
Proof.
  intros H. eapply Forall_impl; [exact H|]. intros e He. now apply negb_true_iff.
Qed.

Lemma entry_of_group t e : is_group e = false -> negb (is_entry_of t e) = true.
Proof. destruct e; cbn; try reflexivity. discriminate. Qed.

Lemma entry_of_late t e : late e = true -> negb (is_entry_of t e) = true.
Proof. intros H. apply entry_of_group. unfold late in H. now destruct (is_group e). Qed.

Lemma entry_of_quiet t e : quiet e = true -> negb (is_entry_of t e) = true.
Proof. intros H. apply entry_of_group. unfold quiet in H. now destruct (is_group e). Qed.

(** ** What follows the marks of the step group *)

Section Entering.
Context `{Ext : Externals}.
Variables (fuel : nat) (cfg : config) (t : target) (version : value).

Lemma group_run_prepend w h o_of gh npmc known e0 es :
  Forall (fun e => is_entry_of t e = false) e0 ->
  group_run fuel cfg w (h ++ e0) t version o_of gh npmc known es ->
  group_run fuel cfg w h t version o_of gh npmc known (e0 ++ es).
Proof.
  intros H0 [Hq | (pre & rest & ip & cl & s' & st & Heq & Hpre & Hrest & Hk)].
  - left. apply Forall_app. now split.
  - right. exists (e0 ++ pre), rest, ip, cl, s', st. cbn zeta in *.
    replace (h ++ (e0 ++ pre) ++ [EvGroup t true version])
      with ((h ++ e0) ++ pre ++ [EvGroup t true version])
      by (now rewrite <- !app_assoc).
    split; [rewrite Heq; now rewrite <- (app_assoc e0 pre)|].
    split; [apply Forall_app; now split|]. split; [exact Hrest|].
    intros Hkn. apply in_or_app. right. now apply Hk.
Qed.

Lemma group_run_append w h o_of gh npmc known es e1 :
  group_run fuel cfg w h t version o_of gh npmc known es ->
  Forall (fun e => is_entry_of t e = false) e1 ->
  group_run fuel cfg w h t version o_of gh npmc known (es ++ e1).
Proof.
  intros [Hq | (pre & rest & ip & cl & s' & st & Heq & Hpre & Hrest & Hk)] H1.
  - left. apply Forall_app. now split.
  - right. exists pre, (rest ++ e1), ip, cl, s', st. cbn zeta in *.
    split.
    { rewrite Heq. rewrite <- (app_assoc pre). cbn [app].
      now rewrite <- (app_assoc _ rest e1). }
    split; [exact Hpre|]. split; [|exact Hk].
    rewrite app_assoc. apply Forall_app. now split.
Qed.

Lemma enters_quiet o_of gh npmc known {A} (m : M A) :
  emits (fun e => negb (is_entry_of t e)) m ->
  enters fuel cfg t version o_of gh npmc known m.
Proof. intros Hm w h s. left. apply Forall_negb, Hm. Qed.

Lemma enters_bind_quiet o_of gh npmc known {A B} (m : M A) (f : A -> M B) :
  emits (fun e => negb (is_entry_of t e)) m ->
  (forall a, enters fuel cfg t version o_of gh npmc known (f a)) ->
  enters fuel cfg t version o_of gh npmc known (m ≫= f).
Proof.
  intros Hm Hf w h s. rewrite run_bind. pose proof (Forall_negb _ _ (Hm w h s)) as Hq.
  destruct (out (m w h s)) as [a| |]; cbn [emitted]; [|now left ..].
  apply group_run_prepend; [exact Hq | apply Hf].
Qed.

Lemma enters_then_quiet o_of gh npmc known {A B} (m : M A) (f : A -> M B) :
  enters fuel cfg t version o_of gh npmc known m ->
  (forall a, emits (fun e => negb (is_entry_of t e)) (f a)) ->
  enters fuel cfg t version o_of gh npmc known (m ≫= f).
Proof.
  intros Hm Hf w h s. rewrite run_bind. specialize (Hm w h s).
  destruct (out (m w h s)) as [a| |]; cbn [emitted]; [|exact Hm ..].
  apply group_run_append; [exact Hm | apply Forall_negb, Hf].
Qed.

Lemma release_emits_marks P scripts isPreRelease changelog t' o gh npmc :
  (forall e, is_group e = false -> is_validate e = false -> P e = true) ->
  (forall b, P (EvGroup t' b version) = true) ->
  emits P (release fuel cfg scripts version isPreRelease changelog t' o gh npmc).
Proof.
  intros HP Hm. unfold release.
  apply emits_bind; [apply emits_emit, Hm | intros _].
  apply emits_bind; [now apply release_steps_emits | intros _].
  apply emits_bind; [|intros _; apply emits_emit, Hm].
  apply hook_emits. intros op r. now apply HP.
Qed.

(** A call of the step group: its mark, and then its sub-steps. *)
Lemma enters_release scripts isPreRelease changelog o gh npmc :
  enters fuel cfg t version (fun _ => o) gh npmc false
         (release fuel cfg scripts version isPreRelease changelog t o gh npmc).
Proof.
  intros w h s. right.
  assert (Hs : forall w h s,
             Forall (fun e => is_entry_of t e = false)
                    (emitted (release_steps fuel cfg version isPreRelease changelog t o gh npmc
                                            w h s))).
  { intros w0 h0 s0. apply Forall_negb.
    apply (release_steps_emits (fun e => negb (is_entry_of t e))).
    intros e He _. now apply entry_of_group. }
  assert (Hh : forall w h s,
             Forall (fun e => is_entry_of t e = false)
                    (emitted ((hook (prop scripts "afterRelease")
                               ≫= fun _ => emit (EvGroup t false version)) w h s))).
  { intros w0 h0 s0. apply Forall_negb.
    apply (emits_bind (fun e => negb (is_entry_of t e))).
    - apply hook_emits. reflexivity.
    - intros _. now apply emits_emit. }
  unfold release. rewrite run_bind. cbn [emit out emitted final].
  rewrite run_bind.
  destruct (out (release_steps fuel cfg version isPreRelease changelog t o gh npmc
                               w (h ++ [EvGroup t true version]) s)) as [[]| |] eqn:Ho;
    cbn [emitted].
  - eexists [], _, isPreRelease, changelog, s, VUndef. cbn zeta. cbn [app].
    split; [reflexivity|]. split; [constructor|]. split; [|discriminate].
    apply Forall_app. split; [apply Hs | apply Hh].
  - exists [], [], isPreRelease, changelog, s, VUndef. cbn zeta. cbn [app].
    rewrite app_nil_r. split; [reflexivity|]. split; [constructor|].
    split; [apply Hs | discriminate].
  - exists [], [], isPreRelease, changelog, s, VUndef. cbn zeta. cbn [app].
    rewrite app_nil_r. split; [reflexivity|]. split; [constructor|].
    split; [apply Hs | discriminate].
Qed.

End Entering.

Section EnteringTwice.
Context `{Ext : Externals}.
Variables (fuel : nat) (cfg : config).

(** The answer of the git client of the distribution repository
    becomes the tag gate of its step group. *)
Lemma enters_bind_tag version gh npmc {B} (f : value -> M B) :
  (forall v, enters fuel cfg Dist version (fun _ => dist_group cfg v) gh npmc false (f v)) ->
  enters fuel cfg Dist version (dist_group cfg) gh npmc true (git Dist GShouldTag ≫= f).
Proof.
  intros Hf w h s. rewrite run_bind. cbn [git out emitted final].
  destruct (w_git w h Dist GShouldTag) as [v|rej]; cbn [of_result emitted].
  - destruct (Hf v w (h ++ [EvGit Dist GShouldTag (Returned v)]) s)
      as [Hq | (pre & rest & ip & cl & s' & st & Heq & Hpre & Hrest & _)].
    + left. cbn [app]. constructor; [reflexivity | exact Hq].
    + right. exists (EvGit Dist GShouldTag (Returned v) :: pre), rest, ip, cl, s', v.
      cbn zeta in *.
      replace (h ++ (EvGit Dist GShouldTag (Returned v) :: pre) ++ [EvGroup Dist true version])
        with ((h ++ [EvGit Dist GShouldTag (Returned v)]) ++ pre ++ [EvGroup Dist true version])
        by (now rewrite <- app_assoc).
      split; [cbn [app]; now rewrite Heq|].
      split; [constructor; [reflexivity | exact Hpre]|].
      split; [exact Hrest|]. intros _. now left.
  - left. repeat constructor.
Qed.

Lemma dist_release_emits_marks P version isPreRelease changelog gh npmc :
  (forall e, is_group e = false -> is_validate e = false -> P e = true) ->
  (forall b, P (EvGroup Dist b version) = true) ->
  emits P (dist_release fuel cfg version isPreRelease changelog gh npmc).
Proof.
  intros HP Hm. unfold dist_release, run.
  destruct (truthy _); [|apply emits_ret].
  do 6 (apply emits_bind; [emits_go HP | intros]).
  apply emits_bind; [now apply release_emits_marks | intros].
  emits_go HP.
Qed.

Lemma enters_dist_release version isPreRelease changelog gh npmc :
  enters fuel cfg Dist version (dist_group cfg) gh npmc true
         (dist_release fuel cfg version isPreRelease changelog gh npmc).
Proof.
  assert (HP : forall e, is_group e = false -> negb (is_entry_of Dist e) = true)
    by apply entry_of_group.
  unfold dist_release, run.
  destruct (truthy _); [|apply enters_quiet, emits_ret].
  do 3 (apply enters_bind_quiet; [emits_go HP | intros]).
  apply enters_bind_tag. intros shouldTag.
  do 2 (apply enters_bind_quiet; [emits_go HP | intros]).
  apply enters_then_quiet; [apply enters_release | intros; emits_go HP].
Qed.

Lemma enters_carry_out_primary p :
  enters fuel cfg Primary (p_version p) (fun _ => primary_group cfg)
         (p_ghClient p) (p_npmClient p) false (carry_out fuel cfg p).
Proof.
  unfold carry_out.
  apply enters_bind_quiet.
  { apply bump_and_stage_emits. intros e He _. now apply entry_of_late. }
  intros changelog.
  apply enters_bind_quiet.
  { apply dist_prepare_emits. intros e He _. now apply entry_of_late. }
  intros _.
  apply enters_then_quiet; [apply enters_release|]. intros _.
  apply emits_bind.
  { apply dist_release_emits_marks; [intros e He _; now apply entry_of_group|].
    intros []; reflexivity. }
  intros _.
  apply emits_bind; [|intros; apply emits_ret].
  apply summary_emits. intros e He _. now apply entry_of_late.
Qed.

Lemma enters_carry_out_dist p :
  enters fuel cfg Dist (p_version p) (dist_group cfg)
         (p_ghDistClient p) (p_npmDistClient p) true (carry_out fuel cfg p).
Proof.
  unfold carry_out.
  apply enters_bind_quiet.
  { apply bump_and_stage_emits. intros e He _. now apply entry_of_late. }
  intros changelog.
  apply enters_bind_quiet.
  { apply dist_prepare_emits. intros e He _. now apply entry_of_late. }
  intros _.
  apply enters_bind_quiet.
  { apply release_emits_marks; [intros e He _; now apply entry_of_group|].
    intros []; reflexivity. }
  intros _.
  apply enters_then_quiet; [apply enters_dist_release|]. intros _.
  apply emits_bind; [|intros; apply emits_ret].
  apply summary_emits. intros e He _. now apply entry_of_late.
Qed.

(** The four clients that [prepare] gives are those built from the
    configuration and the URL of the remote. *)
Lemma prepare_clients w h s p :
  out (prepare cfg w h s) = Ok p ->
  exists url,
    p_ghClient p = ghClient_of cfg url /\ p_ghDistClient p = ghDistClient_of cfg url /\
    p_npmClient p = npmClient_of cfg /\ p_npmDistClient p = npmDistClient_of cfg.
Proof.
  revert p.
  change (wp (prepare cfg) w h s (fun r =>
    forall p, out r = Ok p ->
      exists url,
        p_ghClient p = ghClient_of cfg url /\ p_ghDistClient p = ghDistClient_of cfg url /\
        p_npmClient p = npmClient_of cfg /\ p_npmDistClient p = npmDistClient_of cfg)).
  unfold prepare. apply wp_bind, wp_if_emit. wp_red.
  wp_steps. wp_case; [|intros ? [=]].
  wp_steps. wp_case; [|intros ? [=]].
  wp_steps. wp_case; [|intros ? [=]].
  wp_steps.
  apply (wp_emits quiet); [now apply resolve_emits|]. intros r1 _.
  destruct (out r1) as [[latest changelog]| |]; [| intros ? [=] ..].
  unfold Version_validate. wp_steps.
  destruct (truthy (st_version (final r1))).
  - wp_steps. apply wp_isPreRelease. wp_red. wp_steps.
    intros p [= <-]. eexists. cbn. repeat split.
  - wp_steps. intros ? [=].
Qed.

Lemma tasks_group_run w h s :
  exists url version,
    forall t,
      group_run fuel cfg w h t version (group_of cfg t) (gh_client_of cfg t url)
                (npm_client_of cfg t)
                (match t with Dist => true | Primary => false end)
                (emitted (tasks fuel cfg w h s)).
Proof.
  destruct (tasks_run fuel cfg w h s) as (_ & _ & Hem). cbn zeta in Hem. rewrite Hem.
  assert (Hrep : forall t {A} (o : outcome A),
             Forall (fun e => is_entry_of t e = false) (report cfg o)).
  { intros t A o. apply Forall_negb. eapply Forall_impl; [apply report_quiet|].
    intros e. apply entry_of_quiet. }
  assert (Hprep : forall t, Forall (fun e => is_entry_of t e = false)
                                   (emitted (prepare cfg w h s))).
  { intros t. apply Forall_negb. apply (prepare_emits (fun e => negb (is_entry_of t e))).
    intros e [He|He] _; [now apply entry_of_late | now destruct e]. }
  unfold tasks_body. rewrite run_bind.
  destruct (out (prepare cfg w h s)) as [p| |] eqn:Hp; cbn [emitted out].
  - destruct (prepare_clients w h s p Hp) as (url & G1 & G2 & N1 & N2).
    exists url, (p_version p). intros t.
    apply group_run_append; [|apply Hrep].
    apply group_run_prepend; [apply Hprep|].
    destruct t; cbn [gh_client_of npm_client_of group_of].
    + rewrite <- G1, <- N1. apply enters_carry_out_primary.
    + rewrite <- G2, <- N2. apply enters_carry_out_dist.
  - exists VUndef, VUndef. intros t. left. apply Forall_app. split; [apply Hprep | apply Hrep].
  - exists VUndef, VUndef. intros t. left. apply Forall_app. split; [apply Hprep | apply Hrep].
Qed.

(** In a run that is not interactive, a step group whose commit gate
    is true begins with the commit. *)
Lemma release_steps_commit_first version isPreRelease changelog t o gh npmc w h s :
  isInteractive cfg = false ->
  truthy (prop (g_git o) "commit") = true ->
  exists rest,
    emitted (release_steps fuel cfg version isPreRelease changelog t o gh npmc w h s)
    = EvGit t GCommit (w_git w h t GCommit) :: rest.
Proof.
  intros Hi Hc. unfold release_steps. rewrite Hi. cbn [negb]. cbn zeta.
  assert (Hshow : show (prop (g_git o) "commit") (void (git t GCommit)) = void (git t GCommit))
    by (unfold show; now rewrite Hc).
  rewrite Hshow. rewrite run_bind.
  assert (Hrun : void (git t GCommit) w h s
                 = {| out := match w_git w h t GCommit with
                             | Returned _ => Ok tt
                             | Raised r => Throw (Rejected r)
                             end;
                      emitted := [EvGit t GCommit (w_git w h t GCommit)];
                      final := s |}).
  { unfold void. rewrite run_bind. cbn [git out emitted final].
    destruct (w_git w h t GCommit); reflexivity. }
  rewrite Hrun. cbn [out emitted final].
  destruct (w_git w h t GCommit); cbn [emitted app]; eexists; reflexivity.
Qed.

Lemma commit_gate_of t shouldTag :
  prop (g_git (group_of cfg t shouldTag)) "commit" = prop (git_options cfg t) "commit".
Proof.
  destruct t; [reflexivity|]. cbn [group_of dist_group g_git git_options].
  unfold prop. now rewrite lookup_insert_ne.
Qed.

End EnteringTwice.

Section DualRepo.
Context `{Ext : Externals}.

Lemma dist_entry_position dist v (gp gq : list event) v' :
  (gp ++ EvGroup Dist true v' :: gq) `prefix_of` full_groups dist v ->
  dist = true /\ v' = v /\ In (EvGroup Primary false v) gp.
Proof.
  intros [k Hk]. unfold full_groups in Hk. cbn [app] in Hk.
  destruct gp as [|x1 [|x2 [|x3 gp]]]; cbn in Hk.
  - discriminate Hk.
  - injection Hk as _ Hk. discriminate Hk.
  - injection Hk as <- <- Hk. destruct dist; [|discriminate Hk].
    injection Hk as <- _. repeat split. right. now left.
  - injection Hk as _ _ Hk. destruct dist; [|discriminate Hk].
    injection Hk as _ Hk. destruct gp; cbn in Hk; [|destruct gp]; discriminate Hk.
Qed.

(** C6. The marks of the step group in a run are a beginning of the
    sequence: primary group entered, primary group returned, and, when
    a distribution repository is configured, distribution group
    entered, distribution group returned; all with the one version that
    passed the validation. A run that succeeds has the whole sequence:
    the step group is entered twice with a distribution repository and
    once without, and no run enters it more often. The group of the
    distribution repository is entered only after the primary group has
    returned, and only when a distribution repository is configured.
    What follows the mark of a group begins with the run of the
    sub-steps for that repository: with its options (for the
    distribution repository, its tag gate being what its git client
    answered just before), with the release client and the publish
    client built for it, and with the one version; so, in a run that is
    not interactive, a group whose commit gate is true begins with a
    commit in its own repository. *)
Theorem C6_dual_repo (fuel : nat) (cfg : config) (w : world) (h : list event) (s : store) :
  let r := tasks fuel cfg w h s in
  let dist := truthy (d_repo (o_dist (cfg_options cfg))) in
  exists v url,
    groups (emitted r) `prefix_of` full_groups dist v /\
    count is_entry (emitted r) <= (if dist then 2 else 1) /\
    (forall res, out r = Ok res ->
                 groups (emitted r) = full_groups dist v /\
                 count is_entry (emitted r) = (if dist then 2 else 1) /\
                 tr_version res = v) /\
    (groups (emitted r) <> [] -> In (EvValidate v) (emitted r) /\ truthy v = true) /\
    (forall pre post v',
        emitted r = pre ++ EvGroup Dist true v' :: post ->
        dist = true /\ v' = v /\ In (EvGroup Primary false v) pre) /\
    (forall t pre post v',
        emitted r = pre ++ EvGroup t true v' :: post ->
        v' = v /\
        (exists shouldTag isPreRelease changelog s',
            emitted (release_steps fuel cfg v isPreRelease changelog t
                                   (group_of cfg t shouldTag) (gh_client_of cfg t url)
                                   (npm_client_of cfg t)
                                   w (h ++ pre ++ [EvGroup t true v']) s')
            `prefix_of` post /\
            (t = Dist -> In (EvGit Dist GShouldTag (Returned shouldTag)) pre)) /\
        (isInteractive cfg = false ->
         truthy (prop (git_options cfg t) "commit") = true ->
         exists post',
           post = EvGit t GCommit (w_git w (h ++ pre ++ [EvGroup t true v']) t GCommit)
                  :: post')).
Proof.
  intros r dist. subst r.
  destruct (tasks_has_shape fuel cfg w h s) as (pre0 & Hpre & Hcase).
  destruct (tasks_group_run fuel cfg w h s) as (url & version & HG).
  pose proof (quiet_groups _ Hpre) as Gpre.
  assert (Hcount : forall v, groups (emitted (tasks fuel cfg w h s)) `prefix_of` full_groups dist v ->
                             count is_entry (emitted (tasks fuel cfg w h s))
                             <= (if dist then 2 else 1)).
  { intros v Hp. rewrite <- (count_groups is_entry) by apply is_entry_group.
    apply (count_prefix is_entry) in Hp. unfold full_groups in Hp.
    destruct dist; cbn in Hp; exact Hp. }
  assert (Hdistpos : forall v, groups (emitted (tasks fuel cfg w h s)) `prefix_of` full_groups dist v ->
            forall pre post v',
              emitted (tasks fuel cfg w h s) = pre ++ EvGroup Dist true v' :: post ->
              dist = true /\ v' = v /\ In (EvGroup Primary false v) pre).
  { intros v Hp p q v' Heq. rewrite Heq, groups_app in Hp. cbn in Hp.
    destruct (dist_entry_position _ _ _ _ _ Hp) as (Hd & Hv & Hin).
    repeat split; try assumption. now apply groups_In. }
  assert (Hsteps : forall v, groups (emitted (tasks fuel cfg w h s)) `prefix_of` full_groups dist v ->
            forall t pre post v',
              emitted (tasks fuel cfg w h s) = pre ++ EvGroup t true v' :: post ->
              v' = v /\
              (exists shouldTag isPreRelease changelog s',
                  emitted (release_steps fuel cfg v isPreRelease changelog t
                                         (group_of cfg t shouldTag) (gh_client_of cfg t url)
                                         (npm_client_of cfg t)
                                         w (h ++ pre ++ [EvGroup t true v']) s')
                  `prefix_of` post /\
                  (t = Dist -> In (EvGit Dist GShouldTag (Returned shouldTag)) pre)) /\
              (isInteractive cfg = false ->
               truthy (prop (git_options cfg t) "commit") = true ->
               exists post',
                 post = EvGit t GCommit (w_git w (h ++ pre ++ [EvGroup t true v']) t GCommit)
                        :: post')).
  { intros v Hp t pre post v' Heq.
    assert (Hent : is_entry_of t (EvGroup t true v') = true) by (now destruct t).
    assert (Hv : v' = v).
    { assert (Hin : In (EvGroup t true v') (groups (emitted (tasks fuel cfg w h s)))).
      { apply In_groups; [reflexivity|]. rewrite Heq. apply in_or_app. right. now left. }
      destruct Hp as [k Hk].
      assert (Hfull : In (EvGroup t true v') (full_groups dist v))
        by (rewrite Hk; apply in_or_app; now left).
      unfold full_groups in Hfull. destruct dist; cbn in Hfull;
        repeat (destruct Hfull as [Hfull|Hfull]; [congruence|]); destruct Hfull. }
    destruct (HG t) as [Hq | (p0 & rest & ip & cl & s' & st & Heq0 & Hp0 & Hrest & Hk)].
    { exfalso. exact (Forall_split_false (is_entry_of t) _ _ _ _ Hq Heq Hent). }
    cbn zeta in Heq0, Hrest. rewrite Heq0 in Heq.
    destruct (marker_unique (is_entry_of t) _ _ _ _ _ _ Heq Hp0 Hrest Hent)
      as (-> & Hmark & ->).
    injection Hmark as Hversion. subst v'. subst version.
    split; [reflexivity|]. split.
    - exists st, ip, cl, s'. split; [now exists rest|].
      intros ->. now apply Hk.
    - intros Hi Hc.
      destruct (release_steps_commit_first fuel cfg v ip cl t (group_of cfg t st)
                  (gh_client_of cfg t url) (npm_client_of cfg t)
                  w (h ++ p0 ++ [EvGroup t true v]) s' Hi) as [rest0 E].
      { now rewrite commit_gate_of. }
      exists (rest0 ++ rest). now rewrite E. }
  destruct Hcase as [(Hno & He) | [(v & post & Ho & He & Hv & Hpost) | (v & post & He & Hv & Hpost & H2 & H3 & H4)]].
  - assert (G : groups (emitted (tasks fuel cfg w h s)) = []) by now rewrite He.
    assert (Hp : groups (emitted (tasks fuel cfg w h s)) `prefix_of` full_groups dist VUndef)
      by (rewrite G; apply prefix_nil).
    exists VUndef, url. split; [exact Hp|]. split; [exact (Hcount VUndef Hp)|].
    split; [intros res Hres; exfalso; now apply (Hno res)|].
    split; [rewrite G; now intros []|].
    split; [exact (Hdistpos VUndef Hp) | exact (Hsteps VUndef Hp)].
  - assert (G : groups (emitted (tasks fuel cfg w h s)) = []).
    { rewrite He, groups_app, Gpre. cbn. now apply quiet_groups. }
    assert (Hp : groups (emitted (tasks fuel cfg w h s)) `prefix_of` full_groups dist VUndef)
      by (rewrite G; apply prefix_nil).
    exists VUndef, url. split; [exact Hp|]. split; [exact (Hcount VUndef Hp)|].
    split; [intros res Hres; rewrite Ho in Hres; discriminate Hres|].
    split; [rewrite G; now intros []|].
    split; [exact (Hdistpos VUndef Hp) | exact (Hsteps VUndef Hp)].
  - assert (G : groups (emitted (tasks fuel cfg w h s)) = groups post).
    { rewrite He, groups_app, Gpre. reflexivity. }
    assert (Hp : groups (emitted (tasks fuel cfg w h s)) `prefix_of` full_groups dist v)
      by (rewrite G; exact H2).
    exists v, url. split; [exact Hp|]. split; [exact (Hcount v Hp)|].
    split; [|split; [|split; [exact (Hdistpos v Hp) | exact (Hsteps v Hp)]]].
    + intros res Hres. destruct (H3 res Hres) as (Hg & _ & Hver).
      split; [now rewrite G|]. split; [|exact Hver].
      rewrite <- (count_groups is_entry) by apply is_entry_group.
      rewrite G, Hg. unfold full_groups. subst dist.
      now destruct (truthy (d_repo (o_dist (cfg_options cfg)))).
    + intros _. split; [|exact Hv]. rewrite He. apply in_or_app. right. now left.
Qed.

End DualRepo.

(** ** Gating *)



Section Gating.
Context `{Ext : Externals}.

Lemma release_gates_off_emits fuel cfg scripts version isPreRelease changelog t o gh npmc :
  gates_off o ->
  emits (fun e => negb (is_gated_step e))
        (release fuel cfg scripts version isPreRelease changelog t o gh npmc).
Proof.
  intros Hg. unfold release.
  apply emits_bind; [now apply emits_emit | intros _].
  apply emits_bind; [now apply release_steps_gates_off_emits | intros _].
  apply emits_bind; [|intros _; now apply emits_emit].
  apply hook_emits. reflexivity.
Qed.



Lemma tasks_gates_off_emits fuel cfg :
  gates_off (primary_group cfg) ->
  truthy (d_repo (o_dist (cfg_options cfg))) = false ->
  emits (fun e => negb (is_gated_step e)) (tasks fuel cfg).
Proof.
  intros Hg Hd. unfold tasks.
  assert (HP : forall e, is_substep e = false -> negb (is_gated_step e) = true).
  { intros e He. unfold is_substep in He. apply orb_false_elim in He as [-> _]. reflexivity. }
  apply emits_catch.
  - unfold tasks_body. apply emits_bind.
    { apply prepare_emits. intros e _. apply HP. }
    intros p. unfold carry_out.
    apply emits_bind; [apply bump_and_stage_emits; intros e _; apply HP | intros changelog].
    apply emits_bind; [apply dist_prepare_emits; intros e _; apply HP | intros _].
    apply emits_bind; [now apply release_gates_off_emits | intros _].
    apply emits_bind.
    { unfold dist_release. rewrite Hd. apply emits_ret. }
    intros _.
    apply emits_bind; [apply summary_emits; intros e _; apply HP | intros _; apply emits_ret].
  - intros err. apply emits_bind.
    { destruct (isCollectMetrics cfg); [now apply emits_emit | apply emits_ret]. }
    intros _. apply emits_bind; [now apply emits_emit | intros _; apply emits_throw].
Qed.




End Gating.

(** ** The token check *)

Lemma wp_eq {A} (m : M A) w h s r (Q : res A -> Prop) :
  m w h s = r -> Q r -> wp m w h s Q.
Proof. intros <-. exact id. Qed.

Section TokenCheck.
Context `{Ext : Externals}.









End TokenCheck.

(** * Concrete runs *)

(** The end-to-end run: one prior tag 1.0.0 and the increment [patch];
    the version is 1.0.1, the manifest is bumped, staged and committed,
    the tag is made, and with the release and publish gates off the run
    succeeds without a call to the API. *)
Example end_to_end :
  let r := tasks 1 plain_config calm [] store_init in
  out r = Ok {| tr_changelog := VStr "* Fix the parser"; tr_latestVersion := VStr "1.0.0";
                tr_version := VStr "1.0.1" |} /\
  count is_network (emitted r) = 0 /\
  emitted r =
  [EvGit Primary GInit (Returned VUndef);
   EvGit Primary GValidate (Returned VUndef);
   EvGit Dist (GValidateStageDir (VStr ".stage")) (Returned VUndef);
   EvBump (VStr "patch") (VBool false) (BumpOk (VStr "1.0.1"));
   EvLog Llog "Let's release my-package (1.0.0...1.0.1)";
   EvGit Primary (GGetChangelog VUndef) (Returned (VStr "* Fix the parser"));
   EvLog Linfo "Changelog:* Fix the parser";
   EvValidate (VStr "1.0.1");
   EvShell (SBump (VStr "package.json") (VStr "1.0.1")) (Returned VUndef);
   EvGit Primary (GStage (VStr "package.json")) (Returned VUndef);
   EvGit Primary GStageDir (Returned VUndef);
   EvGit Primary GStatus (Returned (VStr "M package.json"));
   EvLog Linfo "Changeset:M package.json";
   EvGroup Primary true (VStr "1.0.1");
   EvGit Primary GCommit (Returned VUndef);
   EvGit Primary GTag (Returned VUndef);
   EvGit Primary GPush (Returned VUndef);
   EvGroup Primary false (VStr "1.0.1");
   EvLog Llog "Done"].
Proof. vm_compute. repeat split. Qed.

(** A release that the API refuses twice with 502 succeeds at the third
    call, after two warnings. *)
Example third_time_lucky :
  let r := GitHub_release (ghClient_of releasing_config remote) the_version (VBool false)
                          VUndef flaky [] store_init in
  out r = Ok (Some release_answer) /\
  count is_create (emitted r) = 3 /\
  count (fun e => match e with EvLog Lwarn _ => true | _ => false end) (emitted r) = 2 /\
  gh_isReleased (st_gh (final r)) = VBool true.
Proof. vm_compute. repeat split. Qed.

Lemma C1_retry_policy_witness :
  let r := GitHub_release (ghClient_of releasing_config remote) the_version (VBool false)
                          VUndef refusing [] store_init in
  count is_create (emitted r) = 1 /\
  out r = Throw (GithubClientError "422 (Validation Failed)").
Proof.
  destruct (proj1 (C1_retry_policy (ghClient_of releasing_config remote) refusing [] store_init)
                  the_version (VBool false) VUndef eq_refl) as (_ & _ & H).
  destruct (H validation_failed eq_refl eq_refl) as (H1 & _ & H3).
  split; [exact H1 | exact H3].
Defined.

(** The passcode is asked once, and the second call of the command
    carries it. *)
Lemma C3_otp_flow_witness :
  publish 2 (npmClient_of publishing_config) publish_1_0_1 registry_with_otp [] store_init =
  {| out := Ok tt;
     emitted :=
       [EvShell (SRun "npm publish . --tag latest   " (VBool true) (VBool false))
                (Raised otp_required);
        EvPrompt "otp" (VStr "123456");
        EvShell (SRun "npm publish . --tag latest  --otp 123456 " (VBool true) (VBool false))
                (Returned VUndef)];
     final := set_published Primary (VBool true) store_init |}.
Proof.
  rewrite (proj1 (C3_otp_flow 1 (npmClient_of publishing_config) publish_1_0_1 "my-package"
                    registry_with_otp [] store_init otp_required eq_refl eq_refl)
                 eq_refl eq_refl eq_refl).
  vm_compute. reflexivity.
Defined.

(** Without an operator, the same failure ends the run, and nothing is
    asked. *)
Example otp_unattended :
  let r := publish 2 (npmClient_of unattended_config) publish_1_0_1 registry_with_otp []
                   store_init in
  out r = Throw (Rejected otp_required) /\ count is_prompt (emitted r) = 0 /\
  count is_publish_run (emitted r) = 1.
Proof. vm_compute. repeat split. Qed.

(** Another failure is thrown as it is, operator or not. *)
Example publish_refused :
  let r := publish 2 (npmClient_of publishing_config) publish_1_0_1 registry_refusing []
                   store_init in
  out r = Throw (Rejected not_logged_in) /\ count is_prompt (emitted r) = 0 /\
  count is_publish_run (emitted r) = 1.
Proof. vm_compute. repeat split. Qed.

(** C4 as stated fails: a release in a dry run succeeds and contacts
    nothing, but leaves the client unmarked, so that the summary of the
    run has no link of a release; the same release for real marks the
    client, and the link is logged. *)
Lemma C4_dry_run_marks_nothing :
  let dry := GitHub_release (ghClient_of dry_config remote) the_version (VBool false) VUndef
                            granted [] store_init in
  let real := GitHub_release (ghClient_of releasing_config remote) the_version (VBool false)
                             VUndef granted [] store_init in
  out dry = Ok None /\
  gh_isReleased (st_gh (final dry)) = VUndef /\
  final dry = store_init /\
  gh_isReleased (st_gh (final real)) = VBool true /\
  count (fun e => match e with
                  | EvLog Llog msg =>
                    String.eqb msg "https://github.com/webpro/release-it/releases/tag/1.0.1"
                  | _ => false
                  end) (emitted (tasks 1 dry_config granted [] store_init)) = 0 /\
  count (fun e => match e with
                  | EvLog Llog msg =>
                    String.eqb msg "https://github.com/webpro/release-it/releases/tag/1.0.1"
                  | _ => false
                  end) (emitted (tasks 1 releasing_config granted [] store_init)) = 1.
Proof. vm_compute. repeat split. Qed.

Lemma C4_dry_run_witness :
  let r := GitHub_release (ghClient_of dry_config remote) the_version (VBool false) VUndef
                          refusing [] store_init in
  out r = Ok None /\ count is_network (emitted r) = 0 /\ final r = store_init /\
  emitted r = [EvLog Lexec "octokit releases#createRelease"; EvLog Ldry EmptyString].
Proof.
  exact (proj1 (C4_dry_run refusing [] store_init) (ghClient_of dry_config remote)
               the_version (VBool false) VUndef eq_refl).
Defined.



(** With a distribution repository the step group is entered twice,
    and what follows the second mark is the commit in the distribution
    repository; without one it is entered once. *)
Lemma C6_dual_repo_witness :
  (let r := tasks 1 dual_release_config granted [] store_init in
   let es := emitted r in
   count is_entry es = 2 /\
   (exists post', drop 34 es = EvGit Dist GCommit (Returned VUndef) :: post') /\
   count (created Primary) es = 1 /\ count (created Dist) es = 1 /\
   st_published (final r) = VBool true /\
   st_published_dist (final r) = VBool true) /\
  count is_entry (emitted (tasks 1 plain_config calm [] store_init)) = 1.
Proof.
  split.
  - destruct (C6_dual_repo 1 dual_release_config granted [] store_init)
      as (v & url & _ & _ & H & _ & _ & H6).
    split; [|split; [|vm_compute; auto]].
    + exact (proj1 (proj2 (H {| tr_changelog := VStr "* Fix the parser";
                                tr_latestVersion := VStr "1.0.0";
                                tr_version := VStr "1.0.1" |} eq_refl))).
    + assert (Heq : emitted (tasks 1 dual_release_config granted [] store_init)
                    = take 33 (emitted (tasks 1 dual_release_config granted [] store_init))
                      ++ EvGroup Dist true (VStr "1.0.1")
                      :: drop 34 (emitted (tasks 1 dual_release_config granted [] store_init)))
        by (vm_compute; reflexivity).
      destruct (H6 Dist _ _ _ Heq) as (_ & _ & Hc).
      assert (Hi : isInteractive dual_release_config = false) by reflexivity.
      assert (Hg : truthy (prop (git_options dual_release_config Dist) "commit") = true)
        by (vm_compute; reflexivity).
      destruct (Hc Hi Hg) as [post' Hpost]. exists post'. exact Hpost.
  - destruct (C6_dual_repo 1 plain_config calm [] store_init) as (v & url & _ & _ & H & _).
    exact (proj1 (proj2 (H {| tr_changelog := VStr "* Fix the parser";
                              tr_latestVersion := VStr "1.0.0";
                              tr_version := VStr "1.0.1" |} eq_refl))).
Defined.

(** With no increment and nobody to choose one, the run ends in
    InvalidVersionError before anything is bumped or staged. *)
Lemma C7_validation_first_witness :
  let r := tasks 1 undecided_config calm [] store_init in
  out r = Throw InvalidVersionError /\
  Forall (fun e => is_bump_or_stage e = false) (emitted r).
Proof.
  apply (proj2 (C7_validation_first 1 undecided_config calm [] store_init) VUndef).
  - vm_compute. auto 20.
  - reflexivity.
Defined.




Example token_missing :
  let r := tasks 1 releasing_config calm [] store_init in
  out r = Throw (GithubTokenError (VStr "GITHUB_TOKEN")) /\
  emitted r =
  [EvGit Primary GInit (Returned VUndef);
   EvGit Primary GValidate (Returned VUndef);
   EvGit Dist (GValidateStageDir (VStr ".stage")) (Returned VUndef);
   EvError (GithubTokenError (VStr "GITHUB_TOKEN"))].
Proof. vm_compute. repeat split. Qed.

(** Before any release, the URL is the fallback, in which a version
    that is still undefined renders as nothing; after one, it is the URL
    that the API gave. *)
Lemma C10_release_url_witness :
  getReleaseUrl (ghClient_of releasing_config remote) gh_init =
  VStr "https://github.com/webpro/release-it/releases/tag/" /\
  getReleaseUrl (ghClient_of releasing_config remote)
    (st_gh (final (GitHub_release (ghClient_of releasing_config remote) the_version
                                  (VBool false) VUndef granted [] store_init))) =
  VStr "https://github.com/webpro/release-it/releases/tag/1.0.1".
Proof.
  split.
  - exact (proj1 (proj2 (C10_release_url (ghClient_of releasing_config remote) gh_init))
                 eq_refl).
  - apply (proj1 (C10_release_url (ghClient_of releasing_config remote)
             (st_gh (final (GitHub_release (ghClient_of releasing_config remote) the_version
                                           (VBool false) VUndef granted [] store_init))))).
    reflexivity.
Defined.

(** * More on the clients *)

(** ** Error messages *)

Lemma collapse_single_line b s : single_line (collapse_newlines b s) = true.
Proof.
  unfold single_line. revert b. induction s as [|c s IH]; intros b; [reflexivity|].
  cbn [collapse_newlines]. destruct (is_newline c) eqn:E.
  - destruct b; [apply IH|]. cbn. apply IH.
  - cbn. rewrite E. apply IH.
Qed.

Lemma collapse_length b s : String.length (collapse_newlines b s) <= String.length s.
Proof.
  revert b. induction s as [|c s IH]; intros b; [reflexivity|].
  cbn [collapse_newlines]. destruct (is_newline c).
  - destruct b; cbn; [specialize (IH true); lia | specialize (IH true); lia].
  - cbn. specialize (IH false). lia.
Qed.

Lemma collapse_id b s : single_line s = true -> collapse_newlines b s = s.
Proof.
  unfold single_line. revert b. induction s as [|c s IH]; intros b; [reflexivity|].
  cbn. destruct (is_newline c); [discriminate|]. cbn. intros H. now rewrite IH.
Qed.

(** X1. The message that [parseErrorMessage] makes of an error of the
    API is the status, and in brackets the message of the error on one
    line: no line feed or carriage return is left in it, it is never
    longer than the message, and a message that is on one line already
    is kept as it is. *)
Theorem X1_error_message_one_line (err : http_error) :
  exists m,
    parseErrorMessage err = (to_string (he_status err) ++ " (" ++ m ++ ")")%string /\
    single_line m = true /\
    String.length m <= String.length (he_message err) /\
    (single_line (he_message err) = true -> m = he_message err).
Proof.
  exists (collapse_newlines false (he_message err)).
  split; [reflexivity|]. split; [apply collapse_single_line|].
  split; [apply collapse_length | apply collapse_id].
Qed.

(** ** What create-release records *)

Section ReleaseState.
Context `{Ext : Externals}.

Lemma release_outcomes c version isPreRelease changelog w h s :
  let r := GitHub_release c version isPreRelease changelog w h s in
  match out r with
  | Ok (Some d) =>
    final r = set_gh (gh_target c) (released_with version d) s /\
    exists req, In (EvCreateRelease (gh_target c) req (NetOk d)) (emitted r)
  | Ok None => final r = s /\ truthy (prop (gh_options c) "isDryRun") = true
  | Throw e =>
    final r = s /\
    exists req err, In (EvCreateRelease (gh_target c) req (NetErr err)) (emitted r)
  | Pending => False
  end.
Proof.
  cbn zeta.
  change (wp (GitHub_release c version isPreRelease changelog) w h s (fun r =>
    match out r with
    | Ok (Some d) =>
      final r = set_gh (gh_target c) (released_with version d) s /\
      exists req, In (EvCreateRelease (gh_target c) req (NetOk d)) (emitted r)
    | Ok None => final r = s /\ truthy (prop (gh_options c) "isDryRun") = true
    | Throw e =>
      final r = s /\
      exists req err, In (EvCreateRelease (gh_target c) req (NetErr err)) (emitted r)
    | Pending => False
    end)).
  unfold GitHub_release. wp_steps.
  destruct (truthy (prop (gh_options c) "isDryRun")) eqn:Hdry.
  - wp_steps. auto.
  - unfold retry.
    do 3 (apply wp_retry_from, wp_release_attempt;
          match goal with |- context [w_create ?a ?b ?c ?d] =>
            let d1 := fresh "d" in let e1 := fresh "e" in
            destruct (w_create a b c d) as [d1|e1];
            [wp_red; split; [reflexivity|]; eexists; cbn; auto 10
            |destruct (no_retry (he_status e1));
             [wp_red; split; [reflexivity|]; eexists _, _; cbn; auto 10|]]
          end;
          wp_red).
    split; [reflexivity|]. eexists _, _; cbn; auto 10.
Qed.

End ReleaseState.

Section ReleaseRecords.
Context `{Ext : Externals}.

(** X2. Create-release changes the state of its client only when the
    API has created the release. A run that resolves with the data
    [d] has recorded the version, the URL and the upload URL of [d]
    and the mark of a release, in the state of its own target and
    nowhere else, and [d] is the answer of a call of this run; a dry
    run resolves with nothing and a run that fails has seen a call
    fail, and both leave the state as it was; no run is left
    unfinished. *)
Theorem X2_release_records (c : gh_client) (version isPreRelease changelog : value)
        (w : world) (h : list event) (s : store) :
  let r := GitHub_release c version isPreRelease changelog w h s in
  match out r with
  | Ok (Some d) =>
    final r = set_gh (gh_target c) (released_with version d) s /\
    exists req, In (EvCreateRelease (gh_target c) req (NetOk d)) (emitted r)
  | Ok None => final r = s /\ truthy (prop (gh_options c) "isDryRun") = true
  | Throw e =>
    final r = s /\
    exists req err, In (EvCreateRelease (gh_target c) req (NetErr err)) (emitted r)
  | Pending => False
  end.
Proof. apply release_outcomes. Qed.

End ReleaseRecords.

(** ** Uploads *)

Section Uploads.
Context `{Ext : Externals}.

Lemma content_type_truthy url filePath size :
  truthy (ur_content_type (upload_request_of url filePath size)) = true.
Proof.
  unfold upload_request_of, js_or. cbn.
  destruct (truthy (contentType (basename filePath))) eqn:E; [exact E | reflexivity].
Qed.

Lemma uploadAsset_run c filePath w h s :
  let r := GitHub_uploadAsset c filePath w h s in
  final r = s /\
  out r <> Pending /\
  Forall (upload_of c s filePath) (emitted r) /\
  match w_stat w h filePath with
  | Raised rej => emitted r = [EvStat filePath (Raised rej)] /\ out r = Throw (Rejected rej)
  | Returned size =>
    exists rest,
      emitted r = EvStat filePath (Returned size) :: rest /\
      Forall (fun e => match e with
                       | EvUploadAsset _ req _ => ur_content_length req = size
                       | EvStat _ _ => False
                       | _ => True
                       end) rest /\
      (forall d, out r = Ok d ->
                 exists req, In (EvUploadAsset (gh_target c) req (NetOk d)) rest)
  end.
Proof.
  cbn zeta.
  change (wp (GitHub_uploadAsset c filePath) w h s (fun r =>
    final r = s /\
    out r <> Pending /\
    Forall (upload_of c s filePath) (emitted r) /\
    match w_stat w h filePath with
    | Raised rej => emitted r = [EvStat filePath (Raised rej)] /\ out r = Throw (Rejected rej)
    | Returned size =>
      exists rest,
        emitted r = EvStat filePath (Returned size) :: rest /\
        Forall (fun e => match e with
                         | EvUploadAsset _ req _ => ur_content_length req = size
                         | EvStat _ _ => False
                         | _ => True
                         end) rest /\
        (forall d, out r = Ok d ->
                   exists req, In (EvUploadAsset (gh_target c) req (NetOk d)) rest)
    end)).
  unfold GitHub_uploadAsset. wp_steps. rewrite app_nil_r.
  pose proof (fun size : value =>
    content_type_truthy (gh_uploadUrl (gh_of (gh_target c) s)) filePath size) as Hct.
  destruct (w_stat w h filePath) as [size|rej]; wp_red.
  2: { repeat split; try discriminate. repeat constructor. }
  assert (Hup : forall r0, upload_of c s filePath
            (EvUploadAsset (gh_target c)
               (upload_request_of (gh_uploadUrl (gh_of (gh_target c) s)) filePath size) r0))
    by (intros r0; cbn; repeat split; apply (Hct size)).
  unfold retry.
  assert (Hfin : forall (o : outcome asset_data) rest,
             o <> Pending ->
             Forall (fun e => match e with
                              | EvUploadAsset t req _ =>
                                t = gh_target c /\
                                req = upload_request_of
                                        (gh_uploadUrl (gh_of (gh_target c) s)) filePath size
                              | EvStat _ _ => False
                              | _ => True
                              end) rest ->
             (forall d, o = Ok d ->
                        exists req, In (EvUploadAsset (gh_target c) req (NetOk d)) rest) ->
             s = s /\ o <> Pending /\
             Forall (upload_of c s filePath) (EvStat filePath (Returned size) :: rest) /\
             exists rest',
               EvStat filePath (Returned size) :: rest
               = EvStat filePath (Returned size) :: rest' /\
               Forall (fun e => match e with
                                | EvUploadAsset _ req _ => ur_content_length req = size
                                | EvStat _ _ => False
                                | _ => True
                                end) rest' /\
               (forall d, o = Ok d ->
                          exists req, In (EvUploadAsset (gh_target c) req (NetOk d)) rest')).
  { intros o rest Ho Hrest Hd. split; [reflexivity|]. split; [exact Ho|]. split.
    - constructor; [exact I|]. eapply Forall_impl; [exact Hrest|].
      intros [] He; try exact I. destruct He as [-> ->]. apply Hup.
    - exists rest. split; [reflexivity|]. split; [|exact Hd].
      eapply Forall_impl; [exact Hrest|].
      intros [] He; try exact He; try exact I. now destruct He as [_ ->]. }
  do 3 (apply wp_retry_from, wp_upload_attempt;
        match goal with |- context [w_upload ?a ?b ?c ?d] =>
          let d1 := fresh "d" in let e1 := fresh "e" in
          destruct (w_upload a b c d) as [d1|e1];
          [|destruct (no_retry (he_status e1))]
        end; wp_red; cbn [app];
        try (apply Hfin;
             [discriminate
             |repeat constructor
             |intros d0 [=]; subst; eexists; cbn; auto 10])).
Qed.

(** X3. An upload of a file never changes the state of the client and
    always ends. If the size of the file cannot be read, the run fails
    with that error and the API is not called. Otherwise the size is
    read once, before anything else, and every call that follows is
    for this client's target, to the upload URL recorded by
    create-release, for this file under its base name, with a content
    type that is never empty and the size that was read; an upload
    that resolves gives the answer of one of these calls. *)
Theorem X3_upload_requests (c : gh_client) (filePath : string)
        (w : world) (h : list event) (s : store) :
  let r := GitHub_uploadAsset c filePath w h s in
  final r = s /\
  out r <> Pending /\
  Forall (upload_of c s filePath) (emitted r) /\
  match w_stat w h filePath with
  | Raised rej => emitted r = [EvStat filePath (Raised rej)] /\ out r = Throw (Rejected rej)
  | Returned size =>
    exists rest,
      emitted r = EvStat filePath (Returned size) :: rest /\
      Forall (fun e => match e with
                       | EvUploadAsset _ req _ => ur_content_length req = size
                       | EvStat _ _ => False
                       | _ => True
                       end) rest /\
      (forall d, out r = Ok d ->
                 exists req, In (EvUploadAsset (gh_target c) req (NetOk d)) rest)
  end.
Proof. apply uploadAsset_run. Qed.

End Uploads.

Section UploadAssets.
Context `{Ext : Externals}.

Lemma count_none f es : Forall (fun e => f e = false) es -> count f es = 0.
Proof. induction 1 as [|e es He _ IH]; [reflexivity|]. cbn. now rewrite He, IH. Qed.

Lemma uploadAssets_run c w h s :
  let r := GitHub_uploadAssets c w h s in
  let assets := prop (gh_options c) "assets" in
  let announced := EvLog Lexec "octokit releases#uploadAssets" in
  let files := w_globby w (h ++ [announced]) assets in
  final r = s /\
  out r <> Pending /\
  (truthy assets = false -> out r = Ok None /\ emitted r = []) /\
  (truthy assets = true ->
   truthy (prop (gh_options c) "isDryRun") = false ->
   exists rest,
     emitted r = announced :: EvGlobby assets files :: rest /\
     (files = [] -> out r = Ok (Some []) /\ exists msg, rest = [EvLog Lwarn msg]) /\
     (forall l, out r = Ok (Some l) ->
                length l = length files /\
                count is_stat rest = length files /\
                Forall (fun d => exists req,
                            In (EvUploadAsset (gh_target c) req (NetOk d)) rest) l)).
Proof.
  cbn zeta.
  change (wp (GitHub_uploadAssets c) w h s (fun r =>
    final r = s /\
    out r <> Pending /\
    (truthy (prop (gh_options c) "assets") = false -> out r = Ok None /\ emitted r = []) /\
    (truthy (prop (gh_options c) "assets") = true ->
     truthy (prop (gh_options c) "isDryRun") = false ->
     exists rest,
       emitted r = EvLog Lexec "octokit releases#uploadAssets"
                   :: EvGlobby (prop (gh_options c) "assets")
                        (w_globby w (h ++ [EvLog Lexec "octokit releases#uploadAssets"])
                                  (prop (gh_options c) "assets")) :: rest /\
       (w_globby w (h ++ [EvLog Lexec "octokit releases#uploadAssets"])
                 (prop (gh_options c) "assets") = [] ->
        out r = Ok (Some []) /\ exists msg, rest = [EvLog Lwarn msg]) /\
       (forall l, out r = Ok (Some l) ->
                  length l = length (w_globby w (h ++ [EvLog Lexec "octokit releases#uploadAssets"])
                                              (prop (gh_options c) "assets")) /\
                  count is_stat rest
                  = length (w_globby w (h ++ [EvLog Lexec "octokit releases#uploadAssets"])
                                     (prop (gh_options c) "assets")) /\
                  Forall (fun d => exists req,
                              In (EvUploadAsset (gh_target c) req (NetOk d)) rest) l)))).
  unfold GitHub_uploadAssets.
  destruct (truthy (prop (gh_options c) "assets")) eqn:Ha; cbn [negb].
  2: { wp_steps. repeat split; try discriminate. }
  wp_steps.
  destruct (truthy (prop (gh_options c) "isDryRun")) eqn:Hdry.
  { wp_steps. repeat split; try discriminate. }
  wp_steps.
  set (files := w_globby w (h ++ [EvLog Lexec "octokit releases#uploadAssets"])
                         (prop (gh_options c) "assets")).
  destruct files as [|f files'] eqn:Hfiles.
  - cbn [length Nat.eqb]. wp_steps. unfold upload_all. cbn [files_map]. wp_steps.
    unfold wp. cbn.
    repeat split; try discriminate. intros _ _. eexists. split; [reflexivity|].
    split; [intros _; split; [reflexivity | now eexists]|]. intros l [= <-]. cbn. auto.
  - cbn [length Nat.eqb]. wp_steps. rewrite app_nil_r.
    match goal with |- wp ?m ?w' ?h' ?s' _ =>
      pose proof (upload_all_run c (f :: files') w' h' s') as (Hs & Hp & _ & Hl);
      unfold wp; cbn zeta in Hs, Hp, Hl;
      destruct (out (upload_all c (f :: files') w' h' s')) as [l| |] eqn:Hout
    end; [| |congruence].
    + wp_steps. rewrite app_nil_r. split; [exact Hs|]. split; [discriminate|].
      split; [discriminate|]. intros _ _. eexists. split; [reflexivity|].
      split; [discriminate|]. intros l' [= <-]. exact (Hl l eq_refl).
    + cbn [out emitted final]. split; [exact Hs|]. split; [discriminate|].
      split; [discriminate|]. intros _ _. eexists. split; [reflexivity|].
      split; [discriminate|]. intros l' [=].
Qed.

(** X4. Upload-assets never changes the state of the client and always
    ends. Without the option [assets] it does nothing at all. Otherwise
    (and not in a dry run) it announces itself and lists the files once;
    when no file matches, it warns once and resolves with no asset,
    reading no file and calling nothing; and when it resolves, it has
    read the size of each file once and gives one asset per file, each
    the answer of a call of this run. *)
Theorem X4_upload_assets (c : gh_client) (w : world) (h : list event) (s : store) :
  let r := GitHub_uploadAssets c w h s in
  let assets := prop (gh_options c) "assets" in
  let announced := EvLog Lexec "octokit releases#uploadAssets" in
  let files := w_globby w (h ++ [announced]) assets in
  final r = s /\
  out r <> Pending /\
  (truthy assets = false -> out r = Ok None /\ emitted r = []) /\
  (truthy assets = true ->
   truthy (prop (gh_options c) "isDryRun") = false ->
   exists rest,
     emitted r = announced :: EvGlobby assets files :: rest /\
     (files = [] -> out r = Ok (Some []) /\ exists msg, rest = [EvLog Lwarn msg]) /\
     (forall l, out r = Ok (Some l) ->
                length l = length files /\
                count is_stat rest = length files /\
                Forall (fun d => exists req,
                            In (EvUploadAsset (gh_target c) req (NetOk d)) rest) l)).
Proof. apply uploadAssets_run. Qed.

End UploadAssets.

(** ** The options of the clients *)

Lemma prop_assign (a b : obj) k :
  prop (assign a b) k = match b !! k with Some v => v | None => prop a k end.
Proof.
  unfold prop, assign. rewrite lookup_union.
  destruct (b !! k), (a !! k); reflexivity.
Qed.

Lemma assign_all_snoc args a : assign_all (args ++ [a]) = assign (assign_all args) a.
Proof. unfold assign_all. now rewrite foldl_app. Qed.

Lemma prop_assign_all args k : prop (assign_all args) k = layered (rev args) k.
Proof.
  induction args as [|a args IH] using rev_ind; [reflexivity|].
  rewrite assign_all_snoc, prop_assign, rev_app_distr. cbn. now rewrite IH.
Qed.

Lemma prop_js_defaults (o d : obj) k :
  prop (js_defaults o d) k = or_default (prop o k) (prop d k).
Proof.
  unfold prop, js_defaults. rewrite lookup_merge.
  destruct (o !! k) as [v|], (d !! k) as [x|]; cbn; try reflexivity.
  now destruct v.
Qed.

Lemma prop_sharedOptions cfg k :
  sharedOptions cfg !! k =
  if String.eqb k "isInteractive" then Some (VBool (isInteractive cfg))
  else if String.eqb k "isVerbose" then Some (VBool (isVerbose cfg))
  else if String.eqb k "isDryRun" then Some (VBool (isDryRun cfg))
  else None.
Proof.
  unfold sharedOptions.
  destruct (String.eqb_spec k "isInteractive") as [->|H1]; [now rewrite lookup_insert_eq|].
  rewrite lookup_insert_ne by congruence.
  destruct (String.eqb_spec k "isVerbose") as [->|H2]; [now rewrite lookup_insert_eq|].
  rewrite lookup_insert_ne by congruence.
  destruct (String.eqb_spec k "isDryRun") as [->|H3]; [now rewrite lookup_singleton_eq|].
  rewrite lookup_singleton_ne by congruence. reflexivity.
Qed.

Section Constructors.
Context `{Ext : Externals}.

Lemma GitHub_new_prop t defaults args k :
  prop (gh_options (GitHub_new t defaults args)) k
  = or_default (layered (rev args) k) (prop defaults k).
Proof. unfold GitHub_new. cbn. now rewrite prop_js_defaults, prop_assign_all. Qed.

(** X5. The constructors of the two clients merge their arguments so
    that, for every property, the last argument that has it decides:
    for the publish client that is all; for the release client a
    default then fills a property that no argument has, or that is
    undefined, and never replaces one that is defined. *)
Theorem X5_constructor_precedence (t : target) (defaults : obj) (args : list obj)
        (k : string) :
  prop (npm_options (npm_new t args)) k = layered (rev args) k /\
  prop (gh_options (GitHub_new t defaults args)) k
  = or_default (layered (rev args) k) (prop defaults k).
Proof. split; [apply prop_assign_all | apply GitHub_new_prop]. Qed.

Lemma gh_client_flag cfg url k :
  sharedOptions cfg !! k <> None ->
  prop (gh_options (ghClient_of cfg url)) k = default VUndef (sharedOptions cfg !! k) /\
  prop (gh_options (ghDistClient_of cfg url)) k = default VUndef (sharedOptions cfg !! k).
Proof.
  intros Hk. unfold ghClient_of, ghDistClient_of. rewrite !GitHub_new_prop. cbn.
  assert (Hne : k <> "remoteUrl").
  { intros ->. apply Hk. now rewrite prop_sharedOptions. }
  rewrite !lookup_singleton_ne by congruence.
  rewrite prop_sharedOptions in *.
  repeat match goal with
         | |- context [String.eqb k ?x] => destruct (String.eqb k x)
         end; cbn; auto. congruence.
Qed.

Lemma npm_client_flag cfg k :
  sharedOptions cfg !! k <> None ->
  prop (npm_options (npmClient_of cfg)) k = default VUndef (sharedOptions cfg !! k) /\
  prop (npm_options (npmDistClient_of cfg)) k = default VUndef (sharedOptions cfg !! k).
Proof.
  intros Hk. unfold npmClient_of, npmDistClient_of, npm_new. cbn [npm_options].
  rewrite !prop_assign_all. cbn.
  destruct (sharedOptions cfg !! k); [auto | congruence].
Qed.

(** X6. The mode of the run is the mode of every client: whatever the
    sections of the configuration say under the names [isDryRun] and
    [isInteractive], each of the four clients of the pipeline has the
    flags of the run itself. *)
Theorem X6_mode_flags (cfg : config) (url : value) :
  Forall (fun c => prop (gh_options c) "isDryRun" = VBool (isDryRun cfg) /\
                   prop (gh_options c) "isInteractive" = VBool (isInteractive cfg))
         [ghClient_of cfg url; ghDistClient_of cfg url] /\
  Forall (fun c => prop (npm_options c) "isDryRun" = VBool (isDryRun cfg) /\
                   prop (npm_options c) "isInteractive" = VBool (isInteractive cfg))
         [npmClient_of cfg; npmDistClient_of cfg].
Proof.
  assert (Hd : sharedOptions cfg !! "isDryRun" <> None)
    by (rewrite prop_sharedOptions; discriminate).
  assert (Hi : sharedOptions cfg !! "isInteractive" <> None)
    by (rewrite prop_sharedOptions; discriminate).
  destruct (gh_client_flag cfg url _ Hd) as [D1 D2].
  destruct (gh_client_flag cfg url _ Hi) as [I1 I2].
  destruct (npm_client_flag cfg _ Hd) as [D3 D4].
  destruct (npm_client_flag cfg _ Hi) as [I3 I4].
  rewrite prop_sharedOptions in *. cbn in *.
  split; repeat constructor; auto.
Qed.

End Constructors.

(** ** The API client *)

Section ApiClient.
Context `{Ext : Externals}.

Lemma baseUrl_github c :
  effective_host c = VStr "github.com" ->
  ao_baseUrl (api_options_of c) = "https://api.github.com".
Proof. unfold effective_host, api_options_of. cbn. now intros ->. Qed.

Lemma baseUrl_other c :
  strict_eq_string (effective_host c) "github.com" = false ->
  ao_baseUrl (api_options_of c)
  = ("https://" ++ to_string (effective_host c) ++ "/api/v3")%string.
Proof. unfold effective_host, api_options_of. cbn. now intros ->. Qed.

Lemma length_append (a b : string) :
  String.length (a ++ b)%string = String.length a + String.length b.
Proof.
  induction a as [|x a IH]; [reflexivity|].
  change (S (String.length (a ++ b)%string) = S (String.length a + String.length b)).
  now rewrite IH.
Qed.

Lemma not_api_v3 (x : string) : (x ++ "/api/v3")%string <> "api.github.com".
Proof.
  intros H. pose proof (f_equal String.length H) as Hlen.
  rewrite length_append in Hlen. cbn in Hlen.
  do 8 (destruct x as [|? x]; [cbn in Hlen; try lia|]); [|cbn in Hlen; lia].
  vm_compute in H. discriminate H.
Qed.

Lemma append_cancel (a x y : string) : (a ++ x = a ++ y)%string -> x = y.
Proof.
  induction a as [|c a IH]; [exact id|].
  change (String c (a ++ x)%string = String c (a ++ y)%string -> x = y).
  intros [= H]. now apply IH.
Qed.

Lemma strict_eq_string_spec v s : strict_eq_string v s = true <-> v = VStr s.
Proof.
  destruct v; cbn; try (split; [discriminate | intros [=]]).
  rewrite String.eqb_eq. split; [now intros -> | now intros [= ->]].
Qed.

(** X7. The client of the API is made for the host of the options,
    or for the host of the repository when the options name none. Its
    base URL is [https://api.github.com] exactly when that host is
    [github.com], and the host followed by [/api/v3] for any other
    host. The client is built once: a later call gives the client of
    the first call, with the token read then, whatever the environment
    has become. *)
Theorem X7_api_client (c : gh_client) :
  (ao_baseUrl (api_options_of c) = "https://api.github.com"
   <-> effective_host c = VStr "github.com") /\
  (effective_host c <> VStr "github.com" ->
   ao_baseUrl (api_options_of c)
   = ("https://" ++ to_string (effective_host c) ++ "/api/v3")%string) /\
  (forall env,
      getGithubClient env c None
      = ({| ac_options := api_options_of c; ac_auth_type := "oauth";
            ac_token := token env c |},
         Some {| ac_options := api_options_of c; ac_auth_type := "oauth";
                 ac_token := token env c |})) /\
  (forall env env' cached,
      getGithubClient env' c (snd (getGithubClient env c cached))
      = getGithubClient env c cached).
Proof.
  assert (Hother : effective_host c <> VStr "github.com" ->
                   ao_baseUrl (api_options_of c)
                   = ("https://" ++ to_string (effective_host c) ++ "/api/v3")%string).
  { intros H. apply baseUrl_other. destruct (strict_eq_string _ _) eqn:E; [|reflexivity].
    now apply strict_eq_string_spec in E. }
  split; [|split; [exact Hother|split]].
  - split; [|apply baseUrl_github].
    intros H. destruct (strict_eq_string (effective_host c) "github.com") eqn:E;
      [now apply strict_eq_string_spec in E|].
    rewrite baseUrl_other in H by exact E.
    change "https://api.github.com" with ("https://" ++ "api.github.com")%string in H.
    apply append_cancel in H. now apply not_api_v3 in H.
  - reflexivity.
  - intros env env' [client|]; reflexivity.
Qed.

End ApiClient.

(** * More on publish *)

Section PublishRuns.
Context `{Ext : Externals}.

Lemma publish_no_name fuel c a w h s :
  (forall name, prop (npm_options c) "name" <> VStr name) ->
  publish (S fuel) c a w h s = {| out := Throw TypeError; emitted := []; final := s |}.
Proof.
  intros H. cbn [publish].
  destruct (prop (npm_options c) "name") as [| | | |name] eqn:E; try reflexivity.
  now destruct (H name).
Qed.

(** Induction on the runs of [publish] with the passcode prompt of the
    pipeline, or with none. *)
Lemma publish_run_ind (c : npm_client) (name : string) (w : world)
      (Q : nat -> publish_args -> list event -> store -> res unit -> Prop) :
  prop (npm_options c) "name" = VStr name ->
  (forall a h s, Q 0 a h s {| out := Pending; emitted := []; final := s |}) ->
  (forall fuel a h s v,
      w_shell w h (publish_op c name a) = Returned v ->
      Q (S fuel) a h s {| out := Ok tt; emitted := [EvShell (publish_op c name a) (Returned v)];
                 final := set_published (npm_target c) (VBool true) s |}) ->
  (forall fuel a h s r,
      w_shell w h (publish_op c name a) = Raised r ->
      is_otp_error r = false ->
      Q (S fuel) a h s {| out := Throw (Rejected r);
                 emitted := [EvShell (publish_op c name a) (Raised r)]; final := s |}) ->
  (forall fuel a h s r,
      w_shell w h (publish_op c name a) = Raised r ->
      is_otp_error r = true ->
      truthy (prop (npm_options c) "isInteractive") = false \/ pa_otpPrompt a = None ->
      Q (S fuel) a h s {| out := Throw (Rejected r);
                 emitted := EvShell (publish_op c name a) (Raised r)
                            :: (if not_nullish (effective_otp c a) then otp_warning else []);
                 final := s |}) ->
  (forall fuel a h s r again,
      w_shell w h (publish_op c name a) = Raised r ->
      is_otp_error r = true ->
      truthy (prop (npm_options c) "isInteractive") = true ->
      pa_otpPrompt a = Some otpPrompt ->
      let before := EvShell (publish_op c name a) (Raised r)
                    :: (if not_nullish (effective_otp c a) then otp_warning else []) in
      let answer := w_prompt w (h ++ before) "otp" in
      Q fuel (retry_args c a answer) (h ++ before ++ [EvPrompt "otp" answer]) s again ->
      Q (S fuel) a h s {| out := out again;
                 emitted := before ++ [EvPrompt "otp" answer] ++ emitted again;
                 final := final again |}) ->
  forall fuel a h s,
    pa_otpPrompt a = Some otpPrompt \/ pa_otpPrompt a = None ->
    Q fuel a h s (publish fuel c a w h s).
Proof.
  intros Hname Hpend Hok Hother Hstop Hagain.
  induction fuel as [|fuel IH]; intros a h s Ha; [apply Hpend|].
  destruct (w_shell w h (publish_op c name a)) as [v|r] eqn:Hsh.
  - rewrite (publish_success fuel c a name w h s v Hname Hsh). now apply Hok.
  - destruct (is_otp_error r) eqn:Hotp.
    + assert (Hint : {truthy (prop (npm_options c) "isInteractive") = true}
                     + {truthy (prop (npm_options c) "isInteractive") = false})
        by (destruct (truthy _); auto).
      destruct Hint as [Hint|Hint].
      * destruct Ha as [Ha|Ha].
        -- rewrite (publish_otp_retry fuel c a name w h s r Hname Hsh Hotp Hint Ha).
           apply Hagain; try assumption. apply IH. cbn. now left.
        -- rewrite (publish_otp_failure_no_prompt fuel c a name w h s r Hname Hsh Hotp
                      (or_intror Ha)).
           apply Hstop; auto.
      * rewrite (publish_otp_failure_no_prompt fuel c a name w h s r Hname Hsh Hotp
                    (or_introl Hint)).
        apply Hstop; auto.
    + rewrite (publish_other_failure fuel c a name w h s r Hname Hsh Hotp).
      now apply Hother.
Qed.

Lemma publish_marks fuel c a w h s :
  pa_otpPrompt a = Some otpPrompt \/ pa_otpPrompt a = None ->
  let r := publish fuel c a w h s in
  match out r with
  | Ok _ =>
    final r = set_published (npm_target c) (VBool true) s /\
    exists pre op v, emitted r = pre ++ [EvShell op (Returned v)] /\
                     is_publish_run (EvShell op (Returned v)) = true
  | _ => final r = s
  end.
Proof.
  intros Ha. cbn zeta.
  destruct (prop (npm_options c) "name") as [| | | |name] eqn:Hname;
    try (destruct fuel; [reflexivity|];
         rewrite publish_no_name by (intros name; rewrite Hname; discriminate);
         reflexivity).
  revert fuel a h s Ha.
  apply (publish_run_ind c name w (fun _ a h s r =>
    match out r with
    | Ok _ =>
      final r = set_published (npm_target c) (VBool true) s /\
      exists pre op v, emitted r = pre ++ [EvShell op (Returned v)] /\
                       is_publish_run (EvShell op (Returned v)) = true
    | _ => final r = s
    end)); try exact Hname; cbn [out emitted final].
  - reflexivity.
  - intros _ a h s v _. split; [reflexivity|]. now exists [], (publish_op c name a), v.
  - reflexivity.
  - reflexivity.
  - intros _ a h s r again _ _ _ _. destruct (out again); try exact id.
    intros [Hf (pre & op & v & -> & Hop)]. split; [exact Hf|].
    rewrite !app_assoc. eexists _, op, v. split; [reflexivity | exact Hop].
Qed.

(** X8. Publish marks its package as published exactly when it
    resolves, and then the last thing that happened is a publish
    command that succeeded; a run that fails, or that is not finished,
    leaves the whole state as it was; and no run changes anything
    else than the mark of its own target. *)
Theorem X8_publish_marks (fuel : nat) (c : npm_client) (a : publish_args)
        (w : world) (h : list event) (s : store) :
  pa_otpPrompt a = Some otpPrompt \/ pa_otpPrompt a = None ->
  let r := publish fuel c a w h s in
  match out r with
  | Ok _ =>
    final r = set_published (npm_target c) (VBool true) s /\
    exists pre op v, emitted r = pre ++ [EvShell op (Returned v)] /\
                     is_publish_run (EvShell op (Returned v)) = true
  | _ => final r = s
  end.
Proof. apply publish_marks. Qed.

Lemma publish_rounds c name w :
  prop (npm_options c) "name" = VStr name ->
  truthy (prop (npm_options c) "isInteractive") = true ->
  forall n fuel a h s,
    pa_otpPrompt a = Some otpPrompt ->
    accepted_after n c name a w h = true ->
    n < fuel ->
    let r := publish fuel c a w h s in
    out r = Ok tt /\
    count is_otp_prompt (emitted r) = n /\
    count is_publish_run (emitted r) = S n /\
    final r = set_published (npm_target c) (VBool true) s.
Proof.
  intros Hname Hint.
  induction n as [|n IH]; intros fuel a h s Ha Hacc Hfuel; cbn zeta;
    (destruct fuel as [|fuel]; [lia|]); cbn [accepted_after] in Hacc;
    destruct (w_shell w h (publish_op c name a)) as [v|r] eqn:Hsh; try discriminate Hacc.
  - rewrite (publish_success fuel c a name w h s v Hname Hsh). repeat split.
  - apply andb_prop in Hacc as [Hotp Hacc].
    rewrite (publish_otp_retry fuel c a name w h s r Hname Hsh Hotp Hint Ha).
    cbn [out emitted final].
    match type of Hacc with accepted_after _ _ _ ?a' _ ?h' = true =>
      destruct (IH fuel a' h' s Ha Hacc ltac:(lia)) as (H1 & H2 & H3 & H4)
    end.
    cbn zeta in *. rewrite !count_app, H2, H3.
    split; [exact H1|]. split; [|split; [|exact H4]];
      destruct (not_nullish (effective_otp c a)); cbn; lia.
Qed.

(** X9. If the registry asks for a one-time passcode [n] times before
    it accepts the command, an interactive publish ends well as soon
    as it may call itself [n] times: the operator is asked [n] times,
    the command is called [n + 1] times, and the package is marked as
    published. *)
Theorem X9_passcode_rounds (n fuel : nat) (c : npm_client) (name : string)
        (a : publish_args) (w : world) (h : list event) (s : store) :
  prop (npm_options c) "name" = VStr name ->
  truthy (prop (npm_options c) "isInteractive") = true ->
  pa_otpPrompt a = Some otpPrompt ->
  accepted_after n c name a w h = true ->
  n < fuel ->
  let r := publish fuel c a w h s in
  out r = Ok tt /\
  count is_otp_prompt (emitted r) = n /\
  count is_publish_run (emitted r) = S n /\
  final r = set_published (npm_target c) (VBool true) s.
Proof. intros Hname Hint Ha Hacc Hfuel. now apply (publish_rounds c name w). Qed.

Lemma same_publish_spec c c' :
  same_publish_options c c' ->
  npm_target c = npm_target c' /\
  prop (npm_options c) "name" = prop (npm_options c') "name" /\
  prop (npm_options c) "tag" = prop (npm_options c') "tag" /\
  prop (npm_options c) "otp" = prop (npm_options c') "otp" /\
  prop (npm_options c) "publishPath" = prop (npm_options c') "publishPath" /\
  prop (npm_options c) "access" = prop (npm_options c') "access" /\
  prop (npm_options c) "isDryRun" = prop (npm_options c') "isDryRun" /\
  prop (npm_options c) "isInteractive" = prop (npm_options c') "isInteractive".
Proof.
  intros [Ht H]. split; [exact Ht|]. rewrite Forall_forall in H.
  repeat split; apply H; unfold publish_reads; repeat constructor.
Qed.

Lemma publish_command_same c c' name tag version isPreRelease otp :
  same_publish_options c c' ->
  publish_command c name tag version isPreRelease otp
  = publish_command c' name tag version isPreRelease otp.
Proof.
  intros H. destruct (same_publish_spec c c' H) as (_ & _ & _ & _ & E2 & E3 & E4 & _).
  unfold publish_command. now rewrite E2, E3, E4.
Qed.

Lemma publish_same c c' w :
  same_publish_options c c' ->
  forall fuel a h s,
    pa_otpPrompt a = Some otpPrompt \/ pa_otpPrompt a = None ->
    publish fuel c a w h s = publish fuel c' a w h s.
Proof.
  intros Hsame.
  destruct (same_publish_spec c c' Hsame) as (Ht & E & E0 & E1 & E2 & E3 & E4 & E5).
  assert (Htag : forall a, effective_tag c a = effective_tag c' a)
    by (intros a; unfold effective_tag; now rewrite E0).
  assert (Hotp : forall a, effective_otp c a = effective_otp c' a)
    by (intros a; unfold effective_otp; now rewrite E1).
  assert (Hop : forall name a, publish_op c name a = publish_op c' name a).
  { intros name a. unfold publish_op.
    now rewrite (publish_command_same c c' name _ _ _ _ Hsame), Htag, Hotp, E4. }
  assert (Hargs : forall a v, retry_args c a v = retry_args c' a v)
    by (intros a v; unfold retry_args; now rewrite Htag).
  destruct (prop (npm_options c) "name") as [| | | |name] eqn:Hname;
    try (intros [|fuel] a h s _; [reflexivity|];
         rewrite !publish_no_name
           by (intros name; rewrite ?Hname, <- ?E; discriminate);
         reflexivity).
  assert (Hname' : prop (npm_options c') "name" = VStr name) by now rewrite <- E.
  apply (publish_run_ind c name w (fun fuel a h s r => r = publish fuel c' a w h s));
    try exact Hname.
  - reflexivity.
  - intros fuel a h s v Hsh. rewrite Hop in *.
    now rewrite (publish_success fuel c' a name w h s v Hname' Hsh), Ht.
  - intros fuel a h s r Hsh Hr. rewrite Hop in *.
    now rewrite (publish_other_failure fuel c' a name w h s r Hname' Hsh Hr).
  - intros fuel a h s r Hsh Hr Hno. rewrite Hop, ?Hotp, ?E5 in *.
    now rewrite (publish_otp_failure_no_prompt fuel c' a name w h s r Hname' Hsh Hr Hno).
  - intros fuel a h s r again Hsh Hr Hint Ha before answer Hagain.
    subst before answer again. rewrite Hop, Hotp, Hargs, E5 in *.
    now rewrite (publish_otp_retry fuel c' a name w h s r Hname' Hsh Hr Hint Ha).
Qed.

Lemma same_with_option c k v :
  k ∉ publish_reads -> same_publish_options (with_option c k v) c.
Proof.
  intros Hk. split; [reflexivity|]. apply Forall_forall. intros k' Hk'.
  unfold with_option, prop. cbn [npm_options].
  rewrite lookup_insert_ne; [reflexivity|]. intros ->. apply Hk.
  now apply list_elem_of_In.
Qed.

(** X10. Publish reads seven options of its client and no other: the
    name, the tag, the passcode, the path, the access, and the flags
    of a dry run and of an interactive session. Two clients for the
    same target that agree on these publish alike, in every world; so
    that setting any other option, [isVerbose] among them, changes
    nothing in what publish does. *)
Theorem X10_publish_reads (fuel : nat) (c c' : npm_client) (a : publish_args)
        (w : world) (h : list event) (s : store) :
  pa_otpPrompt a = Some otpPrompt \/ pa_otpPrompt a = None ->
  (same_publish_options c c' -> publish fuel c a w h s = publish fuel c' a w h s) /\
  (forall k v, k ∉ publish_reads ->
               publish fuel (with_option c k v) a w h s = publish fuel c a w h s).
Proof.
  intros Ha. split.
  - intros Hsame. now apply publish_same.
  - intros k v Hk. apply publish_same; [now apply same_with_option | exact Ha].
Qed.

End PublishRuns.

(** * Relations that every run of the pipeline respects *)

Section Respects.
Context `{Ext : Externals}.
Variable R : run_rel.
Hypothesis HS : sequential R.

Lemma respects_ret {A} (a : A) : respects R (mret a).
Proof. intros w h s. apply (seq_skip R HS). Qed.

Lemma respects_throw {A} e : respects R (throw e : M A).
Proof. intros w h s. apply (seq_fail R HS). Qed.

Lemma respects_get_store : respects R get_store.
Proof. intros w h s. apply (seq_skip R HS). Qed.

Lemma respects_get_world : respects R get_world.
Proof. intros w h s. apply (seq_skip R HS). Qed.

Lemma respects_git_prop t name : respects R (git_prop t name).
Proof. intros w h s. apply (seq_skip R HS). Qed.

Lemma respects_isPreRelease : respects R Version_isPreRelease.
Proof. intros w h s. apply (seq_skip R HS). Qed.

Lemma respects_bind {A B} (m : M A) (f : A -> M B) :
  respects R m -> (forall a, respects R (f a)) -> respects R (m ≫= f).
Proof.
  intros Hm Hf w h s. rewrite run_bind. specialize (Hm w h s).
  destruct (out (m w h s)) as [a| |]; cbn [out emitted final verdict_of] in *;
    try exact Hm.
  eapply (seq_then R HS); [exact Hm | apply Hf].
Qed.

Lemma respects_void {A} (m : M A) : respects R m -> respects R (void m).
Proof. intros H. apply respects_bind; [exact H | intros; apply respects_ret]. Qed.

Lemma respects_show gate task : respects R task -> respects R (show gate task).
Proof. intros H. unfold show. destruct (truthy gate); [exact H | apply respects_ret]. Qed.

Lemma respects_GitHub_validate c : respects R (GitHub_validate c).
Proof.
  unfold GitHub_validate. destruct (negb _); [apply respects_ret|].
  apply respects_bind; [apply respects_get_world|]. intros w.
  destruct (negb _); [apply respects_throw | apply respects_ret].
Qed.

Variable interactive : bool.
Hypothesis HA : admits R interactive.

Lemma respects_emit e : routine e = true -> respects R (emit e).
Proof. intros H w h s. now apply (adm_routine R interactive HA). Qed.

Lemma respects_log l msg : respects R (log l msg).
Proof. now apply respects_emit. Qed.

Lemma respects_git t op : respects R (git t op).
Proof.
  intros w h s. cbn. destruct (w_git w h t op) as [v|r]; cbn.
  - now apply (adm_routine R interactive HA).
  - apply (adm_git_fail R interactive HA).
Qed.

Lemma respects_shell op : is_publish_op op = false -> respects R (shell op).
Proof.
  intros Hop w h s. cbn. destruct (w_shell w h op) as [v|r]; cbn.
  - apply (adm_routine R interactive HA). cbn. now rewrite Hop.
  - now apply (adm_shell_fail R interactive HA).
Qed.

Lemma respects_run cmd : respects R (run cmd).
Proof. now apply respects_void, respects_shell. Qed.

Lemma respects_hook cmd : respects R (hook cmd).
Proof. apply respects_show, respects_run. Qed.

Lemma respects_Version_bump i p : respects R (Version_bump i p).
Proof.
  intros w h s. unfold Version_bump. destruct (w_bump w h i p) as [v|]; cbn.
  - apply (adm_bump R interactive HA).
  - apply (adm_bump_invalid R interactive HA).
Qed.

Lemma respects_set_version v : respects R (modify (set_version v)).
Proof. intros w h s. apply (adm_set_version R interactive HA). Qed.

Lemma respects_Version_validate : respects R Version_validate.
Proof.
  unfold Version_validate.
  apply respects_bind; [apply respects_get_store|]. intros s.
  apply respects_bind; [now apply respects_emit|]. intros _.
  destruct (truthy (st_version s)); [apply respects_ret | apply respects_throw].
Qed.

Lemma respects_prompt gate name task :
  interactive = true ->
  (forall a, respects R (task a)) ->
  respects R (prompt gate name task).
Proof.
  intros Hi Ht. unfold prompt. destruct (truthy gate); [|apply respects_ret].
  apply respects_bind.
  - intros w h s. now apply (adm_prompt R interactive HA).
  - intros a. destruct (bool_decide _); [destruct (truthy a)|]; auto using respects_ret.
Qed.

Lemma respects_getChangelog scripts : respects R (getChangelog scripts).
Proof.
  unfold getChangelog.
  apply respects_bind; [apply respects_git|]. intros changelog.
  apply respects_bind; [|intros; apply respects_ret].
  destruct (truthy changelog); apply respects_log.
Qed.

Ltac respects_go :=
  repeat first
    [ apply respects_ret | apply respects_throw | apply respects_get_store
    | apply respects_git_prop | apply respects_isPreRelease
    | apply respects_GitHub_validate | apply respects_log
    | apply respects_emit; reflexivity
    | apply respects_git | apply respects_shell; reflexivity
    | apply respects_run | apply respects_hook
    | apply respects_Version_bump | apply respects_set_version
    | apply respects_Version_validate | apply respects_getChangelog
    | apply respects_void | apply respects_show
    | apply respects_bind; [|intros]
    | match goal with |- respects _ (if ?b then _ else _) => destruct b end
    | match goal with |- respects _ (match ?x with _ => _ end) => destruct x end ].

(** ** The stages *)

Variable cfg : config.
Hypothesis Hmode : isInteractive cfg = interactive.

Lemma respects_resolve gh ghd : respects R (resolve cfg gh ghd).
Proof.
  unfold resolve.
  do 9 (apply respects_bind; [respects_go | intros]).
  apply respects_bind; [|intros; apply respects_ret].
  rewrite Hmode. destruct (bool_dec interactive true) as [Hi|Hi].
  2: { apply not_true_is_false in Hi. rewrite Hi. apply respects_ret. }
  rewrite Hi at 1. cbn [andb]. destruct (negb _); [|apply respects_ret].
  apply respects_prompt; [exact Hi|]. intros increment.
  destruct (truthy increment); [apply respects_Version_bump|].
  apply respects_prompt; [exact Hi|]. intros v. apply respects_set_version.
Qed.

Lemma respects_bump_and_stage version changelog :
  respects R (bump_and_stage cfg version changelog).
Proof. unfold bump_and_stage. respects_go. Qed.

Lemma respects_dist_prepare version : respects R (dist_prepare cfg version).
Proof. unfold dist_prepare. respects_go. Qed.

Lemma respects_summary gh ghd n nd : respects R (summary cfg gh ghd n nd).
Proof. unfold summary. respects_go. Qed.

Lemma respects_release_steps fuel version isPreRelease changelog t o gh npmc :
  clients_respect R fuel gh npmc ->
  respects R (release_steps fuel cfg version isPreRelease changelog t o gh npmc).
Proof.
  intros (Hrel & Hup & Hpub). unfold release_steps.
  fold (publish_call version isPreRelease).
  rewrite Hmode. destruct (bool_dec interactive true) as [Hi|Hi].
  - rewrite Hi at 1. cbn [negb].
    repeat (apply respects_bind; [|intros _]);
      (apply respects_prompt; [exact Hi | intros _]);
      auto using respects_void, respects_git.
    apply respects_bind; [apply Hrel|]. intros [d|]; auto using respects_void, respects_ret.
  - apply not_true_is_false in Hi. rewrite Hi. cbn [negb].
    repeat (apply respects_bind; [|intros _]);
      apply respects_show; auto using respects_void, respects_git.
Qed.

Lemma respects_release fuel scripts version isPreRelease changelog t o gh npmc :
  clients_respect R fuel gh npmc ->
  respects R (release fuel cfg scripts version isPreRelease changelog t o gh npmc).
Proof.
  intros Hc. unfold release.
  apply respects_bind; [now apply respects_emit | intros _].
  apply respects_bind; [now apply respects_release_steps | intros _].
  apply respects_bind; [apply respects_hook | intros _]. now apply respects_emit.
Qed.

Lemma respects_dist_release fuel version isPreRelease changelog gh npmc :
  clients_respect R fuel gh npmc ->
  respects R (dist_release fuel cfg version isPreRelease changelog gh npmc).
Proof.
  intros Hc. unfold dist_release.
  destruct (truthy _); [|apply respects_ret].
  do 6 (apply respects_bind; [respects_go | intros]).
  apply respects_bind; [now apply respects_release | intros].
  respects_go.
Qed.

Hypothesis Hclients : forall fuel url,
    clients_respect R fuel (ghClient_of cfg url) (npmClient_of cfg) /\
    clients_respect R fuel (ghDistClient_of cfg url) (npmDistClient_of cfg).

Lemma giving_ret {A} (Post : A -> Prop) (a : A) :
  Post a -> respects_giving R Post (mret a).
Proof.
  intros Ha w h s. split; [apply (seq_skip R HS)|]. now intros a' [= <-].
Qed.

Lemma giving_bind {A B} (Post : B -> Prop) (m : M A) (f : A -> M B) :
  respects R m -> (forall a, respects_giving R Post (f a)) ->
  respects_giving R Post (m ≫= f).
Proof.
  intros Hm Hf w h s. rewrite run_bind. specialize (Hm w h s).
  destruct (out (m w h s)) as [a| |]; cbn [out emitted final verdict_of] in *;
    try (split; [exact Hm | intros ? [=]]).
  destruct (Hf a w (h ++ emitted (m w h s)) (final (m w h s))) as [H1 H2].
  split; [eapply (seq_then R HS); [exact Hm | exact H1] | exact H2].
Qed.

Lemma respects_then {A B} (Post : A -> Prop) (m : M A) (f : A -> M B) :
  respects_giving R Post m -> (forall a, Post a -> respects R (f a)) ->
  respects R (m ≫= f).
Proof.
  intros Hm Hf w h s. rewrite run_bind. destruct (Hm w h s) as [H1 H2].
  destruct (out (m w h s)) as [a| |]; cbn [out emitted final verdict_of] in *;
    try exact H1.
  eapply (seq_then R HS); [exact H1 | now apply Hf, H2].
Qed.

Lemma giving_prepare : respects_giving R (clients_of cfg) (prepare cfg).
Proof.
  unfold prepare.
  do 5 (apply giving_bind; [respects_go | intros]).
  apply giving_bind; [apply respects_resolve | intros [latest changelog]].
  do 3 (apply giving_bind; [respects_go | intros]).
  apply giving_ret. unfold clients_of. cbn. eauto.
Qed.

Lemma respects_carry_out fuel p : clients_of cfg p -> respects R (carry_out fuel cfg p).
Proof.
  intros ((url & Hg & Hgd) & Hn & Hnd). destruct (Hclients fuel url) as [H1 H2].
  unfold carry_out. rewrite Hg, Hgd, Hn, Hnd.
  apply respects_bind; [apply respects_bump_and_stage | intros changelog].
  apply respects_bind; [apply respects_dist_prepare | intros _].
  apply respects_bind; [now apply respects_release | intros _].
  apply respects_bind; [now apply respects_dist_release | intros _].
  apply respects_bind; [apply respects_summary | intros _]. apply respects_ret.
Qed.

Lemma respects_tasks_body fuel : respects R (tasks_body fuel cfg).
Proof.
  unfold tasks_body.
  apply (respects_then (clients_of cfg)); [apply giving_prepare|].
  intros p Hp. now apply respects_carry_out.
Qed.

End Respects.

(** * Properties of every run of the pipeline *)

(** ** Building relations *)

Lemma sequential_only P : sequential (only P).
Proof.
  split; unfold only; intros; try constructor.
  apply Forall_app. now split.
Qed.

Lemma sequential_keeps {X} (f : store -> X) : sequential (keeps f).
Proof. split; unfold keeps; intros; congruence. Qed.

Lemma sequential_and R1 R2 : sequential R1 -> sequential R2 -> sequential (rel_and R1 R2).
Proof.
  intros [A1 B1 C1] [A2 B2 C2]. split; unfold rel_and.
  - intros s. split; [apply A1 | apply A2].
  - intros s e. split; [apply B1 | apply B2].
  - intros s es s' es' s'' v [H1 H2] [G1 G2]. split; [eapply C1 | eapply C2]; eauto.
Qed.

Lemma admits_only (P : event -> Prop) interactive :
  (forall e, routine e = true -> P e) ->
  (forall e, failure_of e <> None -> is_publish_run e = false -> P e) ->
  (forall i p v, P (EvBump i p (BumpOk v))) ->
  (interactive = true -> forall name a, P (EvPrompt name a)) ->
  admits (only P) interactive.
Proof.
  intros Hr Hf Hb Hp. split; unfold only.
  - intros s e He. repeat constructor. now apply Hr.
  - intros s t op r. repeat constructor. apply Hf; [discriminate | reflexivity].
  - intros s op r Hop. repeat constructor.
    apply Hf; destruct op; try discriminate; reflexivity.
  - intros s i p v. repeat constructor. apply Hb.
  - intros s i p. repeat constructor. apply Hf; [discriminate | reflexivity].
  - intros s v. constructor.
  - intros Hi s name a. repeat constructor. now apply Hp.
Qed.

Lemma admits_keeps {X} (f : store -> X) interactive :
  (forall v s, f (set_version v s) = f s) -> admits (keeps f) interactive.
Proof. intros H. split; unfold keeps; intros; auto. Qed.

Lemma admits_and R1 R2 interactive :
  admits R1 interactive -> admits R2 interactive -> admits (rel_and R1 R2) interactive.
Proof.
  intros [A1 B1 C1 D1 E1 F1 G1] [A2 B2 C2 D2 E2 F2 G2].
  split; unfold rel_and; intros; split; auto.
Qed.

Lemma respects_and {A} R1 R2 (m : M A) :
  respects R1 m -> respects R2 m -> respects (rel_and R1 R2) m.
Proof. intros H1 H2 w h s. split; [apply H1 | apply H2]. Qed.

Lemma respects_only_emits {A} (P : event -> bool) (Q : event -> Prop) (m : M A) :
  (forall e, P e = true -> Q e) -> emits P m -> respects (only Q) m.
Proof.
  intros HPQ Hm w h s. unfold only. eapply Forall_impl; [apply Hm | exact HPQ].
Qed.

Lemma respects_keeps_final {A X} (f : store -> X) (m : M A) :
  (forall w h s, f (final (m w h s)) = f s) -> respects (keeps f) m.
Proof. intros H w h s. apply H. Qed.

Section ClientRelations.
Context `{Ext : Externals}.

Lemma clients_respect_and R1 R2 fuel gh npmc :
  clients_respect R1 fuel gh npmc -> clients_respect R2 fuel gh npmc ->
  clients_respect (rel_and R1 R2) fuel gh npmc.
Proof.
  intros (A1 & B1 & C1) (A2 & B2 & C2).
  split; [|split]; intros; apply respects_and; auto.
Qed.

(** The release client emits log entries, calls to the API, the
    listing of the files and their sizes, and nothing else. *)
Lemma release_client_only (Q : event -> Prop) gh :
  (forall l msg, Q (EvLog l msg)) ->
  (forall t req r, Q (EvCreateRelease t req r)) ->
  (forall t req r, Q (EvUploadAsset t req r)) ->
  (forall path r, Q (EvStat path r)) ->
  (forall assets r, Q (EvGlobby assets r)) ->
  (forall version isPreRelease changelog,
      respects (only Q) (GitHub_release gh version isPreRelease changelog)) /\
  respects (only Q) (GitHub_uploadAssets gh).
Proof.
  intros Hl Hc Hu Hs Hg.
  pose (P := fun e => match e with
                      | EvLog _ _ | EvCreateRelease _ _ _ | EvUploadAsset _ _ _
                      | EvStat _ _ | EvGlobby _ _ => true
                      | _ => false
                      end).
  assert (HPQ : forall e, P e = true -> Q e) by (intros []; cbn; auto; discriminate).
  split; [intros version isPreRelease changelog|];
    apply (respects_only_emits P Q _ HPQ).
  - apply emits_GitHub_release; reflexivity.
  - apply emits_GitHub_uploadAssets; reflexivity.
Qed.

(** Publish emits its command, the warning about the passcode, and,
    in an interactive session, the question for a passcode. *)
Lemma publish_only (Q : event -> Prop) c :
  (forall name a r, prop (npm_options c) "name" = VStr name ->
                    Q (EvShell (publish_op c name a) r)) ->
  Q (EvLog Lwarn "The provided OTP is incorrect or has expired.") ->
  (truthy (prop (npm_options c) "isInteractive") = true -> forall v, Q (EvPrompt "otp" v)) ->
  forall fuel a,
    pa_otpPrompt a = Some otpPrompt \/ pa_otpPrompt a = None ->
    respects (only Q) (publish fuel c a).
Proof.
  intros Hrun Hwarn Hprompt fuel a Ha w h s. unfold only.
  destruct (prop (npm_options c) "name") as [| | | |name] eqn:Hname;
    try (destruct fuel; [constructor|];
         rewrite publish_no_name by (intros name; rewrite Hname; discriminate);
         constructor).
  assert (Hbefore : forall a r,
             Forall Q (EvShell (publish_op c name a) (Raised r)
                       :: (if not_nullish (effective_otp c a) then otp_warning else []))).
  { intros a' r. constructor; [now apply Hrun|].
    destruct (not_nullish _); repeat constructor. exact Hwarn. }
  revert fuel a h s Ha.
  apply (publish_run_ind c name w (fun _ a h s r => Forall Q (emitted r)));
    try exact Hname; cbn [emitted].
  - constructor.
  - intros _ a h s v _. repeat constructor. now apply Hrun.
  - intros _ a h s r _ _. repeat constructor. now apply Hrun.
  - intros _ a h s r _ _ _. apply Hbefore.
  - intros _ a h s r again _ _ Hint _ Hagain.
    apply Forall_app. split; [apply Hbefore|].
    constructor; [now apply Hprompt | exact Hagain].
Qed.

Lemma publish_keeps {X} (f : store -> X) c fuel a :
  (forall t v s, f (set_published t v s) = f s) ->
  pa_otpPrompt a = Some otpPrompt \/ pa_otpPrompt a = None ->
  respects (keeps f) (publish fuel c a).
Proof.
  intros Hf Ha w h s. unfold keeps.
  pose proof (publish_marks fuel c a w h s Ha) as H. cbn zeta in H.
  destruct (out (publish fuel c a w h s)); [destruct H as [-> _]; apply Hf | now rewrite H ..].
Qed.

Lemma uploadAssets_keeps {X} (f : store -> X) gh : respects (keeps f) (GitHub_uploadAssets gh).
Proof.
  intros w h s. unfold keeps.
  destruct (uploadAssets_run gh w h s) as [H _]. cbn zeta in H. now rewrite H.
Qed.

End ClientRelations.

Section Flags.
Context `{Ext : Externals}.

Lemma clients_isDryRun cfg url :
  prop (gh_options (ghClient_of cfg url)) "isDryRun" = VBool (isDryRun cfg) /\
  prop (gh_options (ghDistClient_of cfg url)) "isDryRun" = VBool (isDryRun cfg) /\
  prop (npm_options (npmClient_of cfg)) "isDryRun" = VBool (isDryRun cfg) /\
  prop (npm_options (npmDistClient_of cfg)) "isDryRun" = VBool (isDryRun cfg).
Proof.
  assert (Hd : sharedOptions cfg !! "isDryRun" <> None)
    by (rewrite prop_sharedOptions; discriminate).
  destruct (gh_client_flag cfg url _ Hd) as [D1 D2].
  destruct (npm_client_flag cfg _ Hd) as [D3 D4].
  rewrite prop_sharedOptions in *. cbn in *. auto.
Qed.

Lemma clients_isInteractive cfg :
  prop (npm_options (npmClient_of cfg)) "isInteractive" = VBool (isInteractive cfg) /\
  prop (npm_options (npmDistClient_of cfg)) "isInteractive" = VBool (isInteractive cfg).
Proof.
  assert (Hi : sharedOptions cfg !! "isInteractive" <> None)
    by (rewrite prop_sharedOptions; discriminate).
  destruct (npm_client_flag cfg _ Hi) as [I3 I4].
  rewrite prop_sharedOptions in *. cbn in *. auto.
Qed.

Lemma report_only (Q : event -> Prop) cfg {A} (o : outcome A) :
  (forall a, Q (EvMetric a)) -> (forall e, Q (EvError e)) -> Forall Q (report cfg o).
Proof.
  intros Hm He. destruct o; cbn; try constructor.
  destruct (isCollectMetrics cfg); repeat constructor; auto.
Qed.

End Flags.

(** ** Dry runs *)

Section DryRun.
Context `{Ext : Externals}.

Lemma sequential_dry : sequential dry_rel.
Proof.
  apply sequential_and; [apply sequential_only|].
  apply sequential_and; apply sequential_keeps.
Qed.

Lemma admits_dry interactive : admits dry_rel interactive.
Proof.
  apply admits_and; [|apply admits_and; now apply admits_keeps].
  apply admits_only.
  - intros e H. destruct e as [| |op r| | | | | | | | | | |]; cbn; try exact I;
      try discriminate H.
    destruct op; try exact I. destruct r; discriminate H.
  - intros e H1 H2. destruct e as [| |op r| | | | | | | | | | |]; cbn; try exact I;
      try (now contradict H1).
    destruct op; try exact I. discriminate H2.
  - intros. exact I.
  - intros. exact I.
Qed.

Lemma clients_dry fuel gh npmc :
  truthy (prop (gh_options gh) "isDryRun") = true ->
  truthy (prop (npm_options npmc) "isDryRun") = true ->
  clients_respect dry_rel fuel gh npmc.
Proof.
  intros Hgh Hnpm. split; [|split].
  - intros version isPreRelease changelog w h s. rewrite release_dry_run by exact Hgh.
    cbn. unfold dry_rel, rel_and, only, keeps. repeat split; repeat constructor.
  - intros w h s. rewrite uploadAssets_dry_run by exact Hgh.
    cbn. unfold dry_rel, rel_and, only, keeps. repeat split.
    destruct (truthy (prop (gh_options gh) "assets")); repeat constructor.
  - intros version isPreRelease. apply respects_and; [|apply respects_and].
    + apply publish_only; [|exact I|intros; exact I|now left].
      intros name a r _. cbn. now apply publish_command_dry_run.
    + apply publish_keeps; [now intros [] | now left].
    + apply publish_keeps; [now intros [] | now left].
Qed.

Lemma tasks_dry fuel cfg :
  isDryRun cfg = true -> respects dry_rel (tasks_body fuel cfg).
Proof.
  intros Hdry.
  apply (respects_tasks_body dry_rel sequential_dry (isInteractive cfg)
           (admits_dry _) cfg eq_refl).
  intros fuel' url. destruct (clients_isDryRun cfg url) as (D1 & D2 & D3 & D4).
  split; apply clients_dry; rewrite ?D1, ?D2, ?D3, ?D4, Hdry; reflexivity.
Qed.

(** X11. In a dry run of the pipeline, whatever the configuration and
    whatever the collaborators answer: the API is never called, no
    asset file is listed or read, every publish command that is run
    ends with the dry-run flag, and the state of both release clients
    at the end is what it was at the start, so that no release is
    marked. *)
Theorem X11_dry_run (fuel : nat) (cfg : config) (w : world) (h : list event) (s : store) :
  isDryRun cfg = true ->
  let r := tasks fuel cfg w h s in
  Forall dry_event (emitted r) /\
  st_gh (final r) = st_gh s /\
  st_gh_dist (final r) = st_gh_dist s.
Proof.
  intros Hdry. cbn zeta.
  destruct (tasks_run fuel cfg w h s) as (_ & Hf & He). cbn zeta in Hf, He.
  destruct (tasks_dry fuel cfg Hdry w h s) as (H1 & H2 & H3).
  rewrite Hf, He. split; [|split; assumption].
  apply Forall_app. split; [exact H1|]. apply report_only; intros; exact I.
Qed.

End DryRun.

(** ** Failures *)

Lemma respects_weaken {A} (R1 R2 : run_rel) (m : M A) :
  (forall s es s' v, R1 s es s' v -> R2 s es s' v) -> respects R1 m -> respects R2 m.
Proof. intros H Hm w h s. apply H, Hm. Qed.

Lemma stops_none v es : Forall (fun e => failure_of e = None) es -> stops_at_failure v es.
Proof. induction 1 as [|e es He _ IH]; [exact I|]. cbn. now rewrite He. Qed.

Lemma stops_app v es es' :
  stops_at_failure Returns es -> stops_at_failure v es' -> stops_at_failure v (es ++ es').
Proof.
  induction es as [|e es IH]; [now intros _|]. cbn.
  destruct (failure_of e); [now intros [_ [=]] | exact IH].
Qed.

Lemma stops_app_none v es es' :
  Forall (fun e => failure_of e = None) es -> stops_at_failure v es' ->
  stops_at_failure v (es ++ es').
Proof.
  induction 1 as [|e es He _ IH]; [exact id|]. cbn. now rewrite He.
Qed.

(** Where a failure is in a trace that stops at its first failure and is
    followed by a report. *)
Lemma stops_split v es rep : forall pre e post x,
  stops_at_failure v es ->
  Forall (fun e => failure_of e = None) rep ->
  es ++ rep = pre ++ e :: post ->
  failure_of e = Some x ->
  Forall (fun e => failure_of e = None) pre /\ v = Throws x /\ post = rep.
Proof.
  induction es as [|a es IH]; intros pre e post x Hs Hrep Heq He.
  - cbn in Heq. subst rep. apply Forall_app in Hrep as [_ Hrep].
    apply Forall_cons in Hrep as [Hrep _]. congruence.
  - destruct pre as [|p pre]; cbn in Heq; injection Heq as -> Heq.
    + cbn in Hs. rewrite He in Hs. destruct Hs as [-> ->]. auto.
    + cbn in Hs. destruct (failure_of p) as [y|] eqn:Hp.
      * destruct Hs as [-> _]. cbn in Heq. subst rep.
        apply Forall_app in Hrep as [_ Hrep].
        apply Forall_cons in Hrep as [Hrep _]. congruence.
      * destruct (IH pre e post x Hs Hrep Heq He) as (H1 & H2 & H3).
        split; [now constructor | auto].
Qed.

Section FailFast.
Context `{Ext : Externals}.

Lemma sequential_stop : sequential stop_rel.
Proof. split; unfold stop_rel; intros; try exact I. now apply stops_app. Qed.

Lemma admits_stop interactive : admits stop_rel interactive.
Proof.
  split; unfold stop_rel; cbn; intros; auto.
  - destruct e as [| |op r| | | | | | | | | | |]; try exact I; try discriminate H.
    + destruct r; [exact I | discriminate H].
    + destruct r; [|discriminate H]. now destruct op.
  - destruct op; try discriminate H; auto.
Qed.

Lemma publish_stops c fuel a :
  pa_otpPrompt a = Some otpPrompt \/ pa_otpPrompt a = None ->
  respects stop_rel (publish fuel c a).
Proof.
  intros Ha w h s. unfold stop_rel.
  destruct (prop (npm_options c) "name") as [| | | |name] eqn:Hname;
    try (destruct fuel; [exact I|];
         rewrite publish_no_name by (intros name; rewrite Hname; discriminate);
         exact I).
  assert (Hbefore : forall a r,
             is_otp_error r = true ->
             Forall (fun e => failure_of e = None)
                    (EvShell (publish_op c name a) (Raised r)
                     :: (if not_nullish (effective_otp c a) then otp_warning else []))).
  { intros a' r Hr. constructor; [cbn; now rewrite Hr|].
    destruct (not_nullish _); repeat constructor. }
  revert fuel a h s Ha.
  apply (publish_run_ind c name w (fun _ a h s r =>
           stops_at_failure (verdict_of (out r)) (emitted r)));
    try exact Hname; cbn [out emitted verdict_of].
  - intros a h s. exact I.
  - intros _ a h s v _. exact I.
  - intros _ a h s r _ Hr. cbn. rewrite Hr. auto.
  - intros _ a h s r _ Hr _. apply stops_none, Hbefore, Hr.
  - intros _ a h s r again _ Hr _ _ Hagain.
    apply stops_app_none; [now apply Hbefore|]. exact Hagain.
Qed.

Lemma clients_stop fuel gh npmc : clients_respect stop_rel fuel gh npmc.
Proof.
  destruct (release_client_only (fun e => failure_of e = None) gh) as [H1 H2];
    try reflexivity.
  split; [|split].
  - intros version isPreRelease changelog.
    apply (respects_weaken (only (fun e => failure_of e = None))); [|apply H1].
    intros s es s' v. apply stops_none.
  - apply (respects_weaken (only (fun e => failure_of e = None))); [|apply H2].
    intros s es s' v. apply stops_none.
  - intros version isPreRelease. apply publish_stops. now left.
Qed.

Lemma tasks_stop fuel cfg : respects stop_rel (tasks_body fuel cfg).
Proof.
  apply (respects_tasks_body stop_rel sequential_stop (isInteractive cfg)
           (admits_stop _) cfg eq_refl).
  intros fuel' url. split; apply clients_stop.
Qed.

(** X12. The pipeline stops at the first failure. When a call to git
    fails, or a command of the shell (a hook, the bump, the copy; the
    publish command too, unless the registry asks for a passcode), or
    the version cannot be resolved, and the error is an instance of
    Error: nothing had failed before, nothing more is done than to
    report that error, and the run rejects with it. *)
Theorem X12_fail_fast (fuel : nat) (cfg : config) (w : world) (h : list event) (s : store)
        (pre post : list event) (e : event) (x : exn) :
  let r := tasks fuel cfg w h s in
  emitted r = pre ++ e :: post ->
  failure_of e = Some x ->
  has_message x ->
  Forall (fun e' => failure_of e' = None) pre /\
  out r = Throw x /\
  post = (if isCollectMetrics cfg then [EvMetric "exception"] else []) ++ [EvError x].
Proof.
  cbn zeta. intros Hem He _.
  destruct (tasks_run fuel cfg w h s) as (Ho & _ & Hb). cbn zeta in Ho, Hb.
  rewrite Hb in Hem. rewrite Ho.
  pose proof (tasks_stop fuel cfg w h s) as Hs. unfold stop_rel in Hs.
  destruct (stops_split _ _ _ pre e post x Hs
              (report_only _ cfg _ (fun _ => eq_refl) (fun _ => eq_refl)) Hem He)
    as (H1 & H2 & H3).
  split; [exact H1|].
  destruct (out (tasks_body fuel cfg w h s)); try discriminate H2.
  injection H2 as ->. split; [reflexivity | exact H3].
Qed.

End FailFast.

(** ** Questions *)

Section Silent.
Context `{Ext : Externals}.

Lemma admits_silent : admits silent_rel false.
Proof.
  apply admits_only; try discriminate.
  - intros e H. destruct e; try reflexivity; discriminate H.
  - intros e H _. destruct e; try reflexivity. now contradict H.
  - reflexivity.
Qed.

Lemma clients_silent fuel gh npmc :
  truthy (prop (npm_options npmc) "isInteractive") = false ->
  clients_respect silent_rel fuel gh npmc.
Proof.
  intros Hint.
  destruct (release_client_only (fun e => is_prompt e = false) gh) as [H1 H2];
    try reflexivity.
  split; [exact H1|]. split; [exact H2|].
  intros version isPreRelease. apply publish_only; try reflexivity; [|now left].
  rewrite Hint. discriminate.
Qed.

Lemma tasks_silent fuel cfg :
  isInteractive cfg = false -> respects silent_rel (tasks_body fuel cfg).
Proof.
  intros Hint.
  apply (respects_tasks_body silent_rel (sequential_only _) false admits_silent cfg Hint).
  intros fuel' url. destruct (clients_isInteractive cfg) as [I1 I2].
  split; apply clients_silent; rewrite ?I1, ?I2, Hint; reflexivity.
Qed.

(** X13. A run that is not interactive never asks the operator
    anything: not for an increment or a version, not for the
    confirmation of a step, and not for a one-time passcode, whatever
    the registry answers. *)
Theorem X13_never_asks (fuel : nat) (cfg : config) (w : world) (h : list event) (s : store) :
  isInteractive cfg = false ->
  Forall (fun e => is_prompt e = false) (emitted (tasks fuel cfg w h s)).
Proof.
  intros Hint.
  destruct (tasks_run fuel cfg w h s) as (_ & _ & He). cbn zeta in He. rewrite He.
  apply Forall_app. split; [apply (tasks_silent fuel cfg Hint w h s)|].
  apply report_only; reflexivity.
Qed.

End Silent.

(** ** Marks *)

Section Marks.
Context `{Ext : Externals}.

Lemma gh_of_set_gh t t' g s :
  gh_of t (set_gh t' g s) = if target_eqb t t' then g else gh_of t s.
Proof. now destruct t, t'. Qed.

Lemma sequential_marks t : sequential (marks_rel t).
Proof.
  split; unfold marks_rel; intros; auto.
  destruct H as [H1 H2], H0 as [G1 G2]. split.
  - intros Hf. apply Forall_app in Hf as [F1 F2]. now rewrite G1, H1.
  - intros Hf. apply Forall_app in Hf as [F1 F2].
    destruct (H2 F1) as [<- <-]. now apply G2.
Qed.

Lemma admits_marks t interactive : admits (marks_rel t) interactive.
Proof. split; unfold marks_rel; intros; split; intros; try now destruct t. Qed.

Lemma clients_marks t fuel gh npmc : clients_respect (marks_rel t) fuel gh npmc.
Proof.
  split; [|split].
  - intros version isPreRelease changelog w h s. unfold marks_rel.
    pose proof (release_outcomes gh version isPreRelease changelog w h s) as H.
    cbn zeta in H.
    destruct (out (GitHub_release gh version isPreRelease changelog w h s)) as [[d|]|x|].
    + destruct H as (-> & req & Hin). split.
      * intros Hf. rewrite gh_of_set_gh.
        destruct (target_eqb t (gh_target gh)) eqn:E; [|reflexivity].
        rewrite List.Forall_forall in Hf. specialize (Hf _ Hin). cbn in Hf. congruence.
      * intros _. now destruct (gh_target gh).
    + destruct H as [-> _]. auto.
    + destruct H as [-> _]. auto.
    + destruct H.
  - intros w h s. unfold marks_rel.
    destruct (uploadAssets_run gh w h s) as [H _]. cbn zeta in H. rewrite H. auto.
  - intros version isPreRelease w h s. unfold marks_rel.
    pose proof (publish_marks fuel npmc (publish_call version isPreRelease) w h s
                  (or_introl eq_refl)) as H.
    cbn zeta in H.
    destruct (out (publish fuel npmc (publish_call version isPreRelease) w h s)).
    + destruct H as (-> & pre & op & v & -> & Hop). split.
      * intros _. now destruct t, (npm_target npmc).
      * intros Hf. apply Forall_app in Hf as [_ Hf].
        apply Forall_cons in Hf as [Hf _]. destruct op; discriminate.
    + rewrite H. auto.
    + rewrite H. auto.
Qed.

Lemma tasks_marks t fuel cfg : respects (marks_rel t) (tasks_body fuel cfg).
Proof.
  apply (respects_tasks_body (marks_rel t) (sequential_marks t) (isInteractive cfg)
           (admits_marks t _) cfg eq_refl).
  intros fuel' url. split; apply clients_marks.
Qed.

(** X14. Nothing in the pipeline marks a release or a publication but
    the call that made it. In a run in which the API created no
    release for a target, the state of the release client of that
    target is at the end what it was at the start; and in a run in
    which no publish command succeeded, so are the marks of both
    publish clients. The links of the summary are therefore those of
    releases and publications of this very run. *)
Theorem X14_marks_are_backed (t : target) (fuel : nat) (cfg : config)
        (w : world) (h : list event) (s : store) :
  let r := tasks fuel cfg w h s in
  (Forall (fun e => created t e = false) (emitted r) -> gh_of t (final r) = gh_of t s) /\
  (Forall (fun e => published e = false) (emitted r) ->
   st_published (final r) = st_published s /\
   st_published_dist (final r) = st_published_dist s).
Proof.
  cbn zeta.
  destruct (tasks_run fuel cfg w h s) as (_ & Hf & He). cbn zeta in Hf, He.
  rewrite Hf, He. destruct (tasks_marks t fuel cfg w h s) as [H1 H2].
  split; intros H; apply Forall_app in H as [H _]; auto.
Qed.

End Marks.

(** ** Reports *)

Section Reports.
Context `{Ext : Externals}.





End Reports.

(** * The gates of the step group *)

Lemma count_emits {A} (f : event -> bool) (m : M A) w h s :
  emits (fun e => negb (f e)) m -> count f (emitted (m w h s)) = 0.
Proof.
  intros H. apply count_none. eapply Forall_impl; [apply H|].
  intros e He. now apply negb_true_iff.
Qed.

Section Gates.
Context `{Ext : Externals}.

(** What the sub-steps emit, when their events are told apart. *)
Lemma substeps_emit (P : event -> bool) fuel gh npmc version isPreRelease changelog :
  (forall l msg, l <> Lexec -> P (EvLog l msg) = true) ->
  P (EvLog Lexec "octokit releases#uploadAssets") = true ->
  (forall t req r, P (EvUploadAsset t req r) = true) ->
  (forall path r, P (EvStat path r) = true) ->
  (forall assets r, P (EvGlobby assets r) = true) ->
  (forall name r, P (EvPrompt name r) = true) ->
  emits P (GitHub_uploadAssets gh) /\
  ((P (EvLog Lexec "octokit releases#createRelease") = true ->
    (forall t req r, P (EvCreateRelease t req r) = true) ->
    emits P (GitHub_release gh version isPreRelease changelog)) /\
   ((forall cmd ro v r, P (EvShell (SRun cmd ro v) r) = true) ->
    emits P (publish fuel npmc (publish_call version isPreRelease)))).
Proof.
  intros Hl Hx Hu Hs Hg Hp. split; [|split].
  - now apply emits_GitHub_uploadAssets.
  - intros Hc Hcr. now apply emits_GitHub_release.
  - intros Hsh. apply emits_publish; auto.
Qed.

Lemma gate_emits (P : event -> bool) fuel cfg version isPreRelease changelog t o gh npmc :
  (forall l msg, l <> Lexec -> P (EvLog l msg) = true) ->
  P (EvLog Lexec "octokit releases#uploadAssets") = true ->
  (forall t req r, P (EvUploadAsset t req r) = true) ->
  (forall path r, P (EvStat path r) = true) ->
  (forall assets r, P (EvGlobby assets r) = true) ->
  (forall name r, P (EvPrompt name r) = true) ->
  (truthy (prop (g_git o) "commit") = true -> forall r, P (EvGit t GCommit r) = true) ->
  (truthy (prop (g_git o) "tag") = true -> forall r, P (EvGit t GTag r) = true) ->
  (truthy (prop (g_git o) "push") = true -> forall r, P (EvGit t GPush r) = true) ->
  (truthy (prop (g_github o) "release") = true ->
   P (EvLog Lexec "octokit releases#createRelease") = true /\
   forall t req r, P (EvCreateRelease t req r) = true) ->
  (truthy (js_and (prop (g_npm o) "publish") (js_not (prop (g_npm o) "private"))) = true ->
   forall cmd ro v r, P (EvShell (SRun cmd ro v) r) = true) ->
  emits P (release_steps fuel cfg version isPreRelease changelog t o gh npmc).
Proof.
  intros Hl Hx Hu Hs Hg Hp Hcommit Htag Hpush Hrel Hpub.
  destruct (substeps_emit P fuel gh npmc version isPreRelease changelog Hl Hx Hu Hs Hg Hp)
    as (Eup & Erel & Epub).
  unfold release_steps. fold (publish_call version isPreRelease).
  assert (Gcommit : emits P (show (prop (g_git o) "commit") (void (git t GCommit))) /\
                    emits P (prompt (prop (g_git o) "commit") "commit"
                                    (fun _ => void (git t GCommit)))).
  { unfold show, prompt. destruct (truthy (prop (g_git o) "commit")) eqn:E.
    - specialize (Hcommit eq_refl). split; [now apply emits_void, emits_git|].
      apply emits_bind; [now apply emits_inquire|]. intros a.
      destruct (bool_decide _); [destruct (truthy a)|];
        try apply emits_ret; now apply emits_void, emits_git.
    - split; apply emits_ret. }
  assert (Gtag : emits P (show (prop (g_git o) "tag") (void (git t GTag))) /\
                 emits P (prompt (prop (g_git o) "tag") "tag" (fun _ => void (git t GTag)))).
  { unfold show, prompt. destruct (truthy (prop (g_git o) "tag")) eqn:E.
    - specialize (Htag eq_refl). split; [now apply emits_void, emits_git|].
      apply emits_bind; [now apply emits_inquire|]. intros a.
      destruct (bool_decide _); [destruct (truthy a)|];
        try apply emits_ret; now apply emits_void, emits_git.
    - split; apply emits_ret. }
  assert (Gpush : emits P (show (prop (g_git o) "push") (void (git t GPush))) /\
                  emits P (prompt (prop (g_git o) "push") "push"
                                  (fun _ => void (git t GPush)))).
  { unfold show, prompt. destruct (truthy (prop (g_git o) "push")) eqn:E.
    - specialize (Hpush eq_refl). split; [now apply emits_void, emits_git|].
      apply emits_bind; [now apply emits_inquire|]. intros a.
      destruct (bool_decide _); [destruct (truthy a)|];
        try apply emits_ret; now apply emits_void, emits_git.
    - split; apply emits_ret. }
  assert (Grel : emits P (show (prop (g_github o) "release")
                               (void (GitHub_release gh version isPreRelease changelog))) /\
                 emits P (prompt (prop (g_github o) "release") "release"
                            (fun _ => r ← GitHub_release gh version isPreRelease changelog;
                                      match r with
                                      | Some _ => void (GitHub_uploadAssets gh)
                                      | None => mret tt
                                      end))).
  { unfold show, prompt. destruct (truthy (prop (g_github o) "release")) eqn:E.
    - destruct (Hrel eq_refl) as [H1 H2]. specialize (Erel H1 H2).
      split; [now apply emits_void|].
      apply emits_bind; [now apply emits_inquire|]. intros a.
      assert (emits P (r ← GitHub_release gh version isPreRelease changelog;
                       match r with
                       | Some _ => void (GitHub_uploadAssets gh)
                       | None => mret tt
                       end)).
      { apply emits_bind; [exact Erel|]. intros [d|]; [now apply emits_void|apply emits_ret]. }
      destruct (bool_decide _); [destruct (truthy a)|]; try apply emits_ret; assumption.
    - split; apply emits_ret. }
  assert (Gpub : emits P (show (js_and (prop (g_npm o) "publish")
                                       (js_not (prop (g_npm o) "private")))
                               (publish fuel npmc (publish_call version isPreRelease))) /\
                 emits P (prompt (js_and (prop (g_npm o) "publish")
                                         (js_not (prop (g_npm o) "private"))) "publish"
                            (fun _ => publish fuel npmc (publish_call version isPreRelease)))).
  { unfold show, prompt.
    destruct (truthy (js_and (prop (g_npm o) "publish") (js_not (prop (g_npm o) "private"))))
      eqn:E.
    - specialize (Epub (Hpub eq_refl)). split; [exact Epub|].
      apply emits_bind; [now apply emits_inquire|]. intros a.
      destruct (bool_decide _); [destruct (truthy a)|]; try apply emits_ret; assumption.
    - split; apply emits_ret. }
  destruct Gcommit, Gtag, Gpush, Grel, Gpub.
  destruct (negb (isInteractive cfg)).
  - repeat (apply emits_bind; [|intros _]); try assumption.
    apply emits_show. now apply emits_void.
  - repeat (apply emits_bind; [|intros _]); assumption.
Qed.

Lemma gate_count (f : event -> bool) fuel cfg version isPreRelease changelog t o gh npmc
      w h s :
  emits (fun e => negb (f e))
        (release_steps fuel cfg version isPreRelease changelog t o gh npmc) ->
  count f (emitted (release_steps fuel cfg version isPreRelease changelog t o gh npmc w h s))
  = 0.
Proof. apply count_emits. Qed.

Lemma commit_gate fuel cfg version isPreRelease changelog t o gh npmc :
  truthy (prop (g_git o) "commit") = false ->
  emits (fun e => negb (is_commit e))
        (release_steps fuel cfg version isPreRelease changelog t o gh npmc).
Proof. intros H. apply gate_emits; try reflexivity; try congruence; intros; now split. Qed.

Lemma tag_gate fuel cfg version isPreRelease changelog t o gh npmc :
  truthy (prop (g_git o) "tag") = false ->
  emits (fun e => negb (is_tag e))
        (release_steps fuel cfg version isPreRelease changelog t o gh npmc).
Proof. intros H. apply gate_emits; try reflexivity; try congruence; intros; now split. Qed.

Lemma push_gate fuel cfg version isPreRelease changelog t o gh npmc :
  truthy (prop (g_git o) "push") = false ->
  emits (fun e => negb (is_push e))
        (release_steps fuel cfg version isPreRelease changelog t o gh npmc).
Proof. intros H. apply gate_emits; try reflexivity; try congruence; intros; now split. Qed.

Lemma release_gate fuel cfg version isPreRelease changelog t o gh npmc :
  truthy (prop (g_github o) "release") = false ->
  emits (fun e => negb (is_create e))
        (release_steps fuel cfg version isPreRelease changelog t o gh npmc).
Proof. intros H. apply gate_emits; try reflexivity; congruence. Qed.

Lemma publish_gate fuel cfg version isPreRelease changelog t o gh npmc :
  truthy (js_and (prop (g_npm o) "publish") (js_not (prop (g_npm o) "private"))) = false ->
  emits (fun e => negb (is_publish_run e))
        (release_steps fuel cfg version isPreRelease changelog t o gh npmc).
Proof. intros H. apply gate_emits; try reflexivity; try congruence; intros; now split. Qed.

(** X16. Each sub-step of the step group has its own gate, in both
    modes: with the commit gate false nothing is committed, with the
    tag gate false nothing is tagged, with the push gate false nothing
    is pushed, with the release gate false the API creates no release,
    and with the publish gate false (or a private package) no publish
    command is run; whatever the other gates are and whatever the
    operator answers. *)
Theorem X16_each_gate (fuel : nat) (cfg : config) (version isPreRelease changelog : value)
        (t : target) (o : group_options) (gh : gh_client) (npmc : npm_client)
        (w : world) (h : list event) (s : store) :
  let es := emitted (release_steps fuel cfg version isPreRelease changelog t o gh npmc
                                   w h s) in
  (truthy (prop (g_git o) "commit") = false -> count is_commit es = 0) /\
  (truthy (prop (g_git o) "tag") = false -> count is_tag es = 0) /\
  (truthy (prop (g_git o) "push") = false -> count is_push es = 0) /\
  (truthy (prop (g_github o) "release") = false -> count is_create es = 0) /\
  (truthy (js_and (prop (g_npm o) "publish") (js_not (prop (g_npm o) "private"))) = false ->
   count is_publish_run es = 0).
Proof.
  cbn zeta. repeat split; intros H; apply gate_count.
  - now apply commit_gate.
  - now apply tag_gate.
  - now apply push_gate.
  - now apply release_gate.
  - now apply publish_gate.
Qed.

End Gates.

(** * The tag of the distribution repository *)

Section DistTag.
Context `{Ext : Externals}.

Lemma release_untagged fuel cfg scripts version isPreRelease changelog t o gh npmc :
  truthy (prop (g_git o) "tag") = false ->
  emits (fun e => negb (is_tag e))
        (release fuel cfg scripts version isPreRelease changelog t o gh npmc).
Proof.
  intros H. unfold release.
  apply emits_bind; [now apply emits_emit | intros _].
  apply emits_bind; [now apply tag_gate | intros _].
  apply emits_bind; [now apply hook_emits | intros _]. now apply emits_emit.
Qed.

Lemma dist_release_untagged fuel cfg version isPreRelease changelog gh npmc w h s :
  (forall h', match w_git w h' Dist GShouldTag with
              | Returned v => truthy v = false
              | Raised _ => True
              end) ->
  count is_tag (emitted (dist_release fuel cfg version isPreRelease changelog gh npmc w h s))
  = 0.
Proof.
  intros Hw.
  change (wp (dist_release fuel cfg version isPreRelease changelog gh npmc) w h s
             (fun r => count is_tag (emitted r) = 0)).
  unfold dist_release. destruct (truthy (d_repo (o_dist (cfg_options cfg)))); [|reflexivity].
  wp_steps. wp_case; [|reflexivity].
  wp_steps. wp_case; [|reflexivity].
  wp_steps.
  match goal with |- context [w_git w ?h' Dist GShouldTag] =>
    pose proof (Hw h') as Hv; destruct (w_git w h' Dist GShouldTag) as [v|rej]
  end; wp_red; [|reflexivity].
  wp_steps. wp_case; [|reflexivity].
  wp_step. apply wp_if_log. wp_red. wp_step.
  apply (wp_emits (fun e => negb (is_tag e))).
  { apply release_untagged. cbn [g_git]. unfold prop. now rewrite lookup_insert_eq. }
  intros r Hr.
  assert (Hr' : count is_tag (emitted r) = 0).
  { apply count_none. eapply Forall_impl; [exact Hr|]. intros e. apply negb_true_iff. }
  clear Hr. rename Hr' into Hr.
  destruct (out r) as [[]| |]; wp_red;
    try (rewrite !count_app, Hr; now destruct (isInteractive cfg)).
  wp_steps. wp_case.
  - unfold run. wp_steps. wp_case; wp_steps;
      rewrite !count_app, Hr; now destruct (isInteractive cfg).
  - rewrite !count_app, Hr. now destruct (isInteractive cfg).
Qed.

Lemma bind_ext {A B} (m : M A) (f g : A -> M B) w h s :
  (forall a h' s', f a w h' s' = g a w h' s') -> (m ≫= f) w h s = (m ≫= g) w h s.
Proof. intros H. rewrite !run_bind. destruct (out (m w h s)); now rewrite ?H. Qed.

Lemma dist_release_ignores_tag fuel cfg v version isPreRelease changelog gh npmc w h s :
  dist_release fuel (with_dist_tag cfg v) version isPreRelease changelog gh npmc w h s
  = dist_release fuel cfg version isPreRelease changelog gh npmc w h s.
Proof.
  unfold dist_release.
  cbn [with_dist_tag cfg_options o_dist d_repo d_stageDir o_name o_scripts d_git d_github
       d_npm isInteractive].
  destruct (truthy (d_repo (o_dist (cfg_options cfg)))); [|reflexivity].
  do 4 (apply bind_ext; intros).
  apply bind_ext. intros changeSet h0 s0. apply bind_ext. intros _ h1 s1.
  rewrite insert_insert_eq. reflexivity.
Qed.

(** X17. Whether the distribution repository is tagged is decided by
    the git client alone: the option [tag] of its git section changes
    nothing in what the release of the distribution repository does,
    and when the client says that no tag should be made (or cannot
    say), no tag is made there. *)
Theorem X17_dist_tag (fuel : nat) (cfg : config) (version isPreRelease changelog : value)
        (gh : gh_client) (npmc : npm_client) (w : world) (h : list event) (s : store) :
  (forall v,
      dist_release fuel (with_dist_tag cfg v) version isPreRelease changelog gh npmc w h s
      = dist_release fuel cfg version isPreRelease changelog gh npmc w h s) /\
  ((forall h', match w_git w h' Dist GShouldTag with
               | Returned v => truthy v = false
               | Raised _ => True
               end) ->
   count is_tag (emitted (dist_release fuel cfg version isPreRelease changelog gh npmc
                                       w h s)) = 0).
Proof.
  split.
  - intros v. apply dist_release_ignores_tag.
  - apply dist_release_untagged.
Qed.

End DistTag.

(** * Uploads in an interactive run *)

Lemma follow_none t es :
  Forall (fun e => is_upload_step e = false) es -> uploads_follow_release t es.
Proof.
  intros H pre e post -> He. apply Forall_app in H as [_ H].
  apply Forall_cons in H as [H _]. congruence.
Qed.

Lemma follow_after t req d es1 es2 :
  Forall (fun e => is_upload_step e = false) es1 ->
  In (EvCreateRelease t req (NetOk d)) es1 ->
  uploads_follow_release t (es1 ++ es2).
Proof.
  intros H1 Hin pre e post Heq He.
  apply app_eq_app in Heq as [l [[-> Heq]|[-> Heq]]].
  - destruct l as [|x l]; cbn in Heq.
    + rewrite app_nil_r in *. now exists req, d.
    + injection Heq as <- _. apply Forall_app in H1 as [_ H1].
      apply Forall_cons in H1 as [H1 _]. congruence.
  - exists req, d. apply in_or_app. now left.
Qed.

Lemma sequential_follow t : sequential (follow_rel t).
Proof.
  split; unfold follow_rel.
  - intros s. now apply follow_none.
  - intros s e. now apply follow_none.
  - intros s es s' es' s'' v H1 H2 pre e post Heq He.
    apply app_eq_app in Heq as [l [[-> Heq]|[-> Heq]]].
    + destruct l as [|x l]; cbn in Heq.
      * destruct (H2 [] e post (eq_sym Heq) He) as (req & d & []).
      * injection Heq as <- ->. rewrite app_nil_r || idtac.
        destruct (H1 pre e l eq_refl He) as (req & d & Hin). now exists req, d.
    + destruct (H2 l e post Heq He) as (req & d & Hin).
      exists req, d. apply in_or_app. now right.
Qed.

Section InteractiveUploads.
Context `{Ext : Externals}.

Lemma respects_follow_emits {A} t (m : M A) :
  emits (fun e => negb (is_upload_step e)) m -> respects (follow_rel t) m.
Proof.
  intros H w h s. apply follow_none. eapply Forall_impl; [apply H|].
  intros e. apply negb_true_iff.
Qed.

Lemma release_then_upload gh version isPreRelease changelog :
  respects (follow_rel (gh_target gh))
           (r ← GitHub_release gh version isPreRelease changelog;
            match r with
            | Some _ => void (GitHub_uploadAssets gh)
            | None => mret tt
            end).
Proof.
  intros w h s. unfold follow_rel. rewrite run_bind.
  assert (Hrel : Forall (fun e => is_upload_step e = false)
                        (emitted (GitHub_release gh version isPreRelease changelog w h s))).
  { eapply Forall_impl;
      [apply (emits_GitHub_release (fun e => negb (is_upload_step e)))|];
      try reflexivity.
    - intros l msg Hl. now destruct l.
    - intros e. apply negb_true_iff. }
  pose proof (release_outcomes gh version isPreRelease changelog w h s) as Ho.
  cbn zeta in Ho.
  destruct (out (GitHub_release gh version isPreRelease changelog w h s)) as [[d|]| |];
    cbn [out emitted final]; try (now apply follow_none).
  - destruct Ho as (_ & req & Hin). now apply (follow_after _ req d).
  - rewrite app_nil_r. now apply follow_none.
Qed.

Lemma interactive_uploads fuel cfg version isPreRelease changelog t o gh npmc :
  isInteractive cfg = true ->
  respects (follow_rel (gh_target gh))
           (release_steps fuel cfg version isPreRelease changelog t o gh npmc).
Proof.
  intros Hint. unfold release_steps. rewrite Hint. cbn [negb].
  fold (publish_call version isPreRelease).
  pose proof (sequential_follow (gh_target gh)) as HS.
  assert (Hq : forall name, respects (follow_rel (gh_target gh)) (inquire name))
    by (intros name; apply respects_follow_emits, emits_inquire; reflexivity).
  assert (Hprompt : forall gate name task,
             respects (follow_rel (gh_target gh)) task ->
             respects (follow_rel (gh_target gh)) (prompt gate name (fun _ => task))).
  { intros gate name task Ht. unfold prompt.
    destruct (truthy gate); [|now apply respects_ret].
    apply respects_bind; [exact HS | apply Hq |]. intros a.
    destruct (bool_decide _); [destruct (truthy a)|]; auto using respects_ret. }
  assert (Hgit : forall op, respects (follow_rel (gh_target gh)) (void (git t op)))
    by (intros op; apply respects_follow_emits, emits_void, emits_git; reflexivity).
  repeat (apply respects_bind; [exact HS| |intros _]); apply Hprompt; auto.
  - apply release_then_upload.
  - apply respects_follow_emits, emits_publish; try reflexivity.
    + intros l msg Hl. now destruct l.
    + now left.
Qed.

(** X18. In an interactive run, the assets are uploaded only into a
    release that was created: whatever the operator answers, every
    step of upload-assets in the step group (its announcement, the
    listing of the files, the reading of a size, an upload) comes after
    a create-release call of this client that the API answered with a
    release. *)
Theorem X18_uploads_follow_release (fuel : nat) (cfg : config)
        (version isPreRelease changelog : value) (t : target) (o : group_options)
        (gh : gh_client) (npmc : npm_client) (w : world) (h : list event) (s : store) :
  isInteractive cfg = true ->
  uploads_follow_release (gh_target gh)
    (emitted (release_steps fuel cfg version isPreRelease changelog t o gh npmc w h s)).
Proof. intros Hint. now apply interactive_uploads. Qed.

End InteractiveUploads.

(** * The order of the sub-steps *)

Lemma ordered_lower k k' es : k' <= k -> ordered_from k es = true -> ordered_from k' es = true.
Proof.
  revert k k'. induction es as [|e es IH]; intros k k' Hk; [reflexivity|]. cbn.
  destruct (rank e) as [r|]; [|now apply IH].
  intros H. apply andb_prop in H as [H1 H2]. apply Nat.leb_le in H1.
  apply andb_true_intro. split; [apply Nat.leb_le; lia | exact H2].
Qed.

Lemma ordered_app k m es1 es2 :
  k <= m ->
  ordered_from k es1 = true ->
  Forall (fun e => match rank e with Some r => r <= m | None => True end) es1 ->
  ordered_from m es2 = true ->
  ordered_from k (es1 ++ es2) = true.
Proof.
  revert k. induction es1 as [|e es1 IH]; intros k Hk H1 Hf H2; cbn.
  - now apply (ordered_lower m).
  - apply Forall_cons in Hf as [He Hf]. cbn in H1.
    destruct (rank e) as [r|]; [|now apply IH].
    apply andb_prop in H1 as [H1 H1']. rewrite H1. cbn. now apply IH.
Qed.

Lemma flat_ordered k m es :
  k <= m ->
  Forall (fun e => flat m e = true) es ->
  ordered_from k es = true /\
  Forall (fun e => match rank e with Some r => r <= m | None => True end) es.
Proof.
  intros Hk H. revert k Hk. induction H as [|e es He _ IH]; intros k Hk; [now split|].
  unfold flat in He. cbn. destruct (rank e) as [r|] eqn:Er.
  - apply Nat.eqb_eq in He. subst r. destruct (IH m (le_n _)) as [I1 I2]. split.
    + apply andb_true_intro. split; [now apply Nat.leb_le | exact I1].
    + constructor; [now rewrite Er | exact I2].
  - destruct (IH k Hk) as [I1 I2]. split; [exact I1|].
    constructor; [now rewrite Er | exact I2].
Qed.

Section Order.
Context `{Ext : Externals}.

Lemma stays_flat {A} k m (x : M A) : k <= m -> emits (flat m) x -> stays k m x.
Proof. intros Hk H w h s. now apply flat_ordered. Qed.

Lemma stays_ret {A} k m (a : A) : stays k m (mret a).
Proof. intros w h s. now split. Qed.

Lemma stays_wider {A} k m n (x : M A) : m <= n -> stays k m x -> stays k n x.
Proof.
  intros Hm H w h s. destruct (H w h s) as [H1 H2]. split; [exact H1|].
  eapply Forall_impl; [exact H2|]. intros e He. cbn beta in He. destruct (rank e); [lia | exact I].
Qed.

Lemma stays_bind {A B} k m n (x : M A) (f : A -> M B) :
  k <= m -> m <= n ->
  stays k m x -> (forall a, stays m n (f a)) -> stays k n (x ≫= f).
Proof.
  intros Hk Hm Hx Hf w h s. rewrite run_bind. destruct (Hx w h s) as [H1 H2].
  assert (H2' : Forall (fun e => match rank e with Some r => r <= n | None => True end)
                       (emitted (x w h s))).
  { eapply Forall_impl; [exact H2|]. intros e He. cbn beta in He. destruct (rank e); [lia | exact I]. }
  destruct (out (x w h s)) as [a| |]; cbn [emitted]; try now split.
  destruct (Hf a w (h ++ emitted (x w h s)) (final (x w h s))) as [G1 G2]. split.
  - now apply (ordered_app k m).
  - apply Forall_app. now split.
Qed.

Lemma stays_show k m gate (task : M unit) : stays k m task -> stays k m (show gate task).
Proof. intros H. unfold show. destruct (truthy gate); [exact H | apply stays_ret]. Qed.

Lemma stays_prompt k m gate name task :
  k <= m -> (forall a, stays k m (task a)) -> stays k m (prompt gate name task).
Proof.
  intros Hk H. unfold prompt. destruct (truthy gate); [|apply stays_ret].
  apply (stays_bind k k m); [lia | exact Hk | |].
  - apply stays_flat; [lia|]. now apply emits_inquire.
  - intros a. destruct (bool_decide _); [destruct (truthy a)|]; auto using stays_ret.
Qed.

Lemma release_steps_stay fuel cfg version isPreRelease changelog t o gh npmc :
  stays 0 6 (release_steps fuel cfg version isPreRelease changelog t o gh npmc).
Proof.
  unfold release_steps. fold (publish_call version isPreRelease).
  destruct (negb (isInteractive cfg)).
  - apply (stays_bind 0 1 6); [lia | lia | |intros _].
    { apply stays_show. apply stays_flat; [lia|].
      apply emits_void, emits_git. reflexivity. }
    apply (stays_bind 1 2 6); [lia | lia | |intros _].
    { apply stays_show. apply stays_flat; [lia|].
      apply emits_void, emits_git. reflexivity. }
    apply (stays_bind 2 3 6); [lia | lia | |intros _].
    { apply stays_show. apply stays_flat; [lia|].
      apply emits_void, emits_git. reflexivity. }
    apply (stays_bind 3 4 6); [lia | lia | |intros _].
    { apply stays_show. apply stays_flat; [lia|].
      apply emits_void, emits_GitHub_release; reflexivity. }
    apply (stays_bind 4 5 6); [lia | lia | |intros _].
    { apply stays_show. apply stays_flat; [lia|].
      apply emits_void, emits_GitHub_uploadAssets; reflexivity. }
    apply stays_show. apply stays_flat; [lia|].
    apply emits_publish; try reflexivity. now left.
  - apply (stays_bind 0 1 6); [lia | lia | |intros _].
    { apply stays_prompt; [lia|]. intros _. apply stays_flat; [lia|].
      apply emits_void, emits_git. reflexivity. }
    apply (stays_bind 1 2 6); [lia | lia | |intros _].
    { apply stays_prompt; [lia|]. intros _. apply stays_flat; [lia|].
      apply emits_void, emits_git. reflexivity. }
    apply (stays_bind 2 3 6); [lia | lia | |intros _].
    { apply stays_prompt; [lia|]. intros _. apply stays_flat; [lia|].
      apply emits_void, emits_git. reflexivity. }
    apply (stays_bind 3 5 6); [lia | lia | |intros _].
    { apply stays_prompt; [lia|]. intros _.
      apply (stays_bind 3 4 5); [lia | lia | |].
      - apply stays_flat; [lia|]. apply emits_GitHub_release; reflexivity.
      - intros [d|]; [|apply stays_ret]. apply stays_flat; [lia|].
        apply emits_void, emits_GitHub_uploadAssets; reflexivity. }
    apply stays_prompt; [lia|]. intros _. apply stays_flat; [lia|].
    apply emits_publish; try reflexivity. now left.
Qed.

(** X21. The sub-steps of the step group happen in their order, in
    both modes and whatever fails or is declined: in the trace of the
    step group, a commit is never after a tag, a tag never after a
    push, a push never after a call that creates the release, such a
    call never after a step of upload-assets, and none of them after a
    publish command. *)
Theorem X21_substeps_in_order (fuel : nat) (cfg : config)
        (version isPreRelease changelog : value) (t : target) (o : group_options)
        (gh : gh_client) (npmc : npm_client) (w : world) (h : list event) (s : store) :
  in_order (emitted (release_steps fuel cfg version isPreRelease changelog t o gh npmc
                                   w h s)) = true.
Proof. apply release_steps_stay. Qed.

End Order.

(** * The metrics beacon *)

Lemma cast_bit v : cast v = VNum 0 \/ cast v = VNum 1.
Proof. unfold cast. destruct (truthy v); auto. Qed.

Lemma event_fields (p : obj) action :
  let body := assign p (<["t" := VStr "event"]> (<["ec" := VStr "session"]>
                                                   {["ea" := action]})) in
  body !! "t" = Some (VStr "event") /\
  body !! "ec" = Some (VStr "session") /\
  body !! "ea" = Some action /\
  forall k, k <> "t" -> k <> "ec" -> k <> "ea" -> body !! k = p !! k.
Proof.
  cbn zeta. unfold assign. repeat split.
  - apply lookup_union_Some_l. now rewrite lookup_insert_eq.
  - apply lookup_union_Some_l. rewrite lookup_insert_ne by discriminate.
    now rewrite lookup_insert_eq.
  - apply lookup_union_Some_l. rewrite !lookup_insert_ne by discriminate.
    now rewrite lookup_singleton_eq.
  - intros k H1 H2 H3. apply lookup_union_r.
    rewrite !lookup_insert_ne by congruence. now rewrite lookup_singleton_ne by congruence.
Qed.

Lemma payload_flags env c :
  Forall (fun k => exists v, payload env c !! k = Some (cast v)) flag_dimensions.
Proof.
  unfold flag_dimensions, payload.
  repeat constructor; eexists;
    repeat (first [ rewrite lookup_insert_eq; reflexivity
                  | rewrite lookup_insert_ne by discriminate ]).
Qed.

Lemma sd_depth env :
  match me_colorLevel env with
  | None => sd env = VStr "1-bit"
  | Some n =>
    if ((0 <=? n) && (n <? 4))%Z
    then exists d, sd env = VStr d /\ In d depths
    else sd env = VUndef
  end.
Proof.
  unfold sd. destruct (me_colorLevel env) as [n|]; [|reflexivity].
  destruct (((0 <=? n) && (n <? 4))%Z) eqn:E.
  - apply andb_prop in E as [E1 E2]. apply Z.leb_le in E1. apply Z.ltb_lt in E2.
    assert (Hn : (n = 0 \/ n = 1 \/ n = 2 \/ n = 3)%Z) by lia.
    destruct Hn as [-> | [-> | [-> | ->]]]; cbn; eexists; split; try reflexivity; cbn; auto.
  - apply andb_false_iff in E as [E|E].
    + apply Z.leb_gt in E. destruct (n =? 0)%Z eqn:E0; [apply Z.eqb_eq in E0; lia|].
      destruct (n <? 0)%Z eqn:E1; [reflexivity | apply Z.ltb_ge in E1; lia].
    + apply Z.ltb_ge in E. destruct (n =? 0)%Z eqn:E0; [apply Z.eqb_eq in E0; lia|].
      destruct (n <? 0)%Z eqn:E1; [reflexivity|].
      destruct (Z.to_nat n) as [|[|[|[|k]]]] eqn:Ek; try lia. reflexivity.
Qed.

(** X19. The payload of a tracked event always says that it is an event
    of a session with the given action, whatever the options hold, and
    says nothing else when no options are given; with options, every
    dimension that reports a flag is 0 or 1; the colour depth is one of
    the four names when the support level is from 0 to 3, the first of
    them when there is no level, and undefined for any other level. The
    request is sent once, without retries, and what becomes of it is
    never a rejection: a failure of the request is logged and
    dropped. *)
Theorem X19_tracked_event (env : metrics_env) (action : value)
        (config : option metrics_config) :
  let beacon := trackEvent env action config in
  let body := b_body beacon in
  b_retries beacon = 0%Z /\
  body !! "t" = Some (VStr "event") /\
  body !! "ec" = Some (VStr "session") /\
  body !! "ea" = Some action /\
  (config = None -> dom body = {["t"; "ec"; "ea"]}) /\
  (config <> None ->
   Forall (fun k => body !! k = Some (VNum 0) \/ body !! k = Some (VNum 1)) flag_dimensions /\
   body !! "sd" = Some (sd env)) /\
  match me_colorLevel env with
  | None => sd env = VStr "1-bit"
  | Some n =>
    if ((0 <=? n) && (n <? 4))%Z
    then exists d, sd env = VStr d /\ In d depths
    else sd env = VUndef
  end /\
  forall pick response, sent pick response = Fulfilled VUndef.
Proof.
  cbn zeta. unfold trackEvent. cbn [send b_body b_retries].
  match goal with |- context [assign ?p _] =>
    destruct (event_fields p action) as (H1 & H2 & H3 & H4)
  end.
  cbn zeta in *. split; [reflexivity|]. repeat (split; [assumption|]).
  split; [|split; [|split; [apply sd_depth|]]].
  - intros ->. unfold assign. rewrite (right_id ∅ (∪)). set_solver.
  - destruct config as [c|]; [intros _ | congruence]. split.
    + eapply Forall_impl; [apply (payload_flags env c)|].
      intros k (v & Hk). unfold flag_dimensions.
      assert (Hne : k <> "t" /\ k <> "ec" /\ k <> "ea").
      { repeat split; intros ->; vm_compute in Hk; discriminate Hk. }
      destruct Hne as (N1 & N2 & N3). rewrite (H4 k N1 N2 N3), Hk.
      destruct (cast_bit v) as [-> | ->]; auto.
    + rewrite H4 by discriminate. unfold payload.
      repeat (first [ rewrite lookup_insert_eq; reflexivity
                    | rewrite lookup_insert_ne by discriminate ]).
  - intros pick [v|r]; reflexivity.
Qed.

(** ** The first line of an error *)

Lemma is_prefix_app p a b : is_prefix p a = true -> is_prefix p (a ++ b)%string = true.
Proof.
  revert a. induction p as [|x p IH]; intros a; [reflexivity|].
  destruct a as [|y a]; [discriminate|].
  change (Ascii.eqb x y && is_prefix p a = true ->
          Ascii.eqb x y && is_prefix p (a ++ b)%string = true).
  intros H. apply andb_prop in H as [H1 H2]. now rewrite H1, IH.
Qed.

Lemma first_segment_split eol s :
  exists rest, s = (first_segment eol s ++ rest)%string /\
               (rest = EmptyString \/ is_prefix eol rest = true).
Proof.
  induction s as [|c s (rest & IH & Hrest)].
  - exists EmptyString. cbn. destruct (is_prefix eol EmptyString); auto.
  - cbn [first_segment]. destruct (is_prefix eol (String c s)) eqn:E.
    + exists (String c s). split; [reflexivity | now right].
    + exists rest. split; [|exact Hrest].
      change (String c s = String c (first_segment eol s ++ rest)%string).
      now rewrite <- IH.
Qed.

Lemma first_segment_clean eol s :
  eol <> EmptyString -> contains eol (first_segment eol s) = false.
Proof.
  intros Hne.
  assert (Hempty : contains eol EmptyString = false).
  { destruct eol; [congruence | reflexivity]. }
  induction s as [|c s IH].
  - cbn [first_segment]. now destruct (is_prefix eol EmptyString).
  - cbn [first_segment]. destruct (is_prefix eol (String c s)) eqn:E; [exact Hempty|].
    cbn [contains]. rewrite IH, orb_false_r.
    destruct (is_prefix eol (String c (first_segment eol s))) eqn:F; [|reflexivity].
    destruct (first_segment_split eol s) as (rest & Hs & _).
    apply (is_prefix_app _ _ rest) in F.
    change (is_prefix eol (String c (first_segment eol s ++ rest)%string) = true) in F.
    rewrite <- Hs in F. congruence.
Qed.

Lemma first_segment_whole eol s : contains eol s = false -> first_segment eol s = s.
Proof.
  induction s as [|c s IH]; cbn [contains first_segment].
  - intros H. now destruct (is_prefix eol EmptyString).
  - intros H. apply orb_false_iff in H as [H1 H2]. rewrite H1. now rewrite IH.
Qed.

(** X20. A tracked exception carries the first line of the message of
    the error and nothing more of it: the message is what is sent
    followed by nothing, or by an end of line and the rest; what is sent
    holds no end of line; and a message of one line is sent whole. *)
Theorem X20_tracked_exception (eol message : string) :
  eol <> EmptyString ->
  let body := b_body (trackException eol message) in
  exists exd,
    body !! "exd" = Some (VStr exd) /\
    body !! "t" = Some (VStr "exception") /\
    (exists rest, message = (exd ++ rest)%string /\
                  (rest = EmptyString \/ is_prefix eol rest = true)) /\
    contains eol exd = false /\
    (contains eol message = false -> exd = message).
Proof.
  intros Hne. cbn zeta. exists (first_segment eol message).
  unfold trackException. cbn [send b_body].
  split; [rewrite lookup_insert_ne by discriminate; now rewrite lookup_singleton_eq|].
  split; [now rewrite lookup_insert_eq|].
  split; [apply first_segment_split|].
  split; [now apply first_segment_clean | apply first_segment_whole].
Qed.

(** * The properties above, on concrete runs *)

Lemma X1_error_message_one_line_witness :
  parseErrorMessage validation_failed = "422 (Validation Failed)".
Proof.
  destruct (X1_error_message_one_line validation_failed) as (m & Hm & _ & _ & H).
  rewrite Hm, (H eq_refl). vm_compute. reflexivity.
Defined.

(** An asset of 1024 bytes is uploaded at the first call. *)
Lemma X3_upload_requests_witness :
  let r := GitHub_uploadAsset (ghClient_of releasing_config remote) "a.zip" calm [] store_init in
  final r = store_init /\
  exists req,
    In (EvUploadAsset Primary req
          (NetOk {| ad_browser_download_url :=
                      VStr "https://github.com/webpro/release-it/a.zip" |}))
       (emitted r).
Proof.
  cbn zeta.
  destruct (X3_upload_requests (ghClient_of releasing_config remote) "a.zip" calm []
              store_init) as (H1 & _ & _ & H4).
  split; [exact H1|].
  change (w_stat calm [] "a.zip") with (Returned (VNum 1024) : result value) in H4.
  destruct H4 as (rest & Hrest & _ & H).
  destruct (H {| ad_browser_download_url :=
                   VStr "https://github.com/webpro/release-it/a.zip" |})
    as (req & Hreq); [vm_compute; reflexivity|].
  exists req. rewrite Hrest. right. exact Hreq.
Defined.

(** Without the option [assets], nothing is done; with it, and no file
    that matches, there is a warning and no asset. *)
Lemma X4_upload_assets_witness :
  (let r := GitHub_uploadAssets (ghClient_of releasing_config remote) calm [] store_init in
   out r = Ok None /\ emitted r = []) /\
  (let r := GitHub_uploadAssets (ghClient_of assets_config remote) nothing_matches []
                                store_init in
   out r = Ok (Some []) /\ count is_upload (emitted r) = 0).
Proof.
  split.
  - apply (proj1 (proj2 (proj2 (X4_upload_assets (ghClient_of releasing_config remote)
                                  calm [] store_init)))).
    vm_compute. reflexivity.
  - cbn zeta.
    destruct (proj2 (proj2 (proj2 (X4_upload_assets (ghClient_of assets_config remote)
                                     nothing_matches [] store_init))))
      as (rest & Hem & Hnone & _); [vm_compute; reflexivity ..|].
    destruct (Hnone eq_refl) as (Hout & msg & Hrest).
    split; [exact Hout|]. rewrite Hem, Hrest. reflexivity.
Defined.

Lemma X7_api_client_witness :
  ao_baseUrl (api_options_of (ghClient_of releasing_config remote)) = "https://api.github.com".
Proof.
  apply (proj2 (proj1 (X7_api_client (ghClient_of releasing_config remote)))).
  vm_compute. reflexivity.
Defined.

(** The passcode is accepted at the second call: the package is marked
    as published. *)
Lemma X8_publish_marks_witness :
  final (publish 2 (npmClient_of publishing_config) publish_1_0_1 registry_with_otp []
                 store_init)
  = set_published Primary (VBool true) store_init.
Proof.
  assert (E : out (publish 2 (npmClient_of publishing_config) publish_1_0_1 registry_with_otp
                           [] store_init) = Ok tt) by (vm_compute; reflexivity).
  pose proof (X8_publish_marks 2 (npmClient_of publishing_config) publish_1_0_1
                registry_with_otp [] store_init (or_introl eq_refl)) as H.
  cbn zeta in H. rewrite E in H. exact (proj1 H).
Defined.

Lemma X9_passcode_rounds_witness :
  let r := publish 2 (npmClient_of publishing_config) publish_1_0_1 registry_with_otp []
                   store_init in
  out r = Ok tt /\
  count is_otp_prompt (emitted r) = 1 /\
  count is_publish_run (emitted r) = 2 /\
  final r = set_published Primary (VBool true) store_init.
Proof.
  apply (X9_passcode_rounds 1 2 (npmClient_of publishing_config) "my-package" publish_1_0_1
           registry_with_otp [] store_init);
    vm_compute; reflexivity.
Defined.

(** The option [isVerbose] changes nothing in what publish does. *)
Lemma X10_publish_reads_witness :
  publish 2 (with_option (npmClient_of publishing_config) "isVerbose" (VBool true))
          publish_1_0_1 registry_with_otp [] store_init
  = publish 2 (npmClient_of publishing_config) publish_1_0_1 registry_with_otp [] store_init.
Proof.
  apply (proj2 (X10_publish_reads 2 (npmClient_of publishing_config)
                  (npmClient_of publishing_config) publish_1_0_1 registry_with_otp []
                  store_init (or_introl eq_refl))).
  unfold publish_reads. rewrite !not_elem_of_cons.
  repeat split; try discriminate. apply not_elem_of_nil.
Defined.

(** A dry run that would release and publish. *)
Lemma X11_dry_run_witness :
  let r := tasks 1 dry_config granted [] store_init in
  Forall dry_event (emitted r) /\
  st_gh (final r) = gh_init /\
  st_gh_dist (final r) = gh_init.
Proof. apply (X11_dry_run 1 dry_config granted [] store_init). reflexivity. Defined.

(** The push is refused: the run ends there, with that error. *)
Lemma X12_fail_fast_witness :
  let r := tasks 1 plain_config push_refused [] store_init in
  Forall (fun e => failure_of e = None) (take 16 (emitted r)) /\
  out r = Throw (Rejected remote_rejected) /\
  drop 17 (emitted r) = [EvError (Rejected remote_rejected)].
Proof.
  apply (X12_fail_fast 1 plain_config push_refused [] store_init
           (take 16 (emitted (tasks 1 plain_config push_refused [] store_init)))
           (drop 17 (emitted (tasks 1 plain_config push_refused [] store_init)))
           (EvGit Primary GPush (Raised remote_rejected)) (Rejected remote_rejected)).
  - vm_compute. reflexivity.
  - reflexivity.
  - exact I.
Defined.

(** Nobody is asked for the passcode that the registry wants. *)
Lemma X13_never_asks_witness :
  Forall (fun e => is_prompt e = false)
         (emitted (tasks 2 unattended_config registry_with_otp [] store_init)).
Proof. apply (X13_never_asks 2 unattended_config registry_with_otp [] store_init). reflexivity. Defined.

(** No release and no publication are asked for: at the end none is
    marked. *)
Lemma X14_marks_are_backed_witness :
  let r := tasks 1 plain_config calm [] store_init in
  gh_of Primary (final r) = gh_of Primary store_init /\
  st_published (final r) = st_published store_init /\
  st_published_dist (final r) = st_published_dist store_init.
Proof.
  cbn zeta.
  destruct (X14_marks_are_backed Primary 1 plain_config calm [] store_init) as [H1 H2].
  assert (F1 : Forall (fun e => created Primary e = false)
                      (emitted (tasks 1 plain_config calm [] store_init)))
    by (vm_compute; repeat constructor).
  assert (F2 : Forall (fun e => published e = false)
                      (emitted (tasks 1 plain_config calm [] store_init)))
    by (vm_compute; repeat constructor).
  exact (conj (H1 F1) (H2 F2)).
Defined.


(** With every gate false, nothing is committed, tagged or pushed, no
    release is created and nothing is published. *)
Lemma X16_each_gate_witness :
  let es := emitted (release_steps 1 idle_config the_version (VBool false) VUndef Primary
                                   (primary_group idle_config)
                                   (ghClient_of idle_config remote) (npmClient_of idle_config)
                                   calm [] store_init) in
  count is_commit es = 0 /\ count is_tag es = 0 /\ count is_push es = 0 /\
  count is_create es = 0 /\ count is_publish_run es = 0.
Proof.
  destruct (X16_each_gate 1 idle_config the_version (VBool false) VUndef Primary
              (primary_group idle_config) (ghClient_of idle_config remote)
              (npmClient_of idle_config) calm [] store_init) as (H1 & H2 & H3 & H4 & H5).
  split; [apply H1 | split; [apply H2 | split; [apply H3 | split; [apply H4 | apply H5]]]];
    vm_compute; reflexivity.
Defined.

(** The git client says that no tag should be made. *)
Lemma X17_dist_tag_witness :
  count is_tag (emitted (dist_release 1 dual_config the_version (VBool false) VUndef
                                      (ghDistClient_of dual_config remote)
                                      (npmDistClient_of dual_config)
                                      never_tagging [] store_init)) = 0.
Proof.
  apply (proj2 (X17_dist_tag 1 dual_config the_version (VBool false) VUndef
                  (ghDistClient_of dual_config remote) (npmDistClient_of dual_config)
                  never_tagging [] store_init)).
  intros h'. reflexivity.
Defined.

(** The operator agrees to the release, the release is created, and the
    one asset is announced, listed, measured and uploaded after it. *)
Lemma X18_uploads_follow_release_witness :
  let es := emitted (release_steps 1 attended_assets_config the_version (VBool false) VUndef
                                   Primary (primary_group attended_assets_config)
                                   (ghClient_of attended_assets_config remote)
                                   (npmClient_of attended_assets_config)
                                   agreeing [] store_init) in
  count is_upload_step es = 4 /\
  count (created Primary) es = 1 /\
  uploads_follow_release Primary es.
Proof.
  split; [vm_compute; reflexivity|]. split; [vm_compute; reflexivity|].
  apply (X18_uploads_follow_release 1 attended_assets_config the_version (VBool false) VUndef
           Primary (primary_group attended_assets_config)
           (ghClient_of attended_assets_config remote)
           (npmClient_of attended_assets_config) agreeing [] store_init).
  reflexivity.
Defined.

(** An event without options says three things; with options, the
    flags are bits. *)
Lemma X19_tracked_event_witness :
  dom (b_body (trackEvent a_terminal (VStr "end") None)) = {["t"; "ec"; "ea"]} /\
  (let body := b_body (trackEvent a_terminal (VStr "start") (Some scripted)) in
   Forall (fun k => body !! k = Some (VNum 0) \/ body !! k = Some (VNum 1)) flag_dimensions /\
   body !! "sd" = Some (sd a_terminal)).
Proof.
  split.
  - apply (proj1 (proj2 (proj2 (proj2 (proj2
             (X19_tracked_event a_terminal (VStr "end") None)))))).
    reflexivity.
  - apply (proj1 (proj2 (proj2 (proj2 (proj2 (proj2
             (X19_tracked_event a_terminal (VStr "start") (Some scripted)))))))).
    discriminate.
Defined.

Lemma X20_tracked_exception_witness :
  let body := b_body (trackException line_feed
                        ("Invalid version" ++ line_feed ++ "    at Version.validate")) in
  exists exd,
    body !! "exd" = Some (VStr exd) /\
    body !! "t" = Some (VStr "exception") /\
    (exists rest, ("Invalid version" ++ line_feed ++ "    at Version.validate")%string
                  = (exd ++ rest)%string /\
                  (rest = EmptyString \/ is_prefix line_feed rest = true)) /\
    contains line_feed exd = false /\
    (contains line_feed ("Invalid version" ++ line_feed ++ "    at Version.validate") = false ->
     exd = ("Invalid version" ++ line_feed ++ "    at Version.validate")%string).
Proof.
  apply (X20_tracked_exception line_feed
           ("Invalid version" ++ line_feed ++ "    at Version.validate")).
  discriminate.
Defined.

(** * Uploads under way together *)

(** The sizes of all the files are read before any upload is answered;
    the answers come in the order that the environment chooses, and the
    assets are given in the order of the files. *)
Example uploads_out_of_order :
  let r := GitHub_uploadAssets (ghClient_of assets_config remote)
                               (two_assets (fun _ => false) (fun _ => false)) [] store_init in
  out r = Ok (Some [asset_answer "a.zip"; asset_answer "b.zip"]) /\
  emitted r =
  [EvLog Lexec "octokit releases#uploadAssets";
   EvGlobby (VStr "dist/*.zip") ["dist/a.zip"; "dist/b.zip"];
   EvStat "dist/a.zip" (Returned (VNum 1024));
   EvStat "dist/b.zip" (Returned (VNum 1024));
   EvUploadAsset Primary (asset_request "dist/b.zip" "b.zip") (NetOk (asset_answer "b.zip"));
   EvLog Lverbose
         "octokit releases#uploadAsset: done (https://github.com/webpro/release-it/b.zip)";
   EvUploadAsset Primary (asset_request "dist/a.zip" "a.zip") (NetOk (asset_answer "a.zip"));
   EvLog Lverbose
         "octokit releases#uploadAsset: done (https://github.com/webpro/release-it/a.zip)"].
Proof. vm_compute. repeat split. Qed.

(** An upload that is refused rejects the whole at once: the other
    upload, still under way, is not awaited. *)
Example a_refusal_ends_the_uploads :
  let r := GitHub_uploadAssets (ghClient_of assets_config remote)
                               (two_assets (fun _ => false) (String.eqb "dist/b.zip"))
                               [] store_init in
  out r = Throw (GithubClientError "404 (Not Found)") /\
  emitted r =
  [EvLog Lexec "octokit releases#uploadAssets";
   EvGlobby (VStr "dist/*.zip") ["dist/a.zip"; "dist/b.zip"];
   EvStat "dist/a.zip" (Returned (VNum 1024));
   EvStat "dist/b.zip" (Returned (VNum 1024));
   EvUploadAsset Primary (asset_request "dist/b.zip" "b.zip") (NetErr not_found)].
Proof. vm_compute. repeat split. Qed.

(** A size that cannot be read ends the run before any upload is
    answered. *)
Example an_unreadable_file_ends_the_uploads :
  let r := GitHub_uploadAssets (ghClient_of assets_config remote)
                               (two_assets (String.eqb "dist/b.zip") (fun _ => false))
                               [] store_init in
  out r = Throw (Rejected (Error "Error" "ENOENT: no such file")) /\
  emitted r =
  [EvLog Lexec "octokit releases#uploadAssets";
   EvGlobby (VStr "dist/*.zip") ["dist/a.zip"; "dist/b.zip"];
   EvStat "dist/a.zip" (Returned (VNum 1024));
   EvStat "dist/b.zip" (Raised (Error "Error" "ENOENT: no such file"))].
Proof. vm_compute. repeat split. Qed.
